(** * simcache: an E20 machine simulator with a one- or two-level cache

    A shallow embedding of [simcache.cpp].  Unsigned 16-bit quantities
    ([uint16_t]) are integers of [Z] with the wrap-around written out by
    [u16].  A C++ [int] is an integer of [Z] between [INT_MIN] and
    [INT_MAX]: the constructor of the cache and [stoi] check that range,
    and the [lru] counters, which only grow by one, are shown to stay
    inside it for fewer than 2^30 iterations of the loop
    ([counters_below], [run_counters]).
    Arrays and vectors are lists read and written by index.  An operation
    whose C++ behaviour is undefined (division by zero, signed overflow, an
    index outside a vector) or that throws yields [None]; allocation is
    taken to succeed. *)

From Stdlib Require Import ZArith Lia Bool List.
From stdpp Require Import base option list strings.

Local Open Scope Z_scope.

(** ** Constants *)

Definition NUM_REGS : Z := 8.
Definition MEM_SIZE : Z := Z.shiftl 1 13.
Definition REG_SIZE : Z := Z.shiftl 1 16.

(** Conversion of an integer to [uint16_t]. *)
Definition u16 (z : Z) : Z := z mod 65536.

(** The values of a 32-bit [int]. *)
Definition INT_MAX : Z := 2147483647.
Definition INT_MIN : Z := -2147483648.

Definition int_ok (z : Z) : bool := (INT_MIN <=? z) && (z <=? INT_MAX).

(** [a * b] on [int]s: signed overflow is undefined. *)
Definition int_mul (a b : Z) : option Z :=
  if int_ok (a * b) then Some (a * b) else None.

(** Integer division and remainder of C++ [int]s: truncation towards zero,
    undefined for a zero divisor. *)
Definition int_div (a b : Z) : option Z :=
  if b =? 0 then None else Some (Z.quot a b).

Definition int_rem (a b : Z) : option Z :=
  if b =? 0 then None else Some (Z.rem a b).

(** [v[i]] for an [int] index [i]. *)
Definition at_index {A} (v : list A) (i : Z) : option A :=
  if i <? 0 then None else v !! Z.to_nat i.

(** ** Cache structures *)

Record CacheBlock := mkBlock { valid : bool; tag : Z; lru : Z }.

Record CacheRow := mkRow { blocks : list CacheBlock }.

Record Cache := mkCache {
  rows : list CacheRow;
  cacheSize : Z;
  associativity : Z;
  blocksize : Z;
  numRows : Z
}.

(** [CacheBlock(int blocksize)] *)
Definition newBlock (bsize : Z) : CacheBlock := mkBlock false 0 0.

(** [CacheRow(int associativity, int blocksize)]: [reserve] of a negative
    count throws, which ends the process. *)
Definition newRow (assoc bsize : Z) : option CacheRow :=
  if assoc <? 0 then None
  else Some (mkRow (replicate (Z.to_nat assoc) (newBlock bsize))).

(** [Cache(int size, int assoc, int bsize)].  The three arguments are
    [int]s; the product [assoc * bsize] is an [int] product, undefined when
    it overflows, and so is the quotient [INT_MIN / -1], the one that
    exceeds [INT_MAX].  [reserve] of a negative row count throws. *)
Definition newCache (size assoc bsize : Z) : option Cache :=
  if int_ok size && int_ok assoc && int_ok bsize then
    p ← int_mul assoc bsize;
    n ← int_div size p;
    if (n <? 0) || (INT_MAX <? n) then None
    else
      rs ← (if 0 <? n
            then r ← newRow assoc bsize; Some (replicate (Z.to_nat n) r)
            else Some []);
      Some (mkCache rs size assoc bsize n)
  else None.

(** [b.lru = x] and [b.lru++] *)
Definition set_lru (x : Z) (b : CacheBlock) : CacheBlock :=
  mkBlock (valid b) (tag b) x.

(** The increment of the [int] counter is this sum for a counter below
    [INT_MAX]; [counters_below] bounds the counters of a run. *)
Definition age (b : CacheBlock) : CacheBlock := set_lru (lru b + 1) b.

(** [row.blocks[i].lru++] *)
Definition bump (i : nat) (bs : list CacheBlock) : option (list CacheBlock) :=
  b ← bs !! i; Some (<[i := age b]> bs).

(** The inner loop of a hit,
    [for (j = 0; j < associativity; ++j) if (j != i) row.blocks[j].lru++],
    with [n] iterations left and the loop variable at [j]. *)
Fixpoint age_others (n j i : nat) (bs : list CacheBlock)
  : option (list CacheBlock) :=
  match n with
  | O => Some bs
  | S n' =>
      bs' ← (if decide (j = i) then Some bs else bump j bs);
      age_others n' (S j) i bs'
  end.

(** The first loop of [loadWord], with [n] iterations left and the loop
    variable at [i]; the boolean tells whether the loop returned 1. *)
Fixpoint hit_loop (n i assoc : nat) (t : Z) (bs : list CacheBlock)
  : option (list CacheBlock * bool) :=
  match n with
  | O => Some (bs, false)
  | S n' =>
      bs1 ← bump i bs;
      b ← bs1 !! i;
      if valid b && (tag b =? t)
      then
        bs2 ← age_others assoc 0 i (<[i := set_lru 0 b]> bs1);
        Some (bs2, true)
      else hit_loop n' (S i) assoc t bs1
  end.

(** The second loop of [loadWord]: the index of the first largest [lru]. *)
Fixpoint max_loop (n i : nat) (bs : list CacheBlock) (lruIndex maxLRU : Z)
  : option (Z * Z) :=
  match n with
  | O => Some (lruIndex, maxLRU)
  | S n' =>
      b ← bs !! i;
      if maxLRU <? lru b
      then max_loop n' (S i) bs (Z.of_nat i) (lru b)
      else max_loop n' (S i) bs lruIndex maxLRU
  end.

(** [blk = row.blocks[idx]; blk.valid = true; blk.tag = t; blk.lru = 0] *)
Definition install (idx t : Z) (bs : list CacheBlock)
  : option (list CacheBlock) :=
  _ ← at_index bs idx;
  Some (<[Z.to_nat idx := mkBlock true t 0]> bs).

(** [loadWord] on the blocks of the addressed row. *)
Definition load_row (assoc : Z) (t : Z) (bs : list CacheBlock)
  : option (list CacheBlock * Z) :=
  '(bs1, hit) ← hit_loop (Z.to_nat assoc) 0 (Z.to_nat assoc) t bs;
  if hit : bool then Some (bs1, 1)
  else
    '(lruIndex, _) ← max_loop (Z.to_nat assoc) 0 bs1 (-1) (-1);
    bs2 ← install lruIndex t bs1;
    Some (bs2, 0).

(** [rows[rowIndex] = r] *)
Definition set_row (c : Cache) (rowIndex : Z) (bs : list CacheBlock) : Cache :=
  mkCache (<[Z.to_nat rowIndex := mkRow bs]> (rows c))
          (cacheSize c) (associativity c) (blocksize c) (numRows c).

(** [int loadWord(uint16_t address, int &rowIndex)]: the cache afterwards,
    the returned [int] and the row index. *)
Definition loadWord (c : Cache) (address : Z) : option (Cache * Z * Z) :=
  blk ← int_div address (blocksize c);
  q ← int_div blk (numRows c);
  let t := u16 q in
  rowIndex ← int_rem blk (numRows c);
  row ← at_index (rows c) rowIndex;
  '(bs, res) ← load_row (associativity c) t (blocks row);
  Some (set_row c rowIndex bs, res, rowIndex).

(** The loop of [storeWord], with [n] iterations left and the loop variable
    at [i]. *)
Fixpoint store_loop (n i : nat) (bs : list CacheBlock) (lruIndex maxLRU : Z)
  : option (list CacheBlock * Z * Z) :=
  match n with
  | O => Some (bs, lruIndex, maxLRU)
  | S n' =>
      b ← bs !! i;
      let '(lruIndex', maxLRU') :=
        if negb (valid b) || (maxLRU <? lru b)
        then (Z.of_nat i, lru b) else (lruIndex, maxLRU) in
      bs' ← bump i bs;
      store_loop n' (S i) bs' lruIndex' maxLRU'
  end.

(** [storeWord] on the blocks of the addressed row. *)
Definition store_row (assoc : Z) (t : Z) (bs : list CacheBlock)
  : option (list CacheBlock) :=
  '(bs1, lruIndex, _) ← store_loop (Z.to_nat assoc) 0 bs (-1) (-1);
  install lruIndex t bs1.

(** [void storeWord(uint16_t address, int &rowIndex)] *)
Definition storeWord (c : Cache) (address : Z) : option (Cache * Z) :=
  blk ← int_div address (blocksize c);
  q ← int_div blk (numRows c);
  let t := u16 q in
  rowIndex ← int_rem blk (numRows c);
  row ← at_index (rows c) rowIndex;
  bs ← store_row (associativity c) t (blocks row);
  Some (set_row c rowIndex bs, rowIndex).

(** ** The machine *)

(** One line of [print_log_entry]. *)
Record LogEntry := mkLog {
  log_cache : string;
  log_status : string;
  log_pc : Z;
  log_addr : Z;
  log_row : Z
}.

Definition print_log_entry (cache_name status : string) (pc addr row : Z)
  : LogEntry := mkLog cache_name status pc addr row.

(** The variables of the simulation loop of [main], and the lines
    [print_log_entry] has printed so far (the lines of
    [print_cache_config] and the state dump are console reporting and are
    left out). *)
Record Machine := mkMachine {
  pc : Z;
  regs : list Z;
  memory : list Z;
  l1Cache : Cache;
  l2Cache : option Cache;
  isHalt : bool;
  out : list LogEntry
}.

(** [a[i]] and [a[i] = v] on the register and memory arrays.  Every index
    the program uses is masked into its array ([& 0x7], [& 8191]), so the
    default that a read outside the list would give is never seen. *)
Definition rd (a : list Z) (i : Z) : Z := a !!! Z.to_nat i.
Definition wr (a : list Z) (i v : Z) : list Z := <[Z.to_nat i := v]> a.

(** The opcodes and function codes the handlers and the loop name. *)
Definition opcodeFirst : Z := 0.
Definition opcodeAddi : Z := 1.
Definition opcodeJ : Z := 2.
Definition opcodeJal : Z := 3.
Definition opcodeLw : Z := 4.
Definition opcodeSw : Z := 5.
Definition opcodeJeq : Z := 6.
Definition opcodeSlti : Z := 7.

Definition functionCodeAdd : Z := 0.
Definition functionCodeSub : Z := 1.
Definition functionCodeOr : Z := 2.
Definition functionCodeAnd : Z := 3.
Definition functionCodeSlt : Z := 4.
Definition functionCodeJr : Z := 8.

(** [void execute_instruction(uint16_t instr, uint16_t regs[], uint16_t& pc)] *)
Definition execute_instruction (instr : Z) (m : Machine) : Machine :=
  let functionCode := Z.land instr 15 in
  let regSrcA := Z.land (Z.shiftr instr 10) 7 in
  let regSrcB := Z.land (Z.shiftr instr 7) 7 in
  let regDst := Z.land (Z.shiftr instr 4) 7 in
  let r := regs m in
  let '(r1, pc1) :=
    if functionCode =? functionCodeAdd then
      (wr r regDst (u16 (rd r regSrcA + rd r regSrcB)), pc m)
    else if functionCode =? functionCodeSub then
      (wr r regDst (u16 (rd r regSrcA - rd r regSrcB)), pc m)
    else if functionCode =? functionCodeOr then
      (wr r regDst (Z.lor (rd r regSrcA) (rd r regSrcB)), pc m)
    else if functionCode =? functionCodeAnd then
      (wr r regDst (Z.land (rd r regSrcA) (rd r regSrcB)), pc m)
    else if functionCode =? functionCodeSlt then
      (wr r regDst (if rd r regSrcA <? rd r regSrcB then 1 else 0), pc m)
    else if functionCode =? functionCodeJr then
      (r, u16 (rd r (Z.land (Z.shiftr instr 10) 7) - 1))
    else (r, pc m) in
  mkMachine (u16 (pc1 + 1)) (wr r1 0 0) (memory m)
            (l1Cache m) (l2Cache m) (isHalt m) (out m).

(** [uint16_t imm = instr & 0x7F; if (imm & 0x40) imm |= 0xFF80;] *)
Definition imm7 (instr : Z) : Z :=
  let imm := Z.land instr 127 in
  if Z.land imm 64 =? 0 then imm else Z.lor imm 65408.

(** [void execute_imm_instruction(uint16_t instr, uint16_t regs[],
    uint16_t& pc, uint16_t memory[], Cache& l1Cache, Cache* l2Cache)] *)
Definition execute_imm_instruction (instr : Z) (m : Machine)
  : option Machine :=
  let opcode := Z.land (Z.shiftr instr 13) 7 in
  let regSrc := Z.land (Z.shiftr instr 10) 7 in
  let regDst := Z.land (Z.shiftr instr 7) 7 in
  let imm := imm7 instr in
  let r := regs m in
  let address := u16 (Z.land (rd r regSrc + imm) 8191) in
  m1 ←
    (if opcode =? opcodeSlti then
       Some (mkMachine (u16 (pc m + 1))
               (wr r regDst (if rd r regSrc <? imm then 1 else 0))
               (memory m) (l1Cache m) (l2Cache m) (isHalt m) (out m))
     else if opcode =? opcodeLw then
       let regAddr := Z.land (Z.shiftr instr 10) 7 in
       let regDst := Z.land (Z.shiftr instr 7) 7 in
       let imm := imm7 instr in
       let address := u16 (Z.land (rd r regAddr + imm) 8191) in
       '(l1, res1, l1Row) ← loadWord (l1Cache m) address;
       let hit1 := negb (res1 =? 0) in
       let out1 := out m ++
         [print_log_entry "L1" (if hit1 then "HIT" else "MISS")
                          (pc m) address l1Row] in
       '(l2, hit, out2) ←
         (match l2Cache m with
          | Some c2 =>
              if negb hit1 then
                '(c2', res2, l2Row) ← loadWord c2 address;
                let hit2 := negb (res2 =? 0) in
                Some (Some c2', hit2, out1 ++
                  [print_log_entry "L2" (if hit2 then "HIT" else "MISS")
                                   (pc m) address l2Row])
              else Some (Some c2, hit1, out1)
          | None => Some (None, hit1, out1)
          end);
       let r1 :=
         if negb hit then
           let loadAddr := u16 (Z.land (rd r regAddr + imm) 8191) in
           if loadAddr <? Z.shiftl 1 13
           then wr r regDst (rd (memory m) loadAddr) else r
         else r in
       Some (mkMachine (u16 (pc m + 1)) r1 (memory m) l1 l2 (isHalt m) out2)
     else if opcode =? opcodeSw then
       let regAddr := Z.land (Z.shiftr instr 10) 7 in
       let regSrc := Z.land (Z.shiftr instr 7) 7 in
       let imm := imm7 instr in
       let storeAddr := u16 (Z.land (rd r regAddr + imm) 8191) in
       let mem1 :=
         if storeAddr <? Z.shiftl 1 13
         then wr (memory m) storeAddr (rd r regSrc) else memory m in
       '(l1, l1Row) ← storeWord (l1Cache m) address;
       let out1 := out m ++
         [print_log_entry "L1" "SW" (pc m) address l1Row] in
       '(l2, out2) ←
         (match l2Cache m with
          | Some c2 =>
              '(c2', l2Row) ← storeWord c2 address;
              Some (Some c2', out1 ++
                [print_log_entry "L2" "SW" (pc m) address l2Row])
          | None => Some (None, out1)
          end);
       Some (mkMachine (u16 (pc m + 1)) r mem1 l1 l2 (isHalt m) out2)
     else if opcode =? opcodeJeq then
       Some (mkMachine
               (if rd r regSrc =? rd r regDst
                then u16 (pc m + 1 + imm) else u16 (pc m + 1))
               r (memory m) (l1Cache m) (l2Cache m) (isHalt m) (out m))
     else if opcode =? opcodeAddi then
       Some (mkMachine (u16 (pc m + 1))
               (wr r regDst (u16 (rd r regSrc + imm)))
               (memory m) (l1Cache m) (l2Cache m) (isHalt m) (out m))
     else
       Some (mkMachine (u16 (pc m + 1)) r (memory m)
               (l1Cache m) (l2Cache m) (isHalt m) (out m)));
  Some (mkMachine (pc m1) (wr (regs m1) 0 0) (memory m1)
          (l1Cache m1) (l2Cache m1) (isHalt m1) (out m1)).

(** [void execute_control_instruction(uint16_t instr, uint16_t regs[],
    uint16_t& pc, bool& isHalt)] *)
Definition execute_control_instruction (instr : Z) (m : Machine) : Machine :=
  let opcode := Z.land (Z.shiftr instr 13) 7 in
  let imm := Z.land instr 8191 in
  let '(r1, pc1, h1) :=
    if opcode =? opcodeJ then
      if imm =? pc m then (regs m, pc m, true) else (regs m, imm, isHalt m)
    else if opcode =? opcodeJal then
      (wr (regs m) 7 (u16 (pc m + 1)), imm, isHalt m)
    else (regs m, pc m, isHalt m) in
  mkMachine pc1 (wr r1 0 0) (memory m) (l1Cache m) (l2Cache m) h1 (out m).

(** [isHalt = true] *)
Definition halt (m : Machine) : Machine :=
  mkMachine (pc m) (regs m) (memory m) (l1Cache m) (l2Cache m) true (out m).

(** The opcode and the 13-bit immediate of the word the loop fetches. *)
Definition fetch (m : Machine) : Z := rd (memory m) (Z.land (pc m) 8191).

Definition opcode_of (instr : Z) : Z := Z.land (Z.shiftr instr 13) 7.
Definition imm13_of (instr : Z) : Z := Z.land instr 8191.

(** One iteration of [while (!isHalt)] in [main]. *)
Definition step (m : Machine) : option Machine :=
  let instr := fetch m in
  let imm := imm13_of instr in
  let opcode := opcode_of instr in
  if (opcode =? opcodeJ) && (imm =? pc m) then Some (halt m)
  else if opcode =? opcodeFirst then Some (execute_instruction instr m)
  else if (opcode =? opcodeSlti) || (opcode =? opcodeAddi)
          || (opcode =? opcodeLw) || (opcode =? opcodeSw)
          || (opcode =? opcodeJeq)
  then execute_imm_instruction instr m
  else if (opcode =? opcodeJ) || (opcode =? opcodeJal)
  then Some (execute_control_instruction instr m)
  else Some m.

(** The loop itself, cut off after [fuel] iterations. *)
Fixpoint run (fuel : nat) (m : Machine) : option Machine :=
  match fuel with
  | O => Some m
  | S fuel' =>
      if isHalt m then Some m
      else m' ← step m; run fuel' m'
  end.

(** ** Start-up *)

(** [uint16_t memory[MEM_SIZE] = {0}] filled by [load_machine_code] with
    the words of the program file, in order: the memory the loop of
    [load_lines] below leaves for lines that [stoi] reads and whose
    addresses count up from 0 ([load_lines_spec]). *)
Definition load_machine_code (words : list Z) : list Z :=
  take (Z.to_nat MEM_SIZE)
       (map u16 words ++ replicate (Z.to_nat MEM_SIZE) 0).

Definition initial (words : list Z) (l1 : Cache) (l2 : option Cache)
  : Machine :=
  mkMachine 0 (replicate (Z.to_nat NUM_REGS) 0) (load_machine_code words)
            l1 l2 false [].

(** How [main] ends once its arguments are parsed. *)
Inductive Outcome :=
| NoCacheGiven                (* no [--cache]: nothing runs, [return 0] *)
| InvalidConfig               (* "Invalid cache config", [return 1] *)
| ProgramTooBig               (* "Program too big for memory", [exit(1)] *)
| Aborted                     (* undefined behaviour or uncaught exception *)
| Returned (m : Machine)      (* the loop ended, [return 0] *)
| Running (m : Machine).      (* the loop has not ended within the fuel *)

(** What [stoi] returns for a numeral: no numeral is negative, and one
    above [INT_MAX] makes [stoi] throw [std::out_of_range], which nothing
    catches. *)
Definition numeral_ok (w : Z) : bool := (0 <=? w) && (w <=? INT_MAX).

(** The rest of [main] once the caches are built.  [words] are the
    numerals of the lines of the program file, in order; the loader reads
    line after line and stops at line number [MEM_SIZE], so it is in the
    first [MEM_SIZE + 1] lines that a numeral can make [stoi] throw. *)
Definition simulate_with (l1 : Cache) (l2 : option Cache)
    (words : list Z) (fuel : nat) : Outcome :=
  if negb (forallb numeral_ok (take (Z.to_nat (MEM_SIZE + 1)) words))
  then Aborted
  else if Z.of_nat (length words) >? MEM_SIZE then ProgramTooBig
  else match run fuel (initial words l1 l2) with
       | None => Aborted
       | Some m => if isHalt m then Returned m else Running m
       end.

(** [main] from the numbers [parts] of the [--cache] argument and the
    words of the program file, which is taken to open, its lines to match
    the pattern of the loader and their addresses to count up from 0.  A
    part outside [int] makes [stoi] throw before the number of parts is
    looked at. *)
Definition main (parts : list Z) (words : list Z) (fuel : nat)
  : Outcome :=
  if negb (forallb int_ok parts) then Aborted else
  match parts with
  | [] => NoCacheGiven
  | [s1; a1; b1] =>
      match newCache s1 a1 b1 with
      | None => Aborted
      | Some l1 => simulate_with l1 None words fuel
      end
  | [s1; a1; b1; s2; a2; b2] =>
      match newCache s1 a1 b1 with
      | None => Aborted
      | Some l1 =>
          match newCache s2 a2 b2 with
          | None => Aborted
          | Some l2 => simulate_with l1 (Some l2) words fuel
          end
      end
  | _ => InvalidConfig
  end.

Definition exit_status (o : Outcome) : option Z :=
  match o with
  | NoCacheGiven => Some 0
  | InvalidConfig => Some 1
  | ProgramTooBig => Some 1
  | Returned _ => Some 0
  | Aborted => None
  | Running _ => None
  end.

(** * Specifications

    The definitions below are not code of the simulator: they state what
    its loops compute and what its data satisfies. *)

(** ** The loops of the cache, read as recursions on the row *)

(** Every block but the one at [k] is aged once. *)
Fixpoint age_except (k : nat) (bs : list CacheBlock) {struct bs}
  : list CacheBlock :=
  match bs, k with
  | [], _ => []
  | b :: bs', O => b :: map age bs'
  | b :: bs', S k' => age b :: age_except k' bs'
  end.

(** The row a hit leaves behind: the blocks ahead of the first matching one
    are aged twice, the matching one has [lru = 0], the ones behind it are
    aged once.  [None] when no valid block carries the tag. *)
Fixpoint hit_scan (t : Z) (bs : list CacheBlock) : option (list CacheBlock) :=
  match bs with
  | [] => None
  | b :: bs' =>
      if valid b && (tag b =? t) then Some (set_lru 0 b :: map age bs')
      else (fun r => age (age b) :: r) <$> hit_scan t bs'
  end.

(** The candidate of the miss loop, from index [i] on. *)
Fixpoint max_scan (i : nat) (bs : list CacheBlock) (lruIndex maxLRU : Z)
  : Z * Z :=
  match bs with
  | [] => (lruIndex, maxLRU)
  | b :: bs' =>
      if maxLRU <? lru b
      then max_scan (S i) bs' (Z.of_nat i) (lru b)
      else max_scan (S i) bs' lruIndex maxLRU
  end.

(** The candidate of the store loop, from index [i] on. *)
Fixpoint store_scan (i : nat) (bs : list CacheBlock) (lruIndex maxLRU : Z)
  : Z * Z :=
  match bs with
  | [] => (lruIndex, maxLRU)
  | b :: bs' =>
      if negb (valid b) || (maxLRU <? lru b)
      then store_scan (S i) bs' (Z.of_nat i) (lru b)
      else store_scan (S i) bs' lruIndex maxLRU
  end.

(** ** Well-formed caches *)

(** What the constructor establishes and every access keeps: a positive
    geometry, [numRows] rows of [associativity] blocks each, and counters
    that are never negative. *)
Definition block_ok (b : CacheBlock) : bool := 0 <=? lru b.

Definition row_ok (assoc : Z) (r : CacheRow) : bool :=
  (Z.of_nat (length (blocks r)) =? assoc) && forallb block_ok (blocks r).

Definition cache_ok (c : Cache) : bool :=
  (0 <? blocksize c) && (0 <? numRows c) && (0 <? associativity c)
  && (Z.of_nat (length (rows c)) =? numRows c)
  && forallb (row_ok (associativity c)) (rows c).

Definition nonneg (bs : list CacheBlock) : Prop :=
  Forall (fun b => 0 <= lru b) bs.

(** An invalid block has been aged by every access to its row and never
    reset, so no block behind it carries a larger counter. *)
Fixpoint dominated (bs : list CacheBlock) : Prop :=
  match bs with
  | [] => True
  | b :: bs' =>
      (valid b = false -> Forall (fun b' => lru b' <= lru b) bs')
      /\ dominated bs'
  end.

(** The caches a run can hold: built by the constructor, then read and
    written. *)
Inductive reachable : Cache -> Prop :=
| reach_new size assoc bsize c :
    newCache size assoc bsize = Some c -> reachable c
| reach_load c address c' res rowIndex :
    reachable c -> loadWord c address = Some (c', res, rowIndex) ->
    reachable c'
| reach_store c address c' rowIndex :
    reachable c -> storeWord c address = Some (c', rowIndex) ->
    reachable c'.

(** The row and the tag both accesses compute from an address. *)
Definition row_of (c : Cache) (address : Z) : Z :=
  Z.rem (Z.quot address (blocksize c)) (numRows c).

Definition tag_of (c : Cache) (address : Z) : Z :=
  u16 (Z.quot (Z.quot address (blocksize c)) (numRows c)).

Definition row_shape (assoc : Z) (r : CacheRow) : Prop :=
  length (blocks r) = Z.to_nat assoc /\ nonneg (blocks r).

Definition row_inv (assoc : Z) (r : CacheRow) : Prop :=
  length (blocks r) = Z.to_nat assoc /\ 0 < assoc
  /\ nonneg (blocks r) /\ dominated (blocks r).

Definition cache_inv (c : Cache) : Prop :=
  Z.of_nat (length (rows c)) = numRows c
  /\ Forall (row_inv (associativity c)) (rows c).

(** ** Decoding *)

(** The value of a 7-bit immediate once widened to 16 bits, and as the
    signed number it stands for. *)
Definition widen7 (i : Z) : Z := if i <? 64 then i else i + 65408.
Definition signed7 (i : Z) : Z := if i <? 64 then i else i - 128.

(** The register fields and the effective address of a load or a store. *)
Definition regA_of (instr : Z) : Z := Z.land (Z.shiftr instr 10) 7.
Definition regB_of (instr : Z) : Z := Z.land (Z.shiftr instr 7) 7.
Definition regC_of (instr : Z) : Z := Z.land (Z.shiftr instr 4) 7.

Definition address_of (instr : Z) (r : list Z) : Z :=
  u16 (Z.land (rd r (regA_of instr) + imm7 instr) 8191).

(** All 128 immediates, checked one by one. *)
Definition widen_check (n : nat) : bool :=
  let i := Z.of_nat n in
  (if Z.land i 64 =? 0 then i else Z.lor i 65408) =? widen7 i.

(** ** Well-formed machines *)

(** Eight registers, [MEM_SIZE] memory cells, well-formed caches. *)
Definition machine_ok (m : Machine) : bool :=
  (Z.of_nat (length (regs m)) =? NUM_REGS)
  && (Z.of_nat (length (memory m)) =? MEM_SIZE)
  && cache_ok (l1Cache m)
  && match l2Cache m with Some c => cache_ok c | None => true end.

(** The lines a load and a store print. *)
Definition load_entry (name : string) (res pc addr row : Z) : LogEntry :=
  print_log_entry name (if negb (res =? 0) then "HIT" else "MISS")
                  pc addr row.

Definition store_entry (name : string) (pc addr row : Z) : LogEntry :=
  print_log_entry name "SW" pc addr row.

(** ** Sample machines

    Instruction words are assembled field by field; the samples run on a
    direct-mapped cache of four one-word rows unless they say otherwise. *)

Definition enc_imm (opcode regA regB imm : Z) : Z :=
  opcode * 8192 + regA * 1024 + regB * 128 + imm.

Definition enc_reg (regA regB regC func : Z) : Z :=
  regA * 1024 + regB * 128 + regC * 16 + func.

Definition enc_jump (opcode imm : Z) : Z := opcode * 8192 + imm.

Definition cache_of (size assoc bsize : Z) : Cache :=
  default (mkCache [] size assoc bsize 0) (newCache size assoc bsize).

(** A machine about to execute [words] at address 0 with the given
    registers. *)
Definition machine_with (r : list Z) (words : list Z)
    (l1 : Cache) (l2 : option Cache) : Machine :=
  mkMachine 0 r (load_machine_code words) l1 l2 false [].

(** [sw $1, 10($0)] with 5 in register 1, on one and on two cache levels. *)
Definition sample_sw : Machine :=
  machine_with [0; 5; 0; 0; 0; 0; 0; 0] [enc_imm 5 0 1 10]
               (cache_of 4 1 1) None.

Definition sample_sw2 : Machine :=
  machine_with [0; 5; 0; 0; 0; 0; 0; 0] [enc_imm 5 0 1 10]
               (cache_of 4 1 1) (Some (cache_of 16 2 2)).

(** [lw $2, 10($0)] on two cache levels. *)
Definition sample_lw2 : Machine :=
  machine_with [0; 5; 0; 0; 0; 0; 0; 0] [enc_imm 4 0 2 10]
               (cache_of 4 1 1) (Some (cache_of 16 2 2)).

(** The outcome on the last line printed. *)
Definition last_status (l : list LogEntry) : option string :=
  log_status <$> last l.

(** [lw $2, 1($0)] over a memory cell holding 1234. *)
Definition sample_lw : Machine :=
  machine_with [0; 0; 0; 0; 0; 0; 0; 0] [enc_imm 4 0 2 1; 1234]
               (cache_of 4 1 1) None.

(** [addi $1, $0, 5; sw $1, 10($0); lw $2, 10($0); j 3] *)
Definition store_load_program : list Z :=
  [enc_imm 1 0 1 5; enc_imm 5 0 1 10; enc_imm 4 0 2 10; enc_jump 2 3].

(** The machine of [store_load_program] after its first [n] steps. *)
Definition store_load_after (n : nat) : Machine :=
  default (machine_with [] [] (cache_of 4 1 1) None)
          (run n (machine_with [0; 0; 0; 0; 0; 0; 0; 0] store_load_program
                               (cache_of 4 1 1) None)).

(** [slti $2, $1, 127] with 200 in register 1. *)
Definition sample_slti : Machine :=
  machine_with [0; 200; 0; 0; 0; 0; 0; 0] [enc_imm 7 1 2 127]
               (cache_of 4 1 1) None.

(** With 65535 in register 1 and 2 in register 2: [add $3, $1, $2] goes
    past 65535, [sub $3, $2, $1] and [addi $3, $0, -1] go below zero. *)
Definition sample_add : Machine :=
  machine_with [0; 65535; 2; 0; 0; 0; 0; 0] [enc_reg 1 2 3 0]
               (cache_of 4 1 1) None.

Definition sample_sub : Machine :=
  machine_with [0; 65535; 2; 0; 0; 0; 0; 0] [enc_reg 2 1 3 1]
               (cache_of 4 1 1) None.

Definition sample_addi : Machine :=
  machine_with [0; 65535; 2; 0; 0; 0; 0; 0] [enc_imm 1 0 3 127]
               (cache_of 4 1 1) None.

(** [addi $0, $1, 5]: a write aimed at register 0. *)
Definition sample_addi_r0 : Machine :=
  machine_with [0; 7; 0; 0; 0; 0; 0; 0] [enc_imm 1 1 0 5]
               (cache_of 4 1 1) None.

(** [addi $1, $0, 9; j 1]: the jump at address 1 targets itself. *)
Definition self_jump_program : list Z := [enc_imm 1 0 1 9; enc_jump 2 1].

Definition sample_self_jump : Machine :=
  default (machine_with [] [] (cache_of 4 1 1) None)
          (run 1 (machine_with [0; 0; 0; 0; 0; 0; 0; 0] self_jump_program
                               (cache_of 4 1 1) None)).

(** ** Victims *)

(** The block at [v] is invalid and every block behind it is valid. *)
Definition last_invalid (bs : list CacheBlock) (v : nat) : Prop :=
  exists b, bs !! v = Some b /\ valid b = false
    /\ forall j b', (v < j)%nat -> bs !! j = Some b' -> valid b' = true.

(** The block at [v] is invalid and every block ahead of it is valid. *)
Definition first_invalid (bs : list CacheBlock) (v : nat) : Prop :=
  exists b, bs !! v = Some b /\ valid b = false
    /\ forall j b', (j < v)%nat -> bs !! j = Some b' -> valid b' = true.

(** No counter exceeds the one at [v], and the ones ahead of it are
    smaller. *)
Definition first_largest (bs : list CacheBlock) (v : nat) : Prop :=
  exists b, bs !! v = Some b
    /\ (forall j b', bs !! j = Some b' -> lru b' <= lru b)
    /\ forall j b', (j < v)%nat -> bs !! j = Some b' -> lru b' < lru b.

(** A run of loads, with what each returned. *)
Fixpoint loads (c : Cache) (addresses : list Z) : option (Cache * list Z) :=
  match addresses with
  | [] => Some (c, [])
  | a :: rest =>
      '(c1, res, _) ← loadWord c a;
      '(c2, results) ← loads c1 rest;
      Some (c2, res :: results)
  end.

(** One row of two blocks, after loads of addresses 0 and 1. *)
Definition two_way_loaded : Cache :=
  default (cache_of 2 2 1) (fst <$> loads (cache_of 2 2 1) [0; 1]).

(** [j 0]: the shortest program that halts. *)
Definition halt_program : list Z := [enc_jump 2 0].

(** [lw $1, 0($0); j 1] *)
Definition load_program : list Z := [enc_imm 4 0 1 0; enc_jump 2 1].

(** ** Residency *)

(** A block answers for the tag [t]; a row holds [t]; an address is cached
    when the row it selects holds its tag. *)
Definition matches (t : Z) (b : CacheBlock) : bool :=
  valid b && (tag b =? t).

Definition holds (t : Z) (bs : list CacheBlock) : bool :=
  existsb (matches t) bs.

Definition cached (c : Cache) (address : Z) : bool :=
  match at_index (rows c) (row_of c address) with
  | Some r => holds (tag_of c address) (blocks r)
  | None => false
  end.

(** The block at [k] carries [t] with [lru = 0], and it is the only block
    whose counter is below 1. *)
Definition most_recent (t : Z) (bs : list CacheBlock) (k : nat) : Prop :=
  exists b, bs !! k = Some b /\ valid b = true /\ tag b = t /\ lru b = 0
    /\ forall j b', j <> k -> bs !! j = Some b' -> 1 <= lru b'.

(** What the tag comparison of a block looks at. *)
Definition key (b : CacheBlock) : bool * Z := (valid b, tag b).

(** [c'] is [c] after a load or a store of [address]. *)
Definition accessed (c : Cache) (address : Z) (c' : Cache) : Prop :=
  (exists res rowIndex, loadWord c address = Some (c', res, rowIndex))
  \/ (exists rowIndex, storeWord c address = Some (c', rowIndex)).

(** Two caches of the same geometry. *)
Definition same_geometry (c c' : Cache) : Prop :=
  cacheSize c' = cacheSize c /\ associativity c' = associativity c
  /\ blocksize c' = blocksize c /\ numRows c' = numRows c
  /\ length (rows c') = length (rows c).

(** A direct-mapped cache of four rows after a load of address 5, and a
    two-way cache of two two-word blocks per row after loads of 0 and 4. *)
Definition direct_loaded : Cache :=
  default (cache_of 4 1 1) (fst <$> loads (cache_of 4 1 1) [5]).

Definition wide_loaded : Cache :=
  default (cache_of 8 2 2) (fst <$> loads (cache_of 8 2 2) [0; 4]).

(** ** A flood of misses *)

(** A row of [n] blocks after loads of the pairwise distinct tags [ts]
    into a fresh row: the tag number [i] of the last [n] sits in block
    [i mod n] and has been aged by the loads behind it; the blocks no load
    has reached yet are invalid and have been aged by every load. *)
Definition flood_inv (n : nat) (ts : list Z) (bs : list CacheBlock) : Prop :=
  length bs = n
  /\ (forall i t,
        ts !! i = Some t -> (length ts - i <= n)%nat ->
        bs !! (i mod n)%nat
        = Some (mkBlock true t (Z.of_nat (length ts) - 1 - Z.of_nat i)))
  /\ (forall j,
        (length ts <= j < n)%nat ->
        bs !! j = Some (mkBlock false 0 (Z.of_nat (length ts)))).

(** ** More sample machines *)

(** [jal 2] at address 0 and [jr $7] at address 2. *)
Definition sample_call : Machine :=
  machine_with [0; 0; 0; 0; 0; 0; 0; 0]
               [enc_jump 3 2; enc_jump 2 1; enc_reg 7 0 0 8]
               (cache_of 4 1 1) None.

(** [jr $0]. *)
Definition sample_jr0 : Machine :=
  machine_with [0; 0; 0; 0; 0; 0; 0; 0] [enc_reg 0 0 0 8]
               (cache_of 4 1 1) None.

(** A register-register word with the function code 5, which no
    instruction has. *)
Definition sample_unknown : Machine :=
  machine_with [0; 6; 7; 8; 0; 0; 0; 0] [enc_reg 1 2 3 5]
               (cache_of 4 1 1) None.

(** [jeq $1, $2, -2] with equal registers. *)
Definition sample_jeq : Machine :=
  machine_with [0; 4; 4; 0; 0; 0; 0; 0] [enc_imm 6 1 2 126]
               (cache_of 4 1 1) None.

(** [j 0] at address 0, fetched with the pc one memory size further. *)
Definition sample_alias : Machine :=
  mkMachine 8192 [0; 0; 0; 0; 0; 0; 0; 0] (load_machine_code [enc_jump 2 0])
            (cache_of 4 1 1) None false [].

(** [j 1] at address 0. *)
Definition sample_jump : Machine :=
  machine_with [0; 0; 0; 0; 0; 0; 0; 0] [enc_jump 2 1; enc_jump 2 1]
               (cache_of 4 1 1) None.

(** ** The log *)

(** A line a step of [m] may print: the pc of the instruction, its
    effective address, and for L1 or L2 the row that cache selects for the
    address; a load prints HIT or MISS, a store SW. *)
Definition entry_ok (m : Machine) (e : LogEntry) : Prop :=
  log_pc e = pc m
  /\ log_addr e = address_of (fetch m) (regs m)
  /\ 0 <= log_addr e < 8192
  /\ ((log_cache e = "L1"
       /\ log_row e = row_of (l1Cache m) (log_addr e)
       /\ 0 <= log_row e < numRows (l1Cache m))
      \/ (exists c2, l2Cache m = Some c2 /\ log_cache e = "L2"
            /\ log_row e = row_of c2 (log_addr e)
            /\ 0 <= log_row e < numRows c2))
  /\ ((opcode_of (fetch m) = opcodeLw
       /\ (log_status e = "HIT" \/ log_status e = "MISS"))
      \/ (opcode_of (fetch m) = opcodeSw /\ log_status e = "SW")).

(** ** The loader *)

(** A line of the program file as the pattern
    [^ram\[(\d+)\] = 16'b(\d+);.*$] of [load_machine_code] sees it: one it
    does not match, or the digits of its two groups, each a number from 0
    to 9, the most significant first. *)
Inductive Line :=
| Unmatched
| Ram (addr instr : list Z).

(** The digits [stoi] consumes: the longest prefix of digits of the
    base. *)
Fixpoint digits_below (base : Z) (ds : list Z) : list Z :=
  match ds with
  | d :: rest =>
      if (0 <=? d) && (d <? base) then d :: digits_below base rest else []
  | [] => []
  end.

Definition value_of (base : Z) (ds : list Z) : Z :=
  fold_left (fun acc d => acc * base + d) ds 0.

(** [stoi(s, nullptr, base)] on a string of digits.  [None] when it throws:
    [std::invalid_argument] when no digit is consumed,
    [std::out_of_range] for a value above [INT_MAX]. *)
Definition stoi (base : Z) (ds : list Z) : option Z :=
  match digits_below base ds with
  | [] => None
  | p => if value_of base p <=? INT_MAX then Some (value_of base p) else None
  end.

(** How [load_machine_code] ends. *)
Inductive LoadResult :=
| Loaded (mem : list Z)
| CantParse                 (* "Can't parse line", [exit(1)] *)
| Thrown                    (* [stoi] threw; nothing catches it *)
| OutOfSequence (addr : Z)  (* "Memory addresses encountered out of
                               sequence", [exit(1)] *)
| TooBig.                   (* "Program too big for memory", [exit(1)] *)

(** The loop of [load_machine_code] from [expectedaddr] on. *)
Fixpoint load_lines (lines : list Line) (expectedaddr : Z)
    (mem : list Z) : LoadResult :=
  match lines with
  | [] => Loaded mem
  | Unmatched :: _ => CantParse
  | Ram a w :: rest =>
      match stoi 10 a with
      | None => Thrown
      | Some addr =>
          match stoi 2 w with
          | None => Thrown
          | Some instr =>
              if negb (addr =? expectedaddr) then OutOfSequence addr
              else if MEM_SIZE <=? addr then TooBig
              else load_lines rest (expectedaddr + 1)
                              (wr mem addr (u16 instr))
          end
      end
  end.

(** [uint16_t memory[MEM_SIZE] = {0}] *)
Definition zero_memory : list Z := replicate (Z.to_nat MEM_SIZE) 0.

(** The address and the word [stoi] reads from a line, when the line
    matches and [stoi] returns twice. *)
Definition read_line (line : Line) : option (Z * Z) :=
  match line with
  | Unmatched => None
  | Ram a w => addr ← stoi 10 a; instr ← stoi 2 w; Some (addr, instr)
  end.

(** Every line is read, and the addresses count up from [e]. *)
Fixpoint in_sequence (e : Z) (lines : list Line) : bool :=
  match lines with
  | [] => true
  | line :: rest =>
      match read_line line with
      | Some (addr, _) => (addr =? e) && in_sequence (e + 1) rest
      | None => false
      end
  end.

(** The words of the lines that are read. *)
Definition words_of (lines : list Line) : list Z :=
  omap (fun line => snd <$> read_line line) lines.

(** [ram[0] = 16'b110;], [ram[1] = 16'b10000000000000111;] (17 bits) and
    [ram[2] = 16'b121;], of which [stoi] reads the leading 1; the same with
    the last address off by one; and a word of 32 bits. *)
Definition sample_lines : list Line :=
  [Ram [0] [1; 1; 0];
   Ram [1] [1; 0; 0; 0; 0; 0; 0; 0; 0; 0; 0; 0; 0; 0; 1; 1; 1];
   Ram [2] [1; 2; 1]].

Definition sample_gap : list Line :=
  [Ram [0] [1; 1; 0]; Ram [1] [1; 1; 1]; Ram [3] [1; 2; 1]].

Definition sample_long : list Line :=
  [Ram [0] [1; 1; 0]; Ram [1] (replicate 32 1)].

(** ** 16-bit words *)

(** A value a [uint16_t] holds. *)
Definition word_ok (z : Z) : bool := (0 <=? z) && (z <? 65536).

(** The pc, the registers and the memory cells are [uint16_t] values. *)
Definition words_ok (m : Machine) : bool :=
  word_ok (pc m) && forallb word_ok (regs m) && forallb word_ok (memory m).

(** [or $3, $1, $2; and $4, $1, $2; jr $1] with 65535 in register 1. *)
Definition sample_bits : Machine :=
  machine_with [0; 65535; 43690; 0; 0; 0; 0; 0]
               [enc_reg 1 2 3 2; enc_reg 1 2 4 3; enc_reg 1 0 0 8]
               (cache_of 4 1 1) None.

(** ** The counters of a run *)

(** Every [lru] counter of the cache is at most [k]. *)
Definition lru_below (k : Z) (c : Cache) : bool :=
  forallb (fun r => forallb (fun b => lru b <=? k) (blocks r)) (rows c).

Definition counters_below (k : Z) (m : Machine) : bool :=
  lru_below k (l1Cache m)
  && match l2Cache m with Some c => lru_below k c | None => true end.

(** * Proofs *)

(** ** The loops of the cache are the recursions on the row *)

Section LoopSpecs.

Implicit Types (pre post bs : list CacheBlock) (b : CacheBlock).

Lemma bump_middle pre b post :
  bump (length pre) (pre ++ b :: post) = Some (pre ++ age b :: post).
Proof.
  unfold bump. rewrite list_lookup_middle by reflexivity. simpl.
  f_equal. replace (length pre) with (length pre + 0)%nat at 1 by lia.
  now rewrite insert_app_r.
Qed.

Lemma snoc_shift {A} (l1 : list A) x l2 :
  l1 ++ x :: l2 = (l1 ++ [x]) ++ l2.
Proof. now rewrite <- app_assoc. Qed.

Lemma length_snoc {A} (l : list A) x : length (l ++ [x]) = S (length l).
Proof. rewrite length_app. simpl. lia. Qed.

Lemma age_others_past post : forall pre i,
  (i < length pre)%nat ->
  age_others (length post) (length pre) i (pre ++ post)
  = Some (pre ++ map age post).
Proof.
  induction post as [|b post IH]; intros pre i Hi; simpl.
  - reflexivity.
  - destruct (decide (length pre = i)) as [E|_]; [lia|].
    rewrite bump_middle. simpl.
    rewrite snoc_shift, <- (length_snoc pre (age b)).
    rewrite IH by (rewrite length_snoc; lia).
    now rewrite <- app_assoc.
Qed.

Lemma age_others_spec post : forall pre k,
  age_others (length post) (length pre) (length pre + k) (pre ++ post)
  = Some (pre ++ age_except k post).
Proof.
  induction post as [|b post IH]; intros pre k; simpl.
  - reflexivity.
  - destruct k as [|k].
    + destruct (decide (length pre = (length pre + 0)%nat)) as [_|N];
        [|lia].
      simpl. rewrite snoc_shift, <- (length_snoc pre b).
      rewrite age_others_past by (rewrite length_snoc; lia).
      now rewrite <- app_assoc.
    + destruct (decide (length pre = (length pre + S k)%nat)) as [E|_];
        [lia|].
      rewrite bump_middle. simpl.
      rewrite snoc_shift.
      replace (length pre + S k)%nat
        with (length (pre ++ [age b]) + k)%nat
        by (rewrite length_snoc; lia).
      rewrite <- (length_snoc pre (age b)), IH.
      now rewrite <- app_assoc.
Qed.

Lemma age_except_app pre : forall k bs,
  age_except (length pre + k) (pre ++ bs) = map age pre ++ age_except k bs.
Proof.
  induction pre as [|b pre IH]; intros k bs; simpl; [reflexivity|].
  now rewrite IH.
Qed.

Lemma age_except_0 b bs : age_except 0 (b :: bs) = b :: map age bs.
Proof. reflexivity. Qed.

Lemma hit_loop_spec t assoc post : forall pre,
  assoc = (length pre + length post)%nat ->
  hit_loop (length post) (length pre) assoc t (pre ++ post)
  = Some (match hit_scan t post with
          | Some post' => (map age pre ++ post', true)
          | None => (pre ++ map age post, false)
          end).
Proof.
  induction post as [|b post IH]; intros pre Hn; simpl.
  - reflexivity.
  - rewrite bump_middle. simpl.
    rewrite list_lookup_middle by reflexivity. simpl.
    destruct (valid b && (tag b =? t)) eqn:Hm.
    + replace (length pre) with (length pre + 0)%nat at 1 2 by lia.
      rewrite insert_app_r. simpl.
      pose proof (age_others_spec (pre ++ set_lru 0 (age b) :: post)
                    [] (length pre + 0)) as Hs.
      simpl in Hs, Hn. rewrite length_app in Hs. simpl in Hs.
      rewrite <- Hn in Hs. rewrite Hs. simpl.
      now rewrite age_except_app.
    + rewrite snoc_shift, <- (length_snoc pre (age b)).
      rewrite IH by (rewrite length_snoc; simpl in Hn; lia).
      destruct (hit_scan t post) as [post'|]; simpl.
      * now rewrite map_app, <- app_assoc.
      * now rewrite <- app_assoc.
Qed.

Lemma max_loop_spec post : forall pre lruIndex maxLRU,
  max_loop (length post) (length pre) (pre ++ post) lruIndex maxLRU
  = Some (max_scan (length pre) post lruIndex maxLRU).
Proof.
  induction post as [|b post IH]; intros pre lruIndex maxLRU; simpl.
  - reflexivity.
  - rewrite list_lookup_middle by reflexivity. simpl.
    rewrite snoc_shift, <- (length_snoc pre b).
    destruct (maxLRU <? lru b); rewrite IH;
      now rewrite length_snoc.
Qed.

Lemma store_loop_spec post : forall pre lruIndex maxLRU,
  store_loop (length post) (length pre) (pre ++ post) lruIndex maxLRU
  = Some (pre ++ map age post,
          (store_scan (length pre) post lruIndex maxLRU).1,
          (store_scan (length pre) post lruIndex maxLRU).2).
Proof.
  induction post as [|b post IH]; intros pre lruIndex maxLRU; simpl.
  - reflexivity.
  - rewrite list_lookup_middle by reflexivity. simpl.
    rewrite bump_middle.
    destruct (negb (valid b) || (maxLRU <? lru b)); simpl;
      rewrite snoc_shift, <- (length_snoc pre (age b)), IH;
      now rewrite <- app_assoc, !length_snoc.
Qed.

End LoopSpecs.

(** ** Well-formed caches *)

Section RowSpecs.

Implicit Types (bs : list CacheBlock) (b : CacheBlock).

Lemma load_row_spec assoc t bs :
  length bs = Z.to_nat assoc ->
  load_row assoc t bs
  = match hit_scan t bs with
    | Some bs' => Some (bs', 1)
    | None =>
        bs2 ← install (max_scan 0 (map age bs) (-1) (-1)).1 t (map age bs);
        Some (bs2, 0)
    end.
Proof.
  intros Hlen. unfold load_row. rewrite <- Hlen.
  pose proof (hit_loop_spec t (length bs) bs [] eq_refl) as Hh.
  simpl in Hh. rewrite Hh. simpl.
  destruct (hit_scan t bs) as [bs'|]; simpl; [reflexivity|].
  pose proof (max_loop_spec (map age bs) [] (-1) (-1)) as Hm.
  simpl in Hm. rewrite length_map in Hm. rewrite Hm. simpl.
  now destruct (max_scan 0 (map age bs) (-1) (-1)).
Qed.

Lemma store_row_spec assoc t bs :
  length bs = Z.to_nat assoc ->
  store_row assoc t bs
  = install (store_scan 0 bs (-1) (-1)).1 t (map age bs).
Proof.
  intros Hlen. unfold store_row. rewrite <- Hlen.
  pose proof (store_loop_spec bs [] (-1) (-1)) as Hs.
  simpl in Hs. rewrite Hs. reflexivity.
Qed.

(** The candidate of the miss loop is the first block whose counter is
    the largest, when some counter exceeds the initial [maxLRU]. *)
Lemma max_scan_spec bs : forall i lruIndex maxLRU,
  (Forall (fun b => lru b <= maxLRU) bs
   /\ max_scan i bs lruIndex maxLRU = (lruIndex, maxLRU))
  \/ (exists k b,
        bs !! k = Some b
        /\ max_scan i bs lruIndex maxLRU = (Z.of_nat (i + k), lru b)
        /\ maxLRU < lru b
        /\ Forall (fun b' => lru b' <= lru b) bs
        /\ forall j b', (j < k)%nat -> bs !! j = Some b' ->
                        lru b' < lru b).
Proof.
  induction bs as [|b bs IH]; intros i lruIndex maxLRU; simpl.
  - left. split; [constructor|reflexivity].
  - destruct (Z.ltb_spec maxLRU (lru b)) as [Hlt|Hge].
    + right.
      destruct (IH (S i) (Z.of_nat i) (lru b))
        as [[Hall Heq]|(k & b0 & Hk & Heq & Hlt' & Hall & Hfirst)].
      * exists 0%nat, b. rewrite Heq. repeat split; simpl; auto.
        -- do 2 f_equal. lia.
        -- constructor; [lia|exact Hall].
        -- intros j b' Hj. lia.
      * exists (S k), b0. rewrite Heq. repeat split; simpl; auto.
        -- do 2 f_equal. lia.
        -- lia.
        -- constructor; [lia|exact Hall].
        -- intros [|j] b' Hj Hb'; simpl in Hb'.
           ++ injection Hb' as <-. lia.
           ++ apply (Hfirst j); [lia|exact Hb'].
    + destruct (IH (S i) lruIndex maxLRU)
        as [[Hall Heq]|(k & b0 & Hk & Heq & Hlt' & Hall & Hfirst)].
      * left. split; [constructor; [lia|exact Hall]|exact Heq].
      * right. exists (S k), b0. rewrite Heq. repeat split; simpl; auto.
        -- do 2 f_equal. lia.
        -- constructor; [lia|exact Hall].
        -- intros [|j] b' Hj Hb'; simpl in Hb'.
           ++ injection Hb' as <-. lia.
           ++ apply (Hfirst j); [lia|exact Hb'].
Qed.

(** On a row without invalid blocks the store loop is the miss loop. *)
Lemma store_scan_all_valid bs : forall i lruIndex maxLRU,
  Forall (fun b => valid b = true) bs ->
  store_scan i bs lruIndex maxLRU = max_scan i bs lruIndex maxLRU.
Proof.
  induction bs as [|b bs IH]; intros i lruIndex maxLRU Hv; simpl.
  - reflexivity.
  - inversion Hv as [|? ? Hb Hbs]; subst. rewrite Hb. simpl.
    destruct (maxLRU <? lru b); now apply IH.
Qed.

Lemma store_scan_app bs1 : forall bs2 i lruIndex maxLRU,
  store_scan i (bs1 ++ bs2) lruIndex maxLRU
  = store_scan (i + length bs1) bs2
      (store_scan i bs1 lruIndex maxLRU).1
      (store_scan i bs1 lruIndex maxLRU).2.
Proof.
  induction bs1 as [|b bs1 IH]; intros bs2 i lruIndex maxLRU; simpl.
  - now rewrite Nat.add_0_r.
  - replace (i + S (length bs1))%nat with (S i + length bs1)%nat by lia.
    destruct (negb (valid b) || (maxLRU <? lru b)); now rewrite IH.
Qed.

(** Valid blocks whose counters do not exceed [maxLRU] leave the
    candidate alone. *)
Lemma store_scan_keep bs : forall i lruIndex maxLRU,
  Forall (fun b => valid b = true) bs ->
  Forall (fun b => lru b <= maxLRU) bs ->
  store_scan i bs lruIndex maxLRU = (lruIndex, maxLRU).
Proof.
  induction bs as [|b bs IH]; intros i lruIndex maxLRU Hv Hle; simpl.
  - reflexivity.
  - inversion Hv as [|? ? Hb Hbs]; subst.
    inversion Hle as [|? ? Hb' Hbs']; subst.
    rewrite Hb. simpl.
    destruct (Z.ltb_spec maxLRU (lru b)); [lia|]. now apply IH.
Qed.

Lemma dominated_app_r bs1 : forall bs2,
  dominated (bs1 ++ bs2) -> dominated bs2.
Proof.
  induction bs1 as [|b bs1 IH]; intros bs2 H; simpl in *; [exact H|].
  apply IH, H.
Qed.

(** With an invalid block in the row, the store loop ends on the last
    one. *)
Lemma store_scan_last_invalid bs1 b bs2 i lruIndex maxLRU :
  dominated (bs1 ++ b :: bs2) ->
  valid b = false ->
  Forall (fun b' => valid b' = true) bs2 ->
  store_scan i (bs1 ++ b :: bs2) lruIndex maxLRU
  = (Z.of_nat (i + length bs1), lru b).
Proof.
  intros Hd Hb Hv. rewrite store_scan_app. simpl.
  rewrite Hb. simpl.
  apply dominated_app_r in Hd. simpl in Hd.
  destruct Hd as [Hd _].
  now apply store_scan_keep; [|apply Hd].
Qed.

End RowSpecs.

Section RowInvariants.

Implicit Types (bs : list CacheBlock) (b : CacheBlock).

Lemma nonneg_age bs : nonneg bs -> nonneg (map age bs).
Proof.
  unfold nonneg. intros H. apply Forall_map.
  eapply Forall_impl; [exact H|]. simpl. intros b Hb. lia.
Qed.

Lemma le_age M bs :
  Forall (fun b => lru b <= M) bs ->
  Forall (fun b => lru b <= M + 1) (map age bs).
Proof.
  intros H. apply Forall_map.
  eapply Forall_impl; [exact H|]. simpl. intros b Hb. lia.
Qed.

Lemma dominated_age bs : dominated bs -> dominated (map age bs).
Proof.
  induction bs as [|b bs IH]; simpl; [trivial|].
  intros [Hd Hrest]. split; [|now apply IH].
  intros Hv. now apply le_age, Hd.
Qed.

Lemma hit_scan_length t bs : forall bs',
  hit_scan t bs = Some bs' -> length bs' = length bs.
Proof.
  induction bs as [|b bs IH]; intros bs' H; simpl in H; [discriminate|].
  destruct (valid b && (tag b =? t)).
  - injection H as <-. simpl. now rewrite length_map.
  - destruct (hit_scan t bs) as [r|]; simpl in H; [|discriminate].
    injection H as <-. simpl. f_equal. now apply IH.
Qed.

Lemma hit_scan_nonneg t bs : forall bs',
  nonneg bs -> hit_scan t bs = Some bs' -> nonneg bs'.
Proof.
  induction bs as [|b bs IH]; intros bs' Hn H; simpl in H; [discriminate|].
  inversion Hn as [|? ? Hb Hbs]; subst.
  destruct (valid b && (tag b =? t)).
  - injection H as <-. constructor; [simpl; lia|now apply nonneg_age].
  - destruct (hit_scan t bs) as [r|]; simpl in H; [|discriminate].
    injection H as <-. constructor; [simpl; lia|now apply IH].
Qed.

Lemma hit_scan_le t M bs : forall bs',
  0 <= M + 2 ->
  Forall (fun b => lru b <= M) bs ->
  hit_scan t bs = Some bs' ->
  Forall (fun b => lru b <= M + 2) bs'.
Proof.
  induction bs as [|b bs IH]; intros bs' HM Hle H; simpl in H;
    [discriminate|].
  inversion Hle as [|? ? Hb Hbs]; subst.
  destruct (valid b && (tag b =? t)).
  - injection H as <-. constructor; [simpl; lia|].
    eapply Forall_impl; [apply le_age, Hbs|]. simpl. intros; lia.
  - destruct (hit_scan t bs) as [r|]; simpl in H; [|discriminate].
    injection H as <-. constructor; [simpl; lia|now apply IH].
Qed.

Lemma hit_scan_dominated t bs : forall bs',
  nonneg bs -> dominated bs -> hit_scan t bs = Some bs' -> dominated bs'.
Proof.
  induction bs as [|b bs IH]; intros bs' Hn Hd H; simpl in H;
    [discriminate|].
  inversion Hn as [|? ? Hb Hbs]; subst. destruct Hd as [Hd Hrest].
  destruct (valid b && (tag b =? t)) eqn:Hm.
  - injection H as <-. simpl. split; [|now apply dominated_age].
    intros Hv. apply andb_true_iff in Hm. destruct Hm; congruence.
  - destruct (hit_scan t bs) as [r|] eqn:Hr; simpl in H; [|discriminate].
    injection H as <-. simpl. split; [|now apply IH].
    intros Hv.
    replace (lru b + 1 + 1) with (lru b + 2) by lia.
    eapply hit_scan_le; [lia|now apply Hd|exact Hr].
Qed.

Lemma install_in_range idx t bs :
  0 <= idx < Z.of_nat (length bs) ->
  install idx t bs = Some (<[Z.to_nat idx := mkBlock true t 0]> bs).
Proof.
  intros Hr. unfold install, at_index.
  destruct (Z.ltb_spec idx 0); [lia|].
  destruct (lookup_lt_is_Some_2 bs (Z.to_nat idx)) as [b ->]; [lia|].
  reflexivity.
Qed.

Lemma nonneg_insert k t bs :
  nonneg bs -> nonneg (<[k := mkBlock true t 0]> bs).
Proof. intros H. apply Forall_insert; [exact H|simpl; lia]. Qed.

Lemma dominated_insert t bs : forall k,
  nonneg bs -> dominated bs -> dominated (<[k := mkBlock true t 0]> bs).
Proof.
  induction bs as [|b bs IH]; intros k Hn Hd; simpl; [trivial|].
  inversion Hn as [|? ? Hb Hbs]; subst. destruct Hd as [Hd Hrest].
  destruct k as [|k]; simpl.
  - split; [discriminate|exact Hrest].
  - split; [|now apply IH].
    intros Hv. apply Forall_insert; [now apply Hd|simpl; lia].
Qed.

Lemma max_scan_range bs :
  bs <> [] -> Forall (fun b => -1 < lru b) bs ->
  0 <= (max_scan 0 bs (-1) (-1)).1 < Z.of_nat (length bs).
Proof.
  intros Hne Hpos.
  destruct (max_scan_spec bs 0 (-1) (-1))
    as [[Hall _]|(k & b & Hk & -> & _)].
  - destruct bs as [|b bs]; [congruence|].
    inversion Hall; inversion Hpos; subst. lia.
  - apply lookup_lt_Some in Hk. simpl. lia.
Qed.

Lemma store_scan_bounds bs : forall i lruIndex maxLRU,
  (store_scan i bs lruIndex maxLRU).1 = lruIndex
  \/ Z.of_nat i <= (store_scan i bs lruIndex maxLRU).1
     < Z.of_nat (i + length bs).
Proof.
  induction bs as [|b bs IH]; intros i lruIndex maxLRU; simpl.
  - now left.
  - destruct (negb (valid b) || (maxLRU <? lru b)).
    + right. destruct (IH (S i) (Z.of_nat i) (lru b)) as [->|H]; lia.
    + destruct (IH (S i) lruIndex maxLRU) as [->|H]; [now left|right; lia].
Qed.

Lemma store_scan_range bs :
  bs <> [] -> nonneg bs ->
  0 <= (store_scan 0 bs (-1) (-1)).1 < Z.of_nat (length bs).
Proof.
  intros Hne Hn. destruct bs as [|b bs]; [congruence|].
  inversion Hn as [|? ? Hb Hbs]; subst. simpl.
  destruct (Z.ltb_spec (-1) (lru b)) as [_|]; [|lia].
  rewrite orb_true_r.
  pose proof (store_scan_bounds bs 1 (Z.of_nat 0) (lru b)) as H.
  simpl in H. lia.
Qed.

(** A load keeps the shape and the counters of a row in order. *)
Lemma load_row_ok assoc t bs :
  length bs = Z.to_nat assoc -> bs <> [] -> nonneg bs ->
  exists bs' res,
    load_row assoc t bs = Some (bs', res)
    /\ length bs' = length bs /\ nonneg bs'
    /\ (dominated bs -> dominated bs').
Proof.
  intros Hlen Hne Hn. rewrite load_row_spec by exact Hlen.
  destruct (hit_scan t bs) as [bs'|] eqn:Hh.
  - exists bs', 1. repeat split.
    + eapply hit_scan_length, Hh.
    + eapply hit_scan_nonneg; [exact Hn|exact Hh].
    + intros Hd. eapply hit_scan_dominated; [exact Hn|exact Hd|exact Hh].
  - assert (Hr : 0 <= (max_scan 0 (map age bs) (-1) (-1)).1
                 < Z.of_nat (length (map age bs))).
    { apply max_scan_range.
      - destruct bs; [congruence|discriminate].
      - eapply Forall_impl; [apply nonneg_age, Hn|]. simpl. intros; lia. }
    rewrite install_in_range by exact Hr. simpl.
    eexists _, 0. repeat split.
    + now rewrite length_insert, length_map.
    + now apply nonneg_insert, nonneg_age.
    + intros Hd. apply dominated_insert;
        [now apply nonneg_age|now apply dominated_age].
Qed.

(** So does a store. *)
Lemma store_row_ok assoc t bs :
  length bs = Z.to_nat assoc -> bs <> [] -> nonneg bs ->
  exists bs',
    store_row assoc t bs = Some bs'
    /\ bs' = <[Z.to_nat (store_scan 0 bs (-1) (-1)).1 := mkBlock true t 0]>
               (map age bs)
    /\ length bs' = length bs /\ nonneg bs'
    /\ (dominated bs -> dominated bs').
Proof.
  intros Hlen Hne Hn. rewrite store_row_spec by exact Hlen.
  pose proof (store_scan_range bs Hne Hn) as Hr.
  rewrite install_in_range by now rewrite length_map.
  eexists. repeat split.
  - now rewrite length_insert, length_map.
  - now apply nonneg_insert, nonneg_age.
  - intros Hd. apply dominated_insert;
      [now apply nonneg_age|now apply dominated_age].
Qed.

End RowInvariants.

(** ** Accesses to a well-formed cache *)

Section CacheAccess.

Implicit Types (c : Cache) (bs : list CacheBlock).

Lemma cache_ok_elim c :
  cache_ok c = true ->
  0 < blocksize c /\ 0 < numRows c /\ 0 < associativity c
  /\ Z.of_nat (length (rows c)) = numRows c
  /\ Forall (row_shape (associativity c)) (rows c).
Proof.
  unfold cache_ok. rewrite !andb_true_iff.
  intros [[[[Hb Hn] Ha] Hl] Hr].
  repeat split; try lia.
  apply Forall_forall. intros r Hin.
  rewrite forallb_forall in Hr. specialize (Hr r).
  rewrite <- list_elem_of_In in Hr. specialize (Hr Hin).
  unfold row_ok in Hr. apply andb_true_iff in Hr as [Hlen Hbl].
  split; [lia|].
  apply Forall_forall. intros b Hb'.
  rewrite forallb_forall in Hbl. specialize (Hbl b).
  rewrite <- list_elem_of_In in Hbl. specialize (Hbl Hb').
  unfold block_ok in Hbl. lia.
Qed.

Lemma cache_ok_intro c :
  0 < blocksize c -> 0 < numRows c -> 0 < associativity c ->
  Z.of_nat (length (rows c)) = numRows c ->
  Forall (row_shape (associativity c)) (rows c) ->
  cache_ok c = true.
Proof.
  intros Hb Hn Ha Hl Hr. unfold cache_ok. rewrite !andb_true_iff.
  repeat split; try lia.
  apply forallb_forall. intros r Hin.
  rewrite Forall_forall in Hr. rewrite <- list_elem_of_In in Hin.
  destruct (Hr r Hin) as [Hlen Hnn].
  unfold row_ok. apply andb_true_iff. split; [lia|].
  apply forallb_forall. intros b Hb'.
  unfold nonneg in Hnn. rewrite Forall_forall in Hnn.
  rewrite <- list_elem_of_In in Hb'. specialize (Hnn b Hb').
  unfold block_ok. lia.
Qed.

Lemma row_of_range c address :
  0 < blocksize c -> 0 < numRows c -> 0 <= address ->
  0 <= row_of c address < numRows c.
Proof.
  intros Hb Hn Ha. unfold row_of.
  apply Z.rem_bound_pos; [|lia].
  apply Z.quot_pos; lia.
Qed.

Lemma loadWord_unfold c address :
  blocksize c <> 0 -> numRows c <> 0 ->
  loadWord c address
  = (row ← at_index (rows c) (row_of c address);
     '(bs, res) ← load_row (associativity c) (tag_of c address)
                           (blocks row);
     Some (set_row c (row_of c address) bs, res, row_of c address)).
Proof.
  intros Hb Hn. unfold loadWord, int_div, int_rem.
  destruct (Z.eqb_spec (blocksize c) 0); [lia|].
  destruct (Z.eqb_spec (numRows c) 0); [lia|].
  reflexivity.
Qed.

Lemma storeWord_unfold c address :
  blocksize c <> 0 -> numRows c <> 0 ->
  storeWord c address
  = (row ← at_index (rows c) (row_of c address);
     bs ← store_row (associativity c) (tag_of c address) (blocks row);
     Some (set_row c (row_of c address) bs, row_of c address)).
Proof.
  intros Hb Hn. unfold storeWord, int_div, int_rem.
  destruct (Z.eqb_spec (blocksize c) 0); [lia|].
  destruct (Z.eqb_spec (numRows c) 0); [lia|].
  reflexivity.
Qed.

(** What a successful access has read and written. *)
Lemma loadWord_inv c address c' res rowIndex :
  loadWord c address = Some (c', res, rowIndex) ->
  exists row bs,
    rowIndex = row_of c address
    /\ at_index (rows c) rowIndex = Some row
    /\ load_row (associativity c) (tag_of c address) (blocks row)
       = Some (bs, res)
    /\ c' = set_row c rowIndex bs.
Proof.
  unfold loadWord, int_div, int_rem. intros H.
  destruct (Z.eqb_spec (blocksize c) 0); [discriminate|].
  destruct (Z.eqb_spec (numRows c) 0); [discriminate|].
  simpl in H. fold (row_of c address) in H. fold (tag_of c address) in H.
  destruct (at_index (rows c) (row_of c address)) as [row|] eqn:Hrow;
    [|discriminate].
  simpl in H.
  destruct (load_row (associativity c) (tag_of c address) (blocks row))
    as [[bs res']|] eqn:Hl; [|discriminate].
  simpl in H. injection H as <- <- <-.
  exists row, bs. auto.
Qed.

Lemma storeWord_inv c address c' rowIndex :
  storeWord c address = Some (c', rowIndex) ->
  exists row bs,
    rowIndex = row_of c address
    /\ at_index (rows c) rowIndex = Some row
    /\ store_row (associativity c) (tag_of c address) (blocks row)
       = Some bs
    /\ c' = set_row c rowIndex bs.
Proof.
  unfold storeWord, int_div, int_rem. intros H.
  destruct (Z.eqb_spec (blocksize c) 0); [discriminate|].
  destruct (Z.eqb_spec (numRows c) 0); [discriminate|].
  simpl in H. fold (row_of c address) in H. fold (tag_of c address) in H.
  destruct (at_index (rows c) (row_of c address)) as [row|] eqn:Hrow;
    [|discriminate].
  simpl in H.
  destruct (store_row (associativity c) (tag_of c address) (blocks row))
    as [bs|] eqn:Hl; [|discriminate].
  simpl in H. injection H as <- <-.
  exists row, bs. auto.
Qed.

Lemma at_index_ok c address :
  cache_ok c = true -> 0 <= address ->
  exists row,
    at_index (rows c) (row_of c address) = Some row
    /\ rows c !! Z.to_nat (row_of c address) = Some row
    /\ row_shape (associativity c) row /\ blocks row <> [].
Proof.
  intros Hok Ha.
  destruct (cache_ok_elim c Hok) as (Hb & Hn & Has & Hl & Hr).
  pose proof (row_of_range c address Hb Hn Ha) as Hrange.
  destruct (lookup_lt_is_Some_2 (rows c) (Z.to_nat (row_of c address)))
    as [row Hrow]; [lia|].
  exists row. unfold at_index.
  destruct (Z.ltb_spec (row_of c address) 0); [lia|].
  repeat split; auto.
  - eapply Forall_lookup_1 in Hr; [apply Hr|exact Hrow].
  - eapply Forall_lookup_1 in Hr; [apply Hr|exact Hrow].
  - eapply Forall_lookup_1 in Hr; [|exact Hrow].
    destruct Hr as [Hlen _]. intros E. rewrite E in Hlen. simpl in Hlen.
    lia.
Qed.

Lemma set_row_ok c rowIndex bs :
  cache_ok c = true ->
  length bs = Z.to_nat (associativity c) -> nonneg bs ->
  cache_ok (set_row c rowIndex bs) = true.
Proof.
  intros Hok Hlen Hnn.
  destruct (cache_ok_elim c Hok) as (Hb & Hn & Has & Hl & Hr).
  apply cache_ok_intro; simpl; try assumption.
  - now rewrite length_insert.
  - apply Forall_insert; [exact Hr|]. now split.
Qed.

(** A load from a well-formed cache returns, with 0 or 1, the row the
    address selects and a well-formed cache of the same geometry. *)
Lemma loadWord_defined c address :
  cache_ok c = true -> 0 <= address ->
  exists c' res,
    loadWord c address = Some (c', res, row_of c address)
    /\ (res = 0 \/ res = 1)
    /\ cache_ok c' = true
    /\ blocksize c' = blocksize c /\ numRows c' = numRows c
    /\ associativity c' = associativity c.
Proof.
  intros Hok Ha.
  destruct (cache_ok_elim c Hok) as (Hb & Hn & Has & Hl & Hr).
  destruct (at_index_ok c address Hok Ha)
    as (row & Hat & _ & [Hlen Hnn] & Hne).
  destruct (load_row_ok (associativity c) (tag_of c address)
              (blocks row) Hlen Hne Hnn)
    as (bs' & res & Hload & Hlen' & Hnn' & _).
  rewrite loadWord_unfold by lia. rewrite Hat. simpl.
  rewrite Hload. simpl.
  exists (set_row c (row_of c address) bs'), res.
  repeat split; auto.
  - rewrite load_row_spec in Hload by exact Hlen.
    destruct (hit_scan (tag_of c address) (blocks row)).
    + injection Hload as _ <-. now right.
    + destruct (install _ _ _); simpl in Hload; [|discriminate].
      injection Hload as _ <-. now left.
  - apply set_row_ok; auto. congruence.
Qed.

(** A store to a well-formed cache returns the row the address selects
    and a well-formed cache of the same geometry. *)
Lemma storeWord_defined c address :
  cache_ok c = true -> 0 <= address ->
  exists c',
    storeWord c address = Some (c', row_of c address)
    /\ cache_ok c' = true
    /\ blocksize c' = blocksize c /\ numRows c' = numRows c
    /\ associativity c' = associativity c.
Proof.
  intros Hok Ha.
  destruct (cache_ok_elim c Hok) as (Hb & Hn & Has & Hl & Hr).
  destruct (at_index_ok c address Hok Ha)
    as (row & Hat & _ & [Hlen Hnn] & Hne).
  destruct (store_row_ok (associativity c) (tag_of c address)
              (blocks row) Hlen Hne Hnn)
    as (bs' & Hstore & _ & Hlen' & Hnn' & _).
  rewrite storeWord_unfold by lia. rewrite Hat. simpl.
  rewrite Hstore. simpl.
  exists (set_row c (row_of c address) bs').
  repeat split; auto.
  apply set_row_ok; auto. congruence.
Qed.

End CacheAccess.

(** ** What every reachable cache satisfies *)

(** ** The constructor *)

Section Construction.

Lemma int_ok_spec z : int_ok z = true <-> INT_MIN <= z <= INT_MAX.
Proof. unfold int_ok. rewrite andb_true_iff. lia. Qed.

(** What the constructor returns, and when. *)
Lemma newCache_Some size assoc bsize c :
  newCache size assoc bsize = Some c <->
  let n := Z.quot size (assoc * bsize) in
  (int_ok size = true /\ int_ok assoc = true /\ int_ok bsize = true
   /\ int_ok (assoc * bsize) = true)
  /\ assoc * bsize <> 0 /\ 0 <= n <= INT_MAX /\ (0 < n -> 0 <= assoc)
  /\ c = mkCache (replicate (Z.to_nat n)
                    (mkRow (replicate (Z.to_nat assoc) (newBlock bsize))))
                 size assoc bsize n.
Proof.
  cbv zeta. unfold newCache, int_mul, int_div, newRow.
  destruct (int_ok size); simpl; [|intuition discriminate].
  destruct (int_ok assoc); simpl; [|intuition discriminate].
  destruct (int_ok bsize); simpl; [|intuition discriminate].
  destruct (int_ok (assoc * bsize)); simpl; [|intuition discriminate].
  destruct (Z.eqb_spec (assoc * bsize) 0) as [Hz|Hz]; simpl;
    [intuition (discriminate || lia)|].
  destruct (Z.ltb_spec (Z.quot size (assoc * bsize)) 0) as [Hneg|Hnn];
    simpl; [intuition (discriminate || lia)|].
  destruct (Z.ltb_spec INT_MAX (Z.quot size (assoc * bsize))) as [Hbig|Hle];
    simpl; [intuition (discriminate || lia)|].
  destruct (Z.ltb_spec 0 (Z.quot size (assoc * bsize))) as [Hpos|Hzero].
  - destruct (Z.ltb_spec assoc 0) as [Ha|Ha]; simpl.
    + intuition (discriminate || lia).
    + split.
      * intros H. injection H as <-. intuition lia.
      * intros (_ & _ & _ & _ & ->). reflexivity.
  - simpl. replace (Z.quot size (assoc * bsize)) with 0 by lia. split.
    + intros H. injection H as <-. intuition lia.
    + intros (_ & _ & _ & _ & ->). reflexivity.
Qed.

(** Within [int] the constructor succeeds on a size that is not negative
    and a positive associativity and block size. *)
Lemma newCache_exists size assoc bsize :
  0 <= size <= INT_MAX -> 0 < assoc -> 0 < bsize ->
  assoc * bsize <= INT_MAX ->
  exists c, newCache size assoc bsize = Some c.
Proof.
  intros Hs Ha Hb Hfit.
  assert (Hq : 0 <= Z.quot size (assoc * bsize) <= INT_MAX).
  { split; [apply Z.quot_pos; lia|].
    assert (Z.quot size (assoc * bsize) <= size); [|lia].
    apply Z.quot_le_upper_bound; nia. }
  assert (Hint : INT_MIN < 0 /\ 0 < INT_MAX) by (split; reflexivity).
  assert (Hle : assoc <= assoc * bsize /\ bsize <= assoc * bsize) by nia.
  eexists. apply newCache_Some. cbv zeta. rewrite !int_ok_spec.
  split; [lia|]. split; [lia|]. split; [exact Hq|].
  split; [lia|reflexivity].
Qed.

End Construction.

Section Reachable.

Lemma dominated_replicate n b : dominated (replicate n b).
Proof.
  induction n as [|n IH]; simpl; [trivial|].
  split; [|exact IH].
  intros _. apply Forall_replicate. lia.
Qed.

Lemma newCache_inv size assoc bsize c :
  newCache size assoc bsize = Some c -> cache_inv c.
Proof.
  intros H. apply newCache_Some in H as (_ & Hprod & Hn & Ha & ->).
  split; simpl; [rewrite length_replicate; lia|].
  destruct (Z.ltb_spec 0 (Z.quot size (assoc * bsize))) as [Hpos|Hzero].
  - specialize (Ha Hpos). apply Forall_replicate. repeat split; simpl.
    + now rewrite length_replicate.
    + destruct (Z.eq_dec assoc 0) as [->|]; [|lia].
      now rewrite Z.mul_0_l in Hprod.
    + apply Forall_replicate. simpl. lia.
    + apply dominated_replicate.
  - replace (Z.quot size (assoc * bsize)) with 0 by lia. constructor.
Qed.

Lemma set_row_inv c rowIndex bs :
  cache_inv c -> row_inv (associativity c) (mkRow bs) ->
  cache_inv (set_row c rowIndex bs).
Proof.
  intros [Hl Hr] Hrow. split; simpl.
  - now rewrite length_insert.
  - now apply Forall_insert.
Qed.

Lemma at_index_lookup {A} (v : list A) i x :
  at_index v i = Some x -> v !! Z.to_nat i = Some x.
Proof. unfold at_index. now destruct (i <? 0). Qed.

Lemma row_inv_nonempty assoc r : row_inv assoc r -> blocks r <> [].
Proof.
  intros (Hlen & Ha & _) E. rewrite E in Hlen. simpl in Hlen. lia.
Qed.

Lemma loadWord_keeps_inv c address c' res rowIndex :
  cache_inv c -> loadWord c address = Some (c', res, rowIndex) ->
  cache_inv c'.
Proof.
  intros Hinv H.
  destruct (loadWord_inv _ _ _ _ _ H) as (row & bs & _ & Hat & Hl & ->).
  apply set_row_inv; [exact Hinv|].
  destruct Hinv as [_ Hr]. apply at_index_lookup in Hat.
  eapply Forall_lookup_1 in Hr; [|exact Hat].
  pose proof (row_inv_nonempty _ _ Hr) as Hne.
  destruct Hr as (Hlen & Ha & Hnn & Hd).
  destruct (load_row_ok _ (tag_of c address) _ Hlen Hne Hnn)
    as (bs' & res' & Hl' & Hlen' & Hnn' & Hd').
  rewrite Hl in Hl'. injection Hl' as <- <-.
  repeat split; simpl; auto. congruence.
Qed.

Lemma storeWord_keeps_inv c address c' rowIndex :
  cache_inv c -> storeWord c address = Some (c', rowIndex) ->
  cache_inv c'.
Proof.
  intros Hinv H.
  destruct (storeWord_inv _ _ _ _ H) as (row & bs & _ & Hat & Hl & ->).
  apply set_row_inv; [exact Hinv|].
  destruct Hinv as [_ Hr]. apply at_index_lookup in Hat.
  eapply Forall_lookup_1 in Hr; [|exact Hat].
  pose proof (row_inv_nonempty _ _ Hr) as Hne.
  destruct Hr as (Hlen & Ha & Hnn & Hd).
  destruct (store_row_ok _ (tag_of c address) _ Hlen Hne Hnn)
    as (bs' & Hl' & _ & Hlen' & Hnn' & Hd').
  rewrite Hl in Hl'. injection Hl' as <-.
  repeat split; simpl; auto. congruence.
Qed.

Lemma reachable_inv c : reachable c -> cache_inv c.
Proof.
  induction 1 as [size assoc bsize c Hnew
                 |c address c' res rowIndex _ IH Hload
                 |c address c' rowIndex _ IH Hstore].
  - eapply newCache_inv, Hnew.
  - eapply loadWord_keeps_inv; [exact IH|exact Hload].
  - eapply storeWord_keeps_inv; [exact IH|exact Hstore].
Qed.

Lemma cache_inv_ok c :
  cache_inv c -> 0 < blocksize c -> 0 < numRows c -> cache_ok c = true.
Proof.
  intros [Hl Hr] Hb Hn.
  assert (Ha : 0 < associativity c).
  { destruct (rows c) as [|r rs]; simpl in Hl; [lia|].
    inversion Hr as [|? ? Hrow _]; subst. apply Hrow. }
  apply cache_ok_intro; auto.
  eapply Forall_impl; [exact Hr|].
  intros r (Hlen & _ & Hnn & _). now split.
Qed.

(** Either no block is invalid, or the row splits at its last invalid
    block. *)
Lemma last_invalid_split (bs : list CacheBlock) :
  Forall (fun b => valid b = true) bs
  \/ exists bs1 b bs2,
       bs = bs1 ++ b :: bs2 /\ valid b = false
       /\ Forall (fun b' => valid b' = true) bs2.
Proof.
  induction bs as [|b bs [IH|(bs1 & b0 & bs2 & -> & Hb & Hv)]].
  - left. constructor.
  - destruct (valid b) eqn:Hb.
    + left. now constructor.
    + right. exists [], b, bs. auto.
  - right. exists (b :: bs1), b0, bs2. auto.
Qed.

End Reachable.

(** ** Decoding *)

Section Decoding.

Lemma land_7 x : Z.land x 7 = x mod 8.
Proof. change 7 with (Z.ones 3). now rewrite Z.land_ones by lia. Qed.

Lemma land_127 x : Z.land x 127 = x mod 128.
Proof. change 127 with (Z.ones 7). now rewrite Z.land_ones by lia. Qed.

Lemma land_8191 x : Z.land x 8191 = x mod 8192.
Proof. change 8191 with (Z.ones 13). now rewrite Z.land_ones by lia. Qed.

Lemma reg_index_range x : 0 <= Z.land x 7 < 8.
Proof. rewrite land_7. apply Z.mod_pos_bound. lia. Qed.

Lemma reg_index_nat x : (Z.to_nat (Z.land x 7) < 8)%nat.
Proof. pose proof (reg_index_range x). lia. Qed.

Lemma widen_check_all : forallb widen_check (seq 0 128) = true.
Proof. vm_compute. reflexivity. Qed.

Lemma imm7_spec instr : imm7 instr = widen7 (instr mod 128).
Proof.
  unfold imm7. rewrite land_127.
  pose proof (Z.mod_pos_bound instr 128 ltac:(lia)) as Hr.
  pose proof widen_check_all as Hall.
  rewrite forallb_forall in Hall.
  specialize (Hall (Z.to_nat (instr mod 128))).
  unfold widen_check in Hall. rewrite Z2Nat.id in Hall by lia.
  apply Z.eqb_eq, Hall, in_seq. lia.
Qed.

Lemma imm7_range instr : 0 <= imm7 instr < 65536.
Proof.
  rewrite imm7_spec. unfold widen7.
  pose proof (Z.mod_pos_bound instr 128 ltac:(lia)).
  destruct (instr mod 128 <? 64); lia.
Qed.

(** Widening is sign extension modulo [2^16], hence modulo [2^13]. *)
Lemma u16_widen a i : u16 (a + widen7 i) = u16 (a + signed7 i).
Proof.
  unfold u16, widen7, signed7. destruct (i <? 64); [reflexivity|].
  replace (a + (i + 65408)) with (a + (i - 128) + 1 * 65536) by lia.
  now rewrite Z.mod_add by lia.
Qed.

Lemma mod13_widen a i :
  (a + widen7 i) mod 8192 = (a + signed7 i) mod 8192.
Proof.
  unfold widen7, signed7. destruct (i <? 64); [reflexivity|].
  replace (a + (i + 65408)) with (a + (i - 128) + 8 * 8192) by lia.
  now rewrite Z.mod_add by lia.
Qed.

Lemma address_of_spec instr r :
  address_of instr r
  = (rd r (regA_of instr) + signed7 (instr mod 128)) mod 8192.
Proof.
  unfold address_of, u16. rewrite land_8191, imm7_spec, mod13_widen.
  apply Z.mod_small.
  pose proof (Z.mod_pos_bound
                (rd r (regA_of instr) + signed7 (instr mod 128)) 8192
                ltac:(lia)).
  lia.
Qed.

Lemma address_of_range instr r : 0 <= address_of instr r < 8192.
Proof. rewrite address_of_spec. apply Z.mod_pos_bound. lia. Qed.

End Decoding.


(** ** The handlers, one opcode at a time *)

Section Handlers.

Implicit Types (m : Machine) (instr : Z).

Lemma rd_wr_same (a : list Z) i v :
  0 <= i < Z.of_nat (length a) -> rd (wr a i v) i = v.
Proof.
  intros Hi. unfold rd, wr.
  apply list_lookup_total_correct, list_lookup_insert_eq. lia.
Qed.

Lemma rd_wr_other (a : list Z) i j v :
  0 <= i -> 0 <= j -> i <> j -> rd (wr a i v) j = rd a j.
Proof.
  intros Hi Hj Hne. unfold rd, wr.
  apply list_lookup_total_insert_ne. lia.
Qed.

Lemma length_wr (a : list Z) i v : length (wr a i v) = length a.
Proof. apply length_insert. Qed.

Lemma machine_ok_elim m :
  machine_ok m = true ->
  Z.of_nat (length (regs m)) = 8 /\ Z.of_nat (length (memory m)) = 8192
  /\ cache_ok (l1Cache m) = true
  /\ match l2Cache m with Some c => cache_ok c = true | None => True end.
Proof.
  unfold machine_ok, NUM_REGS, MEM_SIZE. rewrite !andb_true_iff.
  change (Z.shiftl 1 13) with 8192.
  intros [[[Hr Hm] H1] H2].
  repeat split; try lia; auto.
  destruct (l2Cache m); auto.
Qed.

Lemma machine_ok_intro m :
  Z.of_nat (length (regs m)) = 8 -> Z.of_nat (length (memory m)) = 8192 ->
  cache_ok (l1Cache m) = true ->
  match l2Cache m with Some c => cache_ok c = true | None => True end ->
  machine_ok m = true.
Proof.
  intros Hr Hm H1 H2. unfold machine_ok, NUM_REGS, MEM_SIZE.
  change (Z.shiftl 1 13) with 8192.
  rewrite !andb_true_iff. repeat split; try lia; auto.
  destruct (l2Cache m); auto.
Qed.

Lemma opcode_range instr : 0 <= opcode_of instr < 8.
Proof. apply reg_index_range. Qed.

(** Enter [execute_imm_instruction] on the branch of the opcode [Hop]
    gives. *)
Ltac enter_handler Hop :=
  unfold execute_imm_instruction;
  match type of Hop with
  | opcode_of ?i = _ =>
      change (Z.land (Z.shiftr i 13) 7) with (opcode_of i); rewrite Hop
  end.

(** A store: memory first, then both caches. *)
Lemma exec_sw instr m :
  opcode_of instr = opcodeSw ->
  execute_imm_instruction instr m
  = ('(l1, l1Row) ← storeWord (l1Cache m) (address_of instr (regs m));
     '(l2, out2) ←
       (match l2Cache m with
        | Some c2 =>
            '(c2', l2Row) ← storeWord c2 (address_of instr (regs m));
            Some (Some c2',
                  (out m ++ [store_entry "L1" (pc m)
                               (address_of instr (regs m)) l1Row])
                  ++ [store_entry "L2" (pc m)
                        (address_of instr (regs m)) l2Row])
        | None =>
            Some (None,
                  out m ++ [store_entry "L1" (pc m)
                              (address_of instr (regs m)) l1Row])
        end);
     Some (mkMachine (u16 (pc m + 1)) (wr (regs m) 0 0)
             (wr (memory m) (address_of instr (regs m))
                 (rd (regs m) (regB_of instr)))
             l1 l2 (isHalt m) out2)).
Proof.
  intros Hop. enter_handler Hop.
  change (5 =? 7) with false. change (5 =? 4) with false.
  change (5 =? 5) with true. cbv iota.
  change (Z.land (Z.shiftr instr 10) 7) with (regA_of instr).
  change (Z.land (Z.shiftr instr 7) 7) with (regB_of instr).
  fold (address_of instr (regs m)).
  pose proof (address_of_range instr (regs m)) as Hr.
  destruct (Z.ltb_spec (address_of instr (regs m)) (Z.shiftl 1 13)) as [_|Hge];
    [|change (Z.shiftl 1 13) with 8192 in Hge; lia].
  destruct (storeWord (l1Cache m) (address_of instr (regs m)))
    as [[l1 l1Row]|]; [|reflexivity].
  simpl.
  destruct (l2Cache m) as [c2|]; [|reflexivity].
  destruct (storeWord c2 (address_of instr (regs m))) as [[c2' l2Row]|];
    reflexivity.
Qed.

(** A load: L1, then L2 after an L1 miss, then the register after a miss
    everywhere. *)
Lemma exec_lw instr m :
  opcode_of instr = opcodeLw ->
  execute_imm_instruction instr m
  = (let a := address_of instr (regs m) in
     '(l1, res1, l1Row) ← loadWord (l1Cache m) a;
     let out1 := out m ++ [load_entry "L1" res1 (pc m) a l1Row] in
     '(l2, hit, out2) ←
       (match l2Cache m with
        | Some c2 =>
            if negb (negb (res1 =? 0)) then
              '(c2', res2, l2Row) ← loadWord c2 a;
              Some (Some c2', negb (res2 =? 0),
                    out1 ++ [load_entry "L2" res2 (pc m) a l2Row])
            else Some (Some c2, negb (res1 =? 0), out1)
        | None => Some (None, negb (res1 =? 0), out1)
        end);
     Some (mkMachine (u16 (pc m + 1))
             (wr (if negb hit
                  then wr (regs m) (regB_of instr) (rd (memory m) a)
                  else regs m) 0 0)
             (memory m) l1 l2 (isHalt m) out2)).
Proof.
  intros Hop. enter_handler Hop.
  change (4 =? 7) with false. change (4 =? 4) with true. cbv iota.
  change (Z.land (Z.shiftr instr 10) 7) with (regA_of instr).
  change (Z.land (Z.shiftr instr 7) 7) with (regB_of instr).
  fold (address_of instr (regs m)).
  pose proof (address_of_range instr (regs m)) as Hr.
  destruct (Z.ltb_spec (address_of instr (regs m)) (Z.shiftl 1 13)) as [_|Hge];
    [|change (Z.shiftl 1 13) with 8192 in Hge; lia].
  cbv zeta.
  destruct (loadWord (l1Cache m) (address_of instr (regs m)))
    as [[[l1 res1] l1Row]|]; [|reflexivity].
  simpl.
  destruct (l2Cache m) as [c2|]; [|reflexivity].
  destruct (negb (negb (res1 =? 0))); [|reflexivity].
  destruct (loadWord c2 (address_of instr (regs m)))
    as [[[c2' res2] l2Row]|]; reflexivity.
Qed.

(** The three handlers that touch no cache. *)
Lemma exec_slti instr m :
  opcode_of instr = opcodeSlti ->
  execute_imm_instruction instr m
  = Some (mkMachine (u16 (pc m + 1))
            (wr (wr (regs m) (regB_of instr)
                    (if rd (regs m) (regA_of instr) <? imm7 instr
                     then 1 else 0)) 0 0)
            (memory m) (l1Cache m) (l2Cache m) (isHalt m) (out m)).
Proof.
  intros Hop. enter_handler Hop. reflexivity.
Qed.

Lemma exec_addi instr m :
  opcode_of instr = opcodeAddi ->
  execute_imm_instruction instr m
  = Some (mkMachine (u16 (pc m + 1))
            (wr (wr (regs m) (regB_of instr)
                    (u16 (rd (regs m) (regA_of instr) + imm7 instr))) 0 0)
            (memory m) (l1Cache m) (l2Cache m) (isHalt m) (out m)).
Proof.
  intros Hop. enter_handler Hop. reflexivity.
Qed.

Lemma exec_jeq instr m :
  opcode_of instr = opcodeJeq ->
  execute_imm_instruction instr m
  = Some (mkMachine
            (if rd (regs m) (regA_of instr) =? rd (regs m) (regB_of instr)
             then u16 (pc m + 1 + imm7 instr) else u16 (pc m + 1))
            (wr (regs m) 0 0)
            (memory m) (l1Cache m) (l2Cache m) (isHalt m) (out m)).
Proof.
  intros Hop. enter_handler Hop. reflexivity.
Qed.

(** The dispatch of the loop. *)
Lemma step_imm m :
  opcode_of (fetch m) = opcodeSlti \/ opcode_of (fetch m) = opcodeAddi
  \/ opcode_of (fetch m) = opcodeLw \/ opcode_of (fetch m) = opcodeSw
  \/ opcode_of (fetch m) = opcodeJeq ->
  step m = execute_imm_instruction (fetch m) m.
Proof.
  intros Hop. unfold step.
  destruct Hop as [H|[H|[H|[H|H]]]]; rewrite H; reflexivity.
Qed.

Lemma step_alu m :
  opcode_of (fetch m) = opcodeFirst ->
  step m = Some (execute_instruction (fetch m) m).
Proof. intros Hop. unfold step. now rewrite Hop. Qed.

Lemma step_halt m :
  opcode_of (fetch m) = opcodeJ -> imm13_of (fetch m) = pc m ->
  step m = Some (halt m).
Proof.
  intros Hop Himm. unfold step. rewrite Hop, Himm, !Z.eqb_refl.
  reflexivity.
Qed.

Lemma step_control m :
  opcode_of (fetch m) = opcodeJal
  \/ (opcode_of (fetch m) = opcodeJ /\ imm13_of (fetch m) <> pc m) ->
  step m = Some (execute_control_instruction (fetch m) m).
Proof.
  intros [Hop|[Hop Himm]]; unfold step; rewrite Hop.
  - reflexivity.
  - apply Z.eqb_neq in Himm. now rewrite Himm.
Qed.

End Handlers.

(** ** A store followed by a load of the same address *)

Section StoreThenLoad.

Lemma hit_scan_found t (bs : list CacheBlock) : forall v b,
  bs !! v = Some b -> valid b = true -> tag b = t ->
  is_Some (hit_scan t bs).
Proof.
  induction bs as [|b0 bs IH]; intros v b Hv Hb Ht; [discriminate|].
  simpl. destruct (valid b0 && (tag b0 =? t)) eqn:Hm; [eauto|].
  destruct v as [|v]; simpl in Hv.
  - injection Hv as ->. rewrite Hb, Ht, Z.eqb_refl in Hm. discriminate.
  - destruct (IH v b Hv Hb Ht) as [r ->]. simpl. eauto.
Qed.

Lemma store_then_load c address c1 rowIndex :
  cache_ok c = true -> 0 <= address ->
  storeWord c address = Some (c1, rowIndex) ->
  exists c2, loadWord c1 address = Some (c2, 1, rowIndex).
Proof.
  intros Hok Ha Hst.
  destruct (cache_ok_elim c Hok) as (Hb & Hn & Has & Hl & Hr).
  destruct (storeWord_inv _ _ _ _ Hst) as (row & bs & -> & Hat & Hsr & ->).
  destruct (at_index_ok c address Hok Ha)
    as (row' & Hat' & Hlook & [Hlen Hnn] & Hne).
  rewrite Hat in Hat'. injection Hat' as <-.
  destruct (store_row_ok (associativity c) (tag_of c address)
              (blocks row) Hlen Hne Hnn)
    as (bs' & Hsr' & Hbs & Hlen' & _).
  rewrite Hsr in Hsr'. injection Hsr' as <-.
  pose proof (store_scan_range (blocks row) Hne Hnn) as Hv.
  pose proof (row_of_range c address Hb Hn Ha) as Hrow.
  rewrite loadWord_unfold by (simpl; lia).
  change (row_of (set_row c (row_of c address) bs) address)
    with (row_of c address).
  change (tag_of (set_row c (row_of c address) bs) address)
    with (tag_of c address).
  unfold at_index. destruct (Z.ltb_spec (row_of c address) 0); [lia|].
  simpl. rewrite list_lookup_insert_eq by lia. simpl.
  rewrite load_row_spec by congruence.
  destruct (hit_scan_found (tag_of c address) bs
              (Z.to_nat (store_scan 0 (blocks row) (-1) (-1)).1)
              (mkBlock true (tag_of c address) 0)) as [r Hhit]; auto.
  { rewrite Hbs. apply list_lookup_insert_eq. rewrite length_map. lia. }
  rewrite Hhit. simpl. eauto.
Qed.

End StoreThenLoad.

(** ** Stores and loads of a well-formed machine *)

Section MemoryInstructions.

Lemma last_status_snoc l e : last_status (l ++ [e]) = Some (log_status e).
Proof. unfold last_status. now rewrite last_snoc. Qed.

(** The machine after a store. *)
Lemma step_sw m :
  machine_ok m = true -> opcode_of (fetch m) = opcodeSw ->
  let a := address_of (fetch m) (regs m) in
  exists l1' l2' log2,
    storeWord (l1Cache m) a = Some (l1', row_of (l1Cache m) a)
    /\ cache_ok l1' = true
    /\ match l2Cache m with
       | Some c2 =>
           exists c2',
             storeWord c2 a = Some (c2', row_of c2 a)
             /\ cache_ok c2' = true /\ l2' = Some c2'
             /\ log2 = [store_entry "L2" (pc m) a (row_of c2 a)]
       | None => l2' = None /\ log2 = []
       end
    /\ step m
       = Some (mkMachine (u16 (pc m + 1)) (wr (regs m) 0 0)
                 (wr (memory m) a (rd (regs m) (regB_of (fetch m))))
                 l1' l2' (isHalt m)
                 (out m ++ store_entry "L1" (pc m) a (row_of (l1Cache m) a)
                        :: log2)).
Proof.
  intros Hok Hop a.
  destruct (machine_ok_elim m Hok) as (Hregs & Hmem & Hl1 & Hl2).
  pose proof (address_of_range (fetch m) (regs m)) as Ha. fold a in Ha.
  destruct (storeWord_defined (l1Cache m) a Hl1 ltac:(lia))
    as (l1' & Hs1 & Hok1 & _).
  rewrite step_imm by auto. rewrite exec_sw by exact Hop.
  fold a. rewrite Hs1. simpl.
  destruct (l2Cache m) as [c2|].
  - destruct (storeWord_defined c2 a Hl2 ltac:(lia))
      as (c2' & Hs2 & Hok2 & _).
    rewrite Hs2. simpl. eexists l1', (Some c2'), _.
    split; [reflexivity|]. split; [exact Hok1|].
    split; [exists c2'; repeat split; auto|].
    now rewrite <- app_assoc.
  - simpl. eexists l1', None, []. repeat split; auto.
Qed.

End MemoryInstructions.

(** ** Every step of a well-formed machine *)

Section Steps.

Lemma rd_0_wr_0 (r : list Z) :
  0 < Z.of_nat (length r) -> rd (wr r 0 0) 0 = 0.
Proof. intros H. apply rd_wr_same. lia. Qed.

(** The register-register handler touches the registers and the pc only. *)
Lemma execute_instruction_frame instr m :
  let m' := execute_instruction instr m in
  length (regs m') = length (regs m)
  /\ (0 < Z.of_nat (length (regs m)) -> rd (regs m') 0 = 0)
  /\ memory m' = memory m /\ l1Cache m' = l1Cache m
  /\ l2Cache m' = l2Cache m /\ isHalt m' = isHalt m /\ out m' = out m.
Proof.
  unfold execute_instruction.
  repeat match goal with
         | |- context [if ?b then _ else _] => destruct b
         end; simpl; rewrite ?length_wr;
    (repeat split; auto; intros H; apply rd_0_wr_0;
     rewrite ?length_wr; exact H).
Qed.

Lemma execute_control_instruction_frame instr m :
  let m' := execute_control_instruction instr m in
  length (regs m') = length (regs m)
  /\ (0 < Z.of_nat (length (regs m)) -> rd (regs m') 0 = 0)
  /\ memory m' = memory m /\ l1Cache m' = l1Cache m
  /\ l2Cache m' = l2Cache m /\ out m' = out m.
Proof.
  unfold execute_control_instruction.
  repeat match goal with
         | |- context [if ?b then _ else _] => destruct b
         end; simpl; rewrite ?length_wr;
    (repeat split; auto; intros H; apply rd_0_wr_0;
     rewrite ?length_wr; exact H).
Qed.

Lemma opcode_cases instr :
  opcode_of instr = opcodeFirst \/ opcode_of instr = opcodeAddi
  \/ opcode_of instr = opcodeJ \/ opcode_of instr = opcodeJal
  \/ opcode_of instr = opcodeLw \/ opcode_of instr = opcodeSw
  \/ opcode_of instr = opcodeJeq \/ opcode_of instr = opcodeSlti.
Proof.
  pose proof (opcode_range instr).
  unfold opcodeFirst, opcodeAddi, opcodeJ, opcodeJal, opcodeLw, opcodeSw,
    opcodeJeq, opcodeSlti.
  lia.
Qed.

(** The machine after a load. *)
Lemma step_lw m :
  machine_ok m = true -> opcode_of (fetch m) = opcodeLw ->
  exists m',
    step m = Some m' /\ machine_ok m' = true /\ rd (regs m') 0 = 0
    /\ memory m' = memory m.
Proof.
  intros Hok Hop.
  destruct (machine_ok_elim m Hok) as (Hregs & Hmem & Hl1 & Hl2).
  pose proof (address_of_range (fetch m) (regs m)) as Ha.
  destruct (loadWord_defined (l1Cache m) _ Hl1 (proj1 Ha))
    as (l1' & res1 & Hld1 & Hres1 & Hok1 & _).
  rewrite step_imm by auto. rewrite exec_lw by exact Hop.
  cbv zeta. rewrite Hld1. simpl.
  assert (Hfin : forall l2 hit o,
    match l2 with Some c => cache_ok c = true | None => True end ->
    let m' := mkMachine (u16 (pc m + 1))
                (wr (if negb hit
                     then wr (regs m) (regB_of (fetch m))
                             (rd (memory m)
                                 (address_of (fetch m) (regs m)))
                     else regs m) 0 0)
                (memory m) l1' l2 (isHalt m) o in
    machine_ok m' = true /\ rd (regs m') 0 = 0 /\ memory m' = memory m).
  { intros l2 hit o Hl2'. simpl. split; [|split; [|reflexivity]].
    - apply machine_ok_intro; simpl; auto.
      destruct (negb hit); rewrite ?length_wr; exact Hregs.
    - apply rd_0_wr_0. destruct (negb hit); rewrite ?length_wr; lia. }
  destruct (l2Cache m) as [c2|].
  - destruct (negb (negb (res1 =? 0))).
    + destruct (loadWord_defined c2 _ Hl2 (proj1 Ha))
        as (c2' & res2 & Hld2 & _ & Hok2 & _).
      rewrite Hld2. simpl. eexists. split; [reflexivity|].
      now apply Hfin.
    + simpl. eexists. split; [reflexivity|]. now apply Hfin.
  - simpl. eexists. split; [reflexivity|]. now apply Hfin.
Qed.

(** A well-formed machine always takes its step, stays well-formed, and
    has 0 in register 0 unless the step was the halt. *)
Lemma step_defined m :
  machine_ok m = true ->
  exists m',
    step m = Some m' /\ machine_ok m' = true
    /\ ((opcode_of (fetch m) = opcodeJ /\ imm13_of (fetch m) = pc m
         /\ m' = halt m)
        \/ rd (regs m') 0 = 0).
Proof.
  intros Hok.
  destruct (machine_ok_elim m Hok) as (Hregs & Hmem & Hl1 & Hl2).
  assert (Hpos : 0 < Z.of_nat (length (regs m))) by lia.
  destruct (opcode_cases (fetch m))
    as [Hop|[Hop|[Hop|[Hop|[Hop|[Hop|[Hop|Hop]]]]]]].
  - (* register-register *)
    rewrite step_alu by exact Hop. eexists. split; [reflexivity|].
    destruct (execute_instruction_frame (fetch m) m)
      as (Hlen & H0 & Hm & H1 & H2 & _).
    split; [|right; now apply H0].
    apply machine_ok_intro; rewrite ?Hlen, ?Hm, ?H1, ?H2; auto.
  - (* addi *)
    rewrite step_imm by auto. rewrite exec_addi by exact Hop.
    eexists. split; [reflexivity|]. split.
    + apply machine_ok_intro; simpl; rewrite ?length_wr; auto.
    + right. simpl. apply rd_0_wr_0. now rewrite length_wr.
  - (* j *)
    destruct (Z.eq_dec (imm13_of (fetch m)) (pc m)) as [Himm|Himm].
    + rewrite step_halt by assumption. eexists. split; [reflexivity|].
      split; [|left; auto].
      apply machine_ok_intro; simpl; auto.
    + rewrite step_control by auto. eexists. split; [reflexivity|].
      destruct (execute_control_instruction_frame (fetch m) m)
        as (Hlen & H0 & Hm & H1 & H2 & _).
      split; [|right; now apply H0].
      apply machine_ok_intro; rewrite ?Hlen, ?Hm, ?H1, ?H2; auto.
  - (* jal *)
    rewrite step_control by auto. eexists. split; [reflexivity|].
    destruct (execute_control_instruction_frame (fetch m) m)
      as (Hlen & H0 & Hm & H1 & H2 & _).
    split; [|right; now apply H0].
    apply machine_ok_intro; rewrite ?Hlen, ?Hm, ?H1, ?H2; auto.
  - (* lw *)
    destruct (step_lw m Hok Hop) as (m' & Hstep & Hok' & H0 & _).
    exists m'. auto.
  - (* sw *)
    destruct (step_sw m Hok Hop)
      as (l1' & l2' & log2 & _ & Hok1 & Hl2' & Hstep).
    eexists. split; [exact Hstep|]. split.
    + apply machine_ok_intro; simpl; rewrite ?length_wr; auto.
      destruct (l2Cache m) as [c2|].
      * destruct Hl2' as (c2' & _ & Hok2 & -> & _). exact Hok2.
      * destruct Hl2' as [-> _]. exact I.
    + right. simpl. now apply rd_0_wr_0.
  - (* jeq *)
    rewrite step_imm by auto. rewrite exec_jeq by exact Hop.
    eexists. split; [reflexivity|]. split.
    + apply machine_ok_intro; simpl; rewrite ?length_wr; auto.
    + right. simpl. now apply rd_0_wr_0.
  - (* slti *)
    rewrite step_imm by auto. rewrite exec_slti by exact Hop.
    eexists. split; [reflexivity|]. split.
    + apply machine_ok_intro; simpl; rewrite ?length_wr; auto.
    + right. simpl. apply rd_0_wr_0. now rewrite length_wr.
Qed.

(** The loop of a well-formed machine never gets stuck, and register 0
    stays 0 once it is. *)
Lemma run_defined fuel : forall m,
  machine_ok m = true ->
  exists m',
    run fuel m = Some m' /\ machine_ok m' = true
    /\ (rd (regs m) 0 = 0 -> rd (regs m') 0 = 0).
Proof.
  induction fuel as [|fuel IH]; intros m Hok; simpl.
  - exists m. auto.
  - destruct (isHalt m); [exists m; auto|].
    destruct (step_defined m Hok) as (m1 & Hstep & Hok1 & H0).
    rewrite Hstep. simpl.
    destruct (IH m1 Hok1) as (m' & Hrun & Hok' & Hkeep).
    exists m'. split; [exact Hrun|]. split; [exact Hok'|].
    intros Hm. apply Hkeep.
    destruct H0 as [(_ & _ & ->)|H0]; [exact Hm|exact H0].
Qed.

Lemma run_halted fuel m : isHalt m = true -> run fuel m = Some m.
Proof. intros H. destruct fuel; simpl; [|rewrite H]; reflexivity. Qed.

End Steps.

(** ** Start-up: the machines of a run are well-formed *)

Section Startup.

Lemma load_machine_code_length words :
  Z.of_nat (length (load_machine_code words)) = 8192.
Proof.
  unfold load_machine_code, MEM_SIZE. change (Z.shiftl 1 13) with 8192.
  rewrite length_take, length_app, length_replicate. lia.
Qed.

Lemma newCache_geometry size assoc bsize c :
  newCache size assoc bsize = Some c ->
  cacheSize c = size /\ associativity c = assoc /\ blocksize c = bsize
  /\ numRows c = Z.quot size (assoc * bsize).
Proof.
  intros H. apply newCache_Some in H as (_ & _ & _ & _ & ->). auto.
Qed.

(** A cache with a positive block size and at least one row is
    well-formed as built. *)
Lemma newCache_ok size assoc bsize c :
  newCache size assoc bsize = Some c -> 0 < bsize -> 0 < numRows c ->
  cache_ok c = true.
Proof.
  intros Hnew Hb Hn.
  destruct (newCache_geometry _ _ _ _ Hnew) as (_ & _ & Hbs & _).
  apply cache_inv_ok; [eapply newCache_inv, Hnew|lia|exact Hn].
Qed.

Lemma initial_ok words l1 l2 :
  cache_ok l1 = true ->
  match l2 with Some c => cache_ok c = true | None => True end ->
  machine_ok (initial words l1 l2) = true.
Proof.
  intros H1 H2. apply machine_ok_intro; simpl; auto.
  apply load_machine_code_length.
Qed.

(** With such caches the loop of [main] never leaves defined behaviour. *)
Lemma forallb_take {A} (f : A -> bool) n (l : list A) :
  forallb f l = true -> forallb f (take n l) = true.
Proof.
  revert n. induction l as [|x l IH]; intros [|n] H; simpl; auto.
  simpl in H. apply andb_true_iff in H as [Hx Hl].
  now rewrite Hx, IH.
Qed.

Lemma simulate_with_defined l1 l2 words fuel :
  cache_ok l1 = true ->
  match l2 with Some c => cache_ok c = true | None => True end ->
  forallb numeral_ok words = true ->
  simulate_with l1 l2 words fuel <> Aborted.
Proof.
  intros H1 H2 Hw. unfold simulate_with.
  rewrite forallb_take by exact Hw. simpl.
  destruct (Z.of_nat (length words) >? MEM_SIZE); [discriminate|].
  destruct (run_defined fuel _ (initial_ok words l1 l2 H1 H2))
    as (m & -> & _).
  destruct (isHalt m); discriminate.
Qed.

End Startup.

(** ** Which addresses a cache holds *)

Section Residency.

Implicit Types (bs : list CacheBlock) (b : CacheBlock) (c : Cache).

Lemma holds_lookup t bs :
  holds t bs = true
  <-> exists k b, bs !! k = Some b /\ valid b = true /\ tag b = t.
Proof.
  unfold holds. rewrite existsb_exists. split.
  - intros (b & Hin & Hm). apply andb_true_iff in Hm as [Hv Ht].
    apply Z.eqb_eq in Ht. rewrite <- list_elem_of_In in Hin.
    apply list_elem_of_lookup in Hin as [k Hk]. eauto.
  - intros (k & b & Hk & Hv & Ht). exists b. split.
    + rewrite <- list_elem_of_In. eapply list_elem_of_lookup_2, Hk.
    + unfold matches. rewrite Hv, Ht, Z.eqb_refl. reflexivity.
Qed.

(** The hit loop finds a block exactly when the row holds the tag. *)
Lemma hit_scan_holds t bs : is_Some (hit_scan t bs) <-> holds t bs = true.
Proof.
  induction bs as [|b bs IH]; simpl.
  - split; [intros [x Hx]; discriminate|discriminate].
  - fold (matches t b). destruct (matches t b); simpl.
    + split; eauto.
    + rewrite <- IH. destruct (hit_scan t bs); simpl; split; eauto;
        intros [x Hx]; discriminate.
Qed.

Lemma hit_scan_none t bs : hit_scan t bs = None <-> holds t bs = false.
Proof.
  pose proof (hit_scan_holds t bs) as H.
  destruct (hit_scan t bs), (holds t bs); split; try discriminate; auto.
  - intros _. destruct H as [H _]. discriminate H. eauto.
  - intros _. destruct H as [_ H]. destruct H as [x Hx]; [reflexivity|].
    discriminate.
Qed.

(** A hit changes counters only. *)
Lemma hit_scan_keys t bs : forall bs',
  hit_scan t bs = Some bs' -> map key bs' = map key bs.
Proof.
  induction bs as [|b bs IH]; intros bs' H; simpl in H; [discriminate|].
  destruct (valid b && (tag b =? t)).
  - injection H as <-. simpl. f_equal.
    rewrite map_map. reflexivity.
  - destruct (hit_scan t bs) as [r|]; simpl in H; [|discriminate].
    injection H as <-. simpl. f_equal. now apply IH.
Qed.

Lemma holds_keys t bs bs' : map key bs' = map key bs -> holds t bs' = holds t bs.
Proof.
  revert bs'. induction bs as [|b bs IH]; intros [|b' bs'] H;
    try discriminate; [reflexivity|].
  simpl in H. injection H as Hv Ht Hrest.
  unfold holds in *. simpl. rewrite (IH _ Hrest).
  unfold matches. now rewrite Hv, Ht.
Qed.

Lemma holds_age t bs : holds t (map age bs) = holds t bs.
Proof. apply holds_keys. rewrite map_map. reflexivity. Qed.

Lemma holds_installed t bs k :
  (k < length bs)%nat -> holds t (<[k := mkBlock true t 0]> bs) = true.
Proof.
  intros Hk. apply holds_lookup. exists k, (mkBlock true t 0).
  split; [now apply list_lookup_insert_eq|]. auto.
Qed.

End Residency.

(** * The properties of the simulator *)

Section Stores.

(** C7.  Every executed store-word writes the value of its source register
    to backing memory at (base register + sign-extended immediate) mod
    2^13 and issues [storeWord] on that address to L1 and, when an L2 is
    configured, to L2 as well; none of the three writes depends on a hit
    or a miss. *)
Theorem sw_writes_through m :
  machine_ok m = true -> opcode_of (fetch m) = opcodeSw ->
  let instr := fetch m in
  let a := address_of instr (regs m) in
  a = (rd (regs m) (regA_of instr) + signed7 (instr mod 128)) mod 8192
  /\ exists m' l1',
       step m = Some m'
       /\ memory m' = wr (memory m) a (rd (regs m) (regB_of instr))
       /\ rd (memory m') a = rd (regs m) (regB_of instr)
       /\ storeWord (l1Cache m) a = Some (l1', row_of (l1Cache m) a)
       /\ l1Cache m' = l1'
       /\ match l2Cache m with
          | None =>
              l2Cache m' = None
              /\ out m' = out m
                   ++ [store_entry "L1" (pc m) a (row_of (l1Cache m) a)]
          | Some c2 =>
              exists c2',
                storeWord c2 a = Some (c2', row_of c2 a)
                /\ l2Cache m' = Some c2'
                /\ out m' = out m
                     ++ [store_entry "L1" (pc m) a (row_of (l1Cache m) a);
                         store_entry "L2" (pc m) a (row_of c2 a)]
          end.
Proof.
  intros Hok Hop instr a.
  destruct (machine_ok_elim m Hok) as (Hregs & Hmem & _).
  pose proof (address_of_range instr (regs m)) as Ha. fold a in Ha.
  split; [apply address_of_spec|].
  destruct (step_sw m Hok Hop) as (l1' & l2' & log2 & Hs1 & _ & Hl2 & Hstep).
  fold instr a in Hs1, Hl2, Hstep.
  eexists _, l1'. split; [exact Hstep|]. simpl.
  split; [reflexivity|]. split; [apply rd_wr_same; lia|].
  split; [exact Hs1|]. split; [reflexivity|].
  destruct (l2Cache m) as [c2|].
  - destruct Hl2 as (c2' & Hs2 & _ & -> & ->).
    exists c2'. repeat split; auto.
  - destruct Hl2 as [-> ->]. split; reflexivity.
Qed.

Lemma sw_writes_through_witness :
  machine_ok sample_sw2 = true /\ opcode_of (fetch sample_sw2) = opcodeSw
  /\ exists m',
       step sample_sw2 = Some m' /\ rd (memory m') 10 = 5
       /\ length (out m') = 2%nat.
Proof.
  split; [reflexivity|]. split; [reflexivity|].
  destruct (sw_writes_through sample_sw2 eq_refl eq_refl)
    as (_ & m' & l1' & Hstep & _ & Hmem & _ & _ & c2' & _ & _ & Hout).
  exists m'. split; [exact Hstep|]. split; [exact Hmem|].
  rewrite Hout. reflexivity.
Defined.

End Stores.

Section Loads.



(** C1.  A load-word that hits loads nothing.  The program
    [addi $1, $0, 5; sw $1, 10($0); lw $2, 10($0); j 3] on the cache
    [4,1,1] logs L1 SW and then L1 HIT on the same row, and memory cell 10
    holds the 5 that was stored; register 2, the destination of the load,
    still holds 0 when the program halts, not the stored value.  The
    handler writes the destination register under [if (!hit)] only, while
    the same load loads the word when it misses ([lw_loads_on_miss]). *)
Theorem lw_leaves_register_unloaded :
  match main [4; 1; 1] store_load_program 4 with
  | Returned m =>
      map log_cache (out m) = ["L1"; "L1"]
      /\ map log_status (out m) = ["SW"; "HIT"]
      /\ map log_row (out m) = [2; 2]
      /\ rd (memory m) 10 = 5
      /\ rd (regs m) 1 = 5
      /\ rd (regs m) 2 = 0
      /\ rd (regs m) 2 <> rd (memory m) 10
  | _ => False
  end.
Proof. vm_compute. repeat split; discriminate. Qed.

(** The path of a load that misses.  For every executed load-word that
    ends in a miss (the last line it logs is a MISS) and whose destination
    is not register 0, the destination register afterwards holds the
    value of backing memory at the effective address, and the load leaves
    memory as it was.  A store-word to an address immediately followed by
    a load-word from the same address logs L1 SW and then L1 HIT on the
    same row. *)
Lemma lw_loads_on_miss m :
  machine_ok m = true -> opcode_of (fetch m) = opcodeLw ->
  let a := address_of (fetch m) (regs m) in
  exists m',
    step m = Some m'
    /\ memory m' = memory m
    /\ (regB_of (fetch m) <> 0 -> last_status (out m') = Some "MISS" ->
        rd (regs m') (regB_of (fetch m)) = rd (memory m') a)
    /\ (forall m0,
          machine_ok m0 = true -> opcode_of (fetch m0) = opcodeSw ->
          address_of (fetch m0) (regs m0) = a ->
          step m0 = Some m ->
          let row := row_of (l1Cache m0) a in
          out m = out m0
                    ++ store_entry "L1" (pc m0) a row
                       :: match l2Cache m0 with
                          | Some c2 =>
                              [store_entry "L2" (pc m0) a (row_of c2 a)]
                          | None => []
                          end
          /\ out m' = out m ++ [print_log_entry "L1" "HIT" (pc m) a row]).
Proof.
  intros Hok Hop a. subst a.
  destruct (machine_ok_elim m Hok) as (Hregs & Hmem & Hl1 & Hl2).
  pose proof (address_of_range (fetch m) (regs m)) as Ha.
  remember (address_of (fetch m) (regs m)) as a eqn:Ea.
  pose proof (reg_index_range (Z.shiftr (fetch m) 7)) as Hdst.
  fold (regB_of (fetch m)) in Hdst.
  destruct (loadWord_defined (l1Cache m) a Hl1 ltac:(lia))
    as (l1' & res1 & Hld1 & Hres1 & _).
  (* what an immediately preceding store to the same address implies *)
  assert (Hprev : forall m0,
    machine_ok m0 = true -> opcode_of (fetch m0) = opcodeSw ->
    address_of (fetch m0) (regs m0) = a -> step m0 = Some m ->
    res1 = 1
    /\ row_of (l1Cache m) a = row_of (l1Cache m0) a
    /\ out m = out m0
                ++ store_entry "L1" (pc m0) a (row_of (l1Cache m0) a)
                   :: match l2Cache m0 with
                      | Some c2 => [store_entry "L2" (pc m0) a (row_of c2 a)]
                      | None => []
                      end).
  { intros m0 Hok0 Hop0 Haddr Hstep0.
    destruct (machine_ok_elim m0 Hok0) as (_ & _ & Hl10 & _).
    pose proof (step_sw m0 Hok0 Hop0) as Hsw. cbv zeta in Hsw.
    rewrite Haddr in Hsw.
    destruct Hsw as (s1 & s2 & log2 & Hs1 & _ & Hs2 & Hstep0').
    rewrite Hstep0 in Hstep0'. injection Hstep0' as ->.
    simpl in *.
    destruct (store_then_load (l1Cache m0) a _ _ Hl10 ltac:(lia) Hs1)
      as [c3 Hhit].
    rewrite Hld1 in Hhit. injection Hhit as _ -> Hrow.
    split; [reflexivity|]. split; [exact Hrow|].
    destruct (l2Cache m0) as [c2|].
    - destruct Hs2 as (c2' & _ & _ & _ & ->). reflexivity.
    - destruct Hs2 as [_ ->]. reflexivity. }
  rewrite step_imm by auto. rewrite exec_lw by exact Hop.
  cbv zeta. rewrite <- Ea, Hld1. simpl.
  assert (Hread : forall v,
    regB_of (fetch m) <> 0 ->
    rd (wr (wr (regs m) (regB_of (fetch m)) v) 0 0) (regB_of (fetch m)) = v).
  { intros v Hne. rewrite rd_wr_other by lia.
    apply rd_wr_same. lia. }
  destruct (l2Cache m) as [c2|]; destruct Hres1 as [->| ->]; simpl.
  - (* two levels, L1 miss *)
    destruct (loadWord_defined c2 a Hl2 ltac:(lia))
      as (c2' & res2 & Hld2 & Hres2 & _).
    rewrite Hld2. simpl. eexists. split; [reflexivity|]. simpl.
    split; [reflexivity|]. split.
    + intros Hne. rewrite last_status_snoc. unfold load_entry. simpl.
      destruct Hres2 as [->| ->]; simpl; [|discriminate].
      intros _. now apply Hread.
    + intros m0 H1 H2 H3 H4.
      destruct (Hprev m0 H1 H2 H3 H4) as [Hbad _]. discriminate Hbad.
  - (* two levels, L1 hit *)
    eexists. split; [reflexivity|]. simpl.
    split; [reflexivity|]. split.
    + intros _. rewrite last_status_snoc. discriminate.
    + intros m0 H1 H2 H3 H4.
      destruct (Hprev m0 H1 H2 H3 H4) as (_ & Hrow & Hout).
      split; [exact Hout|]. now rewrite <- Hrow.
  - (* one level, miss *)
    eexists. split; [reflexivity|]. simpl.
    split; [reflexivity|]. split.
    + intros Hne _. now apply Hread.
    + intros m0 H1 H2 H3 H4.
      destruct (Hprev m0 H1 H2 H3 H4) as [Hbad _]. discriminate Hbad.
  - (* one level, hit *)
    eexists. split; [reflexivity|]. simpl.
    split; [reflexivity|]. split.
    + intros _. rewrite last_status_snoc. discriminate.
    + intros m0 H1 H2 H3 H4.
      destruct (Hprev m0 H1 H2 H3 H4) as (_ & Hrow & Hout).
      split; [exact Hout|]. now rewrite <- Hrow.
Qed.

Lemma lw_loads_on_miss_witness :
  (machine_ok sample_lw = true /\ opcode_of (fetch sample_lw) = opcodeLw
   /\ exists m',
        step sample_lw = Some m' /\ last_status (out m') = Some "MISS"
        /\ rd (regs m') 2 = 1234)
  /\ (machine_ok (store_load_after 2) = true
      /\ opcode_of (fetch (store_load_after 2)) = 4
      /\ opcode_of (fetch (store_load_after 1)) = 5
      /\ step (store_load_after 1) = Some (store_load_after 2)
      /\ exists m',
           step (store_load_after 2) = Some m'
           /\ map log_status (out m') = ["SW"; "HIT"]
           /\ map log_row (out m') = [2; 2]).
Proof.
  assert (Hok : machine_ok sample_lw = true) by (vm_compute; reflexivity).
  assert (Hop : opcode_of (fetch sample_lw) = opcodeLw)
    by (vm_compute; reflexivity).
  assert (Hok2 : machine_ok (store_load_after 2) = true)
    by (vm_compute; reflexivity).
  assert (Hop2 : opcode_of (fetch (store_load_after 2)) = 4)
    by (vm_compute; reflexivity).
  assert (Hok1 : machine_ok (store_load_after 1) = true)
    by (vm_compute; reflexivity).
  assert (Hop1 : opcode_of (fetch (store_load_after 1)) = 5)
    by (vm_compute; reflexivity).
  assert (Hstep1 : step (store_load_after 1) = Some (store_load_after 2))
    by (vm_compute; reflexivity).
  assert (Haddr : address_of (fetch (store_load_after 1))
                             (regs (store_load_after 1))
                  = address_of (fetch (store_load_after 2))
                               (regs (store_load_after 2)))
    by (vm_compute; reflexivity).
  split.
  - split; [exact Hok|]. split; [exact Hop|].
    destruct (lw_loads_on_miss sample_lw Hok Hop)
      as (m' & Hstep & Hmem & Hmiss & _).
    exists m'. split; [exact Hstep|].
    assert (Hlast : last_status (out m') = Some "MISS")
      by (vm_compute in Hstep; injection Hstep as <-; vm_compute;
          reflexivity).
    split; [exact Hlast|].
    assert (Hdst : regB_of (fetch sample_lw) <> 0)
      by (vm_compute; discriminate).
    pose proof (Hmiss Hdst Hlast) as Hreg. rewrite Hmem in Hreg.
    assert (Hb : regB_of (fetch sample_lw) = 2) by (vm_compute; reflexivity).
    rewrite Hb in Hreg. rewrite Hreg. vm_compute. reflexivity.
  - split; [exact Hok2|]. split; [exact Hop2|]. split; [exact Hop1|].
    split; [exact Hstep1|].
    destruct (lw_loads_on_miss (store_load_after 2) Hok2 Hop2)
      as (m' & Hstep & _ & _ & Hprev).
    exists m'. split; [exact Hstep|].
    destruct (Hprev (store_load_after 1) Hok1 Hop1 Haddr Hstep1)
      as [Hout1 Hout2].
    rewrite Hout2, Hout1. split; vm_compute; reflexivity.
Defined.

End Loads.

Section Registers.

(** An all-ones immediate is compared as 65535, not as 127: with 200 in the
    source register, [slti] answers 1. *)
Lemma slti_compares_widened_immediate :
  match step sample_slti with
  | Some m' =>
      rd (regs sample_slti) (regA_of (fetch sample_slti)) = 200
      /\ Z.land (fetch sample_slti) 127 = 127
      /\ regB_of (fetch sample_slti) = 2
      /\ rd (regs m') 2 = 1
      /\ rd (regs m') 2 <> (if 200 <? 127 then 1 else 0)
  | None => False
  end.
Proof. vm_compute. repeat split; discriminate. Qed.

(** C2.  For every executed set-less-than-immediate, the destination
    register, unless it is register 0, is set to 1 if the unsigned 16-bit
    value of the source register is less than the 7-bit immediate
    sign-extended to 16 bits and read as unsigned (0..63 or 65472..65535),
    and to 0 otherwise; register 0 reads 0; the pc advances by 1 modulo
    2^16. *)
Theorem slti_sets_flag m :
  machine_ok m = true -> opcode_of (fetch m) = opcodeSlti ->
  let instr := fetch m in
  let flag := if rd (regs m) (regA_of instr) <? widen7 (instr mod 128)
              then 1 else 0 in
  exists m',
    step m = Some m'
    /\ regs m' = wr (wr (regs m) (regB_of instr) flag) 0 0
    /\ (regB_of instr <> 0 -> rd (regs m') (regB_of instr) = flag)
    /\ rd (regs m') 0 = 0
    /\ pc m' = (pc m + 1) mod 65536
    /\ memory m' = memory m /\ l1Cache m' = l1Cache m
    /\ l2Cache m' = l2Cache m /\ out m' = out m.
Proof.
  intros Hok Hop instr flag.
  destruct (machine_ok_elim m Hok) as (Hregs & _).
  pose proof (reg_index_range (Z.shiftr instr 7)) as Hdst.
  fold (regB_of instr) in Hdst.
  rewrite step_imm by auto. rewrite exec_slti by exact Hop.
  fold instr. rewrite imm7_spec. fold flag.
  eexists. split; [reflexivity|]. simpl.
  split; [reflexivity|]. split.
  - intros Hne. rewrite rd_wr_other by lia. apply rd_wr_same. lia.
  - split; [apply rd_0_wr_0; rewrite length_wr; lia|].
    repeat split.
Qed.

Lemma slti_sets_flag_witness :
  machine_ok sample_slti = true /\ opcode_of (fetch sample_slti) = opcodeSlti
  /\ exists m', step sample_slti = Some m' /\ rd (regs m') 2 = 1.
Proof.
  assert (Hok : machine_ok sample_slti = true) by (vm_compute; reflexivity).
  assert (Hop : opcode_of (fetch sample_slti) = opcodeSlti)
    by (vm_compute; reflexivity).
  split; [exact Hok|]. split; [exact Hop|].
  destruct (slti_sets_flag sample_slti Hok Hop)
    as (m' & Hstep & Hregs & _).
  exists m'. split; [exact Hstep|]. rewrite Hregs.
  vm_compute. reflexivity.
Defined.

(** C10.  Register arithmetic wraps modulo 2^16: add leaves (a + b) mod
    2^16 in its destination, subtract (a - b) mod 2^16, and add-immediate
    (a + the sign-extended immediate) mod 2^16. *)
Theorem register_arithmetic_wraps m :
  machine_ok m = true ->
  let instr := fetch m in
  let r := regs m in
  (opcode_of instr = opcodeFirst -> Z.land instr 15 = functionCodeAdd ->
   regC_of instr <> 0 ->
   exists m',
     step m = Some m'
     /\ rd (regs m') (regC_of instr)
        = (rd r (regA_of instr) + rd r (regB_of instr)) mod 65536)
  /\ (opcode_of instr = opcodeFirst -> Z.land instr 15 = functionCodeSub ->
      regC_of instr <> 0 ->
      exists m',
        step m = Some m'
        /\ rd (regs m') (regC_of instr)
           = (rd r (regA_of instr) - rd r (regB_of instr)) mod 65536)
  /\ (opcode_of instr = opcodeAddi -> regB_of instr <> 0 ->
      exists m',
        step m = Some m'
        /\ rd (regs m') (regB_of instr)
           = (rd r (regA_of instr) + signed7 (instr mod 128)) mod 65536).
Proof.
  intros Hok instr r.
  destruct (machine_ok_elim m Hok) as (Hregs & _).
  pose proof (reg_index_range (Z.shiftr instr 4)) as HC.
  fold (regC_of instr) in HC.
  pose proof (reg_index_range (Z.shiftr instr 7)) as HB.
  fold (regB_of instr) in HB.
  assert (Hread : forall d v, 0 <= d < 8 -> d <> 0 ->
                              rd (wr (wr r d v) 0 0) d = v).
  { intros d v Hd Hne. rewrite rd_wr_other by lia.
    apply rd_wr_same. unfold r. lia. }
  split; [|split].
  - intros Hop Hf Hne. rewrite step_alu by exact Hop.
    eexists. split; [reflexivity|].
    unfold execute_instruction. fold instr. rewrite Hf. simpl.
    now apply Hread.
  - intros Hop Hf Hne. rewrite step_alu by exact Hop.
    eexists. split; [reflexivity|].
    unfold execute_instruction. fold instr. rewrite Hf. simpl.
    now apply Hread.
  - intros Hop Hne. rewrite step_imm by auto.
    rewrite exec_addi by exact Hop.
    eexists. split; [reflexivity|]. simpl. fold instr r.
    rewrite imm7_spec, u16_widen. now apply Hread.
Qed.

Lemma register_arithmetic_wraps_witness :
  machine_ok sample_add = true /\ machine_ok sample_sub = true
  /\ machine_ok sample_addi = true
  /\ (exists m', step sample_add = Some m' /\ rd (regs m') 3 = 1)
  /\ (exists m', step sample_sub = Some m' /\ rd (regs m') 3 = 3)
  /\ (exists m', step sample_addi = Some m' /\ rd (regs m') 3 = 65535).
Proof.
  assert (Hadd : machine_ok sample_add = true) by (vm_compute; reflexivity).
  assert (Hsub : machine_ok sample_sub = true) by (vm_compute; reflexivity).
  assert (Haddi : machine_ok sample_addi = true)
    by (vm_compute; reflexivity).
  split; [exact Hadd|]. split; [exact Hsub|]. split; [exact Haddi|].
  split; [|split].
  - destruct (register_arithmetic_wraps sample_add Hadd) as (H & _ & _).
    destruct H as (m' & Hstep & Hreg);
      [vm_compute; reflexivity|vm_compute; reflexivity
      |vm_compute; discriminate|].
    exists m'. split; [exact Hstep|].
    vm_compute in Hreg. exact Hreg.
  - destruct (register_arithmetic_wraps sample_sub Hsub) as (_ & H & _).
    destruct H as (m' & Hstep & Hreg);
      [vm_compute; reflexivity|vm_compute; reflexivity
      |vm_compute; discriminate|].
    exists m'. split; [exact Hstep|].
    vm_compute in Hreg. exact Hreg.
  - destruct (register_arithmetic_wraps sample_addi Haddi) as (_ & _ & H).
    destruct H as (m' & Hstep & Hreg);
      [vm_compute; reflexivity|vm_compute; discriminate|].
    exists m'. split; [exact Hstep|].
    vm_compute in Hreg. exact Hreg.
Defined.

End Registers.

Section Control.

(** C9.  After every executed instruction register 0 reads as 0: whatever
    the instruction wrote, also into register 0, the machine that reaches
    the next fetch has 0 there. *)
Theorem register_0_reads_0 m :
  machine_ok m = true ->
  ~ (opcode_of (fetch m) = opcodeJ /\ imm13_of (fetch m) = pc m) ->
  exists m',
    step m = Some m' /\ rd (regs m') 0 = 0 /\ machine_ok m' = true.
Proof.
  intros Hok Hrun.
  destruct (step_defined m Hok) as (m' & Hstep & Hok' & [Hhalt|H0]).
  - destruct Hrun. split; apply Hhalt.
  - exists m'. auto.
Qed.

Lemma register_0_reads_0_witness :
  machine_ok sample_addi_r0 = true
  /\ regB_of (fetch sample_addi_r0) = 0
  /\ rd (regs sample_addi_r0) (regA_of (fetch sample_addi_r0)) + 5 = 12
  /\ exists m', step sample_addi_r0 = Some m' /\ rd (regs m') 0 = 0.
Proof.
  assert (Hok : machine_ok sample_addi_r0 = true)
    by (vm_compute; reflexivity).
  split; [exact Hok|]. split; [vm_compute; reflexivity|].
  split; [vm_compute; reflexivity|].
  destruct (register_0_reads_0 sample_addi_r0 Hok) as (m' & Hstep & H0 & _).
  - intros [Hop _]. vm_compute in Hop. discriminate Hop.
  - exists m'. auto.
Defined.

(** C8.  When the fetched instruction is a jump whose 13-bit immediate
    equals the current pc, the machine halts: the step sets [isHalt] and
    nothing else, so pc, registers, memory, both caches and the log stay
    as earlier instructions left them, and the loop executes nothing
    more. *)
Theorem self_jump_halts m :
  opcode_of (fetch m) = opcodeJ -> imm13_of (fetch m) = pc m ->
  exists m',
    step m = Some m'
    /\ isHalt m' = true
    /\ pc m' = pc m /\ regs m' = regs m /\ memory m' = memory m
    /\ l1Cache m' = l1Cache m /\ l2Cache m' = l2Cache m /\ out m' = out m
    /\ (forall fuel, run fuel m' = Some m')
    /\ (isHalt m = false -> forall fuel, run (S fuel) m = Some m').
Proof.
  intros Hop Himm. exists (halt m).
  split; [now apply step_halt|].
  repeat split.
  - intros fuel. now apply run_halted.
  - intros Hrun fuel. simpl. rewrite Hrun.
    rewrite step_halt by assumption. simpl. now apply run_halted.
Qed.

Lemma self_jump_halts_witness :
  opcode_of (fetch sample_self_jump) = opcodeJ
  /\ imm13_of (fetch sample_self_jump) = pc sample_self_jump
  /\ exists m',
       run 5 sample_self_jump = Some m'
       /\ isHalt m' = true /\ pc m' = 1 /\ rd (regs m') 1 = 9.
Proof.
  assert (Hop : opcode_of (fetch sample_self_jump) = opcodeJ)
    by (vm_compute; reflexivity).
  assert (Himm : imm13_of (fetch sample_self_jump) = pc sample_self_jump)
    by (vm_compute; reflexivity).
  split; [exact Hop|]. split; [exact Himm|].
  destruct (self_jump_halts sample_self_jump Hop Himm)
    as (m' & _ & Hh & Hpc & Hregs & _ & _ & _ & _ & _ & Hrun).
  exists m'. split; [apply Hrun; vm_compute; reflexivity|].
  split; [exact Hh|].
  rewrite Hpc, Hregs. split; vm_compute; reflexivity.
Defined.

End Control.

Section Replacement.

(** What a hit does to the counters of its row: the blocks ahead of the
    matching one gain 2, the ones behind it gain 1. *)
Lemma hit_scan_counters t (bs : list CacheBlock) : forall bs',
  hit_scan t bs = Some bs' ->
  exists k b,
    bs !! k = Some b /\ valid b = true /\ tag b = t
    /\ bs' !! k = Some (set_lru 0 b)
    /\ (forall j b', (j < k)%nat -> bs !! j = Some b' ->
                     bs' !! j = Some (set_lru (lru b' + 2) b'))
    /\ (forall j b', (k < j)%nat -> bs !! j = Some b' ->
                     bs' !! j = Some (set_lru (lru b' + 1) b')).
Proof.
  induction bs as [|b0 bs IH]; intros bs' H; simpl in H; [discriminate|].
  destruct (valid b0 && (tag b0 =? t)) eqn:Hm.
  - injection H as <-. apply andb_true_iff in Hm as [Hv Ht].
    apply Z.eqb_eq in Ht.
    exists 0%nat, b0. repeat split; auto.
    + intros j b' Hj. lia.
    + intros [|j] b' Hj Hb'; [lia|]. simpl in *.
      rewrite list_lookup_fmap, Hb'. reflexivity.
  - destruct (hit_scan t bs) as [r|]; simpl in H; [|discriminate].
    injection H as <-.
    destruct (IH r eq_refl) as (k & b & Hk & Hv & Ht & Hk' & Hlt & Hgt).
    exists (S k), b. repeat split; auto.
    + intros [|j] b' Hj Hb'; simpl in *.
      * injection Hb' as <-. unfold age, set_lru. simpl.
        do 2 f_equal. lia.
      * apply Hlt; [lia|exact Hb'].
    + intros [|j] b' Hj Hb'; [lia|]. simpl in *.
      apply Hgt; [lia|exact Hb'].
Qed.

(** C3.  A hit on the second block of a two-block row: the first block,
    which does not match, goes from [lru = 1] to [lru = 3], two more and
    not one. *)
Theorem load_hit_ages_earlier_block_twice :
  map blocks (rows two_way_loaded)
  = [[mkBlock true 0 1; mkBlock true 1 0]]
  /\ match loadWord two_way_loaded 1 with
     | Some (c', res, rowIndex) =>
         res = 1 /\ rowIndex = 0
         /\ map blocks (rows c') = [[mkBlock true 0 3; mkBlock true 1 0]]
     | None => False
     end.
Proof. vm_compute. repeat split. Qed.

(** The doubled ageing reorders eviction: after loads of 0, 1, 2, 0, 1 in
    a three-block row the least recently used address is 2, yet the miss
    on 3 replaces address 0, so that 2 still hits and 0 misses. *)
Example hit_ageing_breaks_lru :
  (snd <$> loads (cache_of 3 3 1) [0; 1; 2; 0; 1; 3; 2; 0])
  = Some [0; 0; 0; 1; 1; 0; 1; 0].
Proof. vm_compute. reflexivity. Qed.

(** A store into a fresh two-block row installs the second block and
    leaves the first one, the first invalid block, invalid. *)
Lemma store_skips_first_invalid :
  map blocks (rows (cache_of 2 2 1))
  = [[mkBlock false 0 0; mkBlock false 0 0]]
  /\ first_invalid [mkBlock false 0 0; mkBlock false 0 0] 0
  /\ match storeWord (cache_of 2 2 1) 0 with
     | Some (c', rowIndex) =>
         rowIndex = 0
         /\ map blocks (rows c')
            = [[mkBlock false 0 1; mkBlock true 0 0]]
     | None => False
     end.
Proof.
  split; [vm_compute; reflexivity|]. split.
  - exists (mkBlock false 0 0). repeat split. intros j b' Hj. lia.
  - vm_compute. repeat split.
Qed.

(** C4.  For every [storeWord] call on a cache a run can hold, the block
    installed (valid, the tag of the address, [lru = 0], the others aged
    by one) is the last, highest-index, invalid block of the addressed row
    when the row has an invalid block, and otherwise the first block with
    the largest counter. *)
Theorem storeWord_victim c address :
  reachable c -> 0 < blocksize c -> 0 < numRows c -> 0 <= address ->
  exists c' row v,
    storeWord c address = Some (c', row_of c address)
    /\ rows c !! Z.to_nat (row_of c address) = Some row
    /\ rows c'
       = <[Z.to_nat (row_of c address) :=
             mkRow (<[v := mkBlock true (tag_of c address) 0]>
                      (map age (blocks row)))]> (rows c)
    /\ (v < length (blocks row))%nat
    /\ (Exists (fun b => valid b = false) (blocks row) ->
        last_invalid (blocks row) v)
    /\ (Forall (fun b => valid b = true) (blocks row) ->
        first_largest (blocks row) v).
Proof.
  intros Hreach Hb Hn Ha.
  pose proof (reachable_inv c Hreach) as Hinv.
  pose proof (cache_inv_ok c Hinv Hb Hn) as Hok.
  destruct (at_index_ok c address Hok Ha)
    as (row & Hat & Hlook & [Hlen Hnn] & Hne).
  destruct Hinv as [_ Hrows].
  eapply Forall_lookup_1 in Hrows; [|exact Hlook].
  destruct Hrows as (_ & _ & _ & Hdom).
  destruct (store_row_ok (associativity c) (tag_of c address)
              (blocks row) Hlen Hne Hnn)
    as (bs' & Hstore & Hbs & _).
  pose proof (store_scan_range (blocks row) Hne Hnn) as Hv.
  rewrite storeWord_unfold by lia. rewrite Hat. simpl.
  rewrite Hstore. simpl.
  eexists _, row, (Z.to_nat (store_scan 0 (blocks row) (-1) (-1)).1).
  split; [reflexivity|]. split; [exact Hlook|]. simpl.
  split; [now rewrite Hbs|]. split; [lia|]. split.
  - (* some block is invalid *)
    intros Hex.
    destruct (last_invalid_split (blocks row))
      as [Hall|(bs1 & b & bs2 & Hsplit & Hbv & Hvalid)].
    + apply Exists_exists in Hex as (b & Hin & Hbv).
      rewrite Forall_forall in Hall. specialize (Hall b Hin). congruence.
    + rewrite Hsplit in Hdom |- *.
      rewrite (store_scan_last_invalid bs1 b bs2 0 (-1) (-1) Hdom Hbv Hvalid).
      simpl. rewrite Nat2Z.id.
      exists b. split; [now apply list_lookup_middle|]. split; [exact Hbv|].
      intros j b' Hj Hb'.
      rewrite lookup_app_r in Hb' by lia.
      destruct (j - length bs1)%nat as [|i] eqn:Hi; [lia|].
      simpl in Hb'. rewrite Forall_forall in Hvalid.
      apply Hvalid. eapply list_elem_of_lookup_2, Hb'.
  - (* every block is valid *)
    intros Hall. rewrite store_scan_all_valid by exact Hall.
    destruct (max_scan_spec (blocks row) 0 (-1) (-1))
      as [[Hle _]|(k & b & Hk & -> & _ & Hmax & Hfirst)].
    + destruct (blocks row) as [|b0 bs0]; [congruence|].
      inversion Hle; inversion Hnn; subst. lia.
    + simpl. rewrite Nat2Z.id.
      exists b. split; [exact Hk|]. split; [|exact Hfirst].
      intros j b' Hb'. rewrite Forall_forall in Hmax.
      apply Hmax. eapply list_elem_of_lookup_2, Hb'.
Qed.

Lemma storeWord_victim_witness :
  reachable (cache_of 2 2 1)
  /\ 0 < blocksize (cache_of 2 2 1) /\ 0 < numRows (cache_of 2 2 1)
  /\ reachable two_way_loaded
  /\ (exists c', storeWord (cache_of 2 2 1) 0 = Some (c', 0)
                 /\ map blocks (rows c')
                    = [[mkBlock false 0 1; mkBlock true 0 0]])
  /\ (exists c', storeWord two_way_loaded 2 = Some (c', 0)
                 /\ map blocks (rows c')
                    = [[mkBlock true 2 0; mkBlock true 1 1]]).
Proof.
  assert (Hfresh : reachable (cache_of 2 2 1))
    by (apply (reach_new 2 2 1); vm_compute; reflexivity).
  assert (Hmid : reachable (default (cache_of 2 2 1)
                     (fst <$> loads (cache_of 2 2 1) [0])))
    by (apply (reach_load (cache_of 2 2 1) 0 _ 0 0 Hfresh);
        vm_compute; reflexivity).
  assert (Hloaded : reachable two_way_loaded)
    by (apply (reach_load _ 1 _ 0 0 Hmid); vm_compute; reflexivity).
  split; [exact Hfresh|]. split; [vm_compute; reflexivity|].
  split; [vm_compute; reflexivity|]. split; [exact Hloaded|]. split.
  - assert (Hb : 0 < blocksize (cache_of 2 2 1))
      by (vm_compute; reflexivity).
    assert (Hn : 0 < numRows (cache_of 2 2 1)) by (vm_compute; reflexivity).
    destruct (storeWord_victim (cache_of 2 2 1) 0 Hfresh Hb Hn
                ltac:(vm_compute; discriminate))
      as (c' & row & v & Hst & _).
    exists c'. split; [exact Hst|].
    vm_compute in Hst. injection Hst as <-. vm_compute. reflexivity.
  - assert (Hb : 0 < blocksize two_way_loaded) by (vm_compute; reflexivity).
    assert (Hn : 0 < numRows two_way_loaded) by (vm_compute; reflexivity).
    destruct (storeWord_victim two_way_loaded 2 Hloaded Hb Hn
                ltac:(vm_compute; discriminate))
      as (c' & row & v & Hst & _).
    exists c'. split; [exact Hst|].
    vm_compute in Hst. injection Hst as <-. vm_compute. reflexivity.
Defined.

End Replacement.

Section Configuration.

Lemma simulate_with_valid l1 l2 words fuel :
  simulate_with l1 l2 words fuel <> InvalidConfig.
Proof.
  unfold simulate_with.
  destruct (negb _); [discriminate|].
  destruct (Z.of_nat (length words) >? MEM_SIZE); [discriminate|].
  destruct (run fuel (initial words l1 l2)) as [m|]; [|discriminate].
  destruct (isHalt m); discriminate.
Qed.

(** A size that is no multiple of associativity * blocksize, and one that
    gives no row at all, are both accepted: the program runs and [main]
    returns 0. *)
Lemma ragged_and_empty_caches_run :
  Z.rem 5 (1 * 2) <> 0
  /\ match main [5; 1; 2] halt_program 1 with
     | Returned m =>
         numRows (l1Cache m) = 2
         /\ exit_status (main [5; 1; 2] halt_program 1) = Some 0
     | _ => False
     end
  /\ match main [1; 2; 1] halt_program 1 with
     | Returned m =>
         numRows (l1Cache m) = 0
         /\ exit_status (main [1; 2; 1] halt_program 1) = Some 0
     | _ => False
     end.
Proof. vm_compute. repeat split; discriminate. Qed.

(** In a cache without rows the first load divides by zero. *)
Example empty_cache_load_aborts :
  main [1; 2; 1] load_program 2 = Aborted.
Proof. vm_compute. reflexivity. Qed.

(** C5.  The row count of a cache is not checked: for [int]s, a size that
    is not negative and a positive associativity and block size whose
    product does not overflow, the cache is built with
    size / (associativity * blocksize) rows, the quotient truncated,
    whether or not the division is exact, and the simulation starts.  The
    one configuration error, reported before any instruction executes and
    with exit status 1, is a list of cache parameters that is given
    ([parts] is not empty) and has neither 3 nor 6 entries. *)
Theorem row_count_is_not_checked size assoc bsize words fuel :
  0 <= size <= INT_MAX -> 0 < assoc -> 0 < bsize ->
  assoc * bsize <= INT_MAX ->
  exists c,
    newCache size assoc bsize = Some c
    /\ numRows c = Z.quot size (assoc * bsize)
    /\ Z.of_nat (length (rows c)) = numRows c
    /\ main [size; assoc; bsize] words fuel
       = simulate_with c None words fuel
    /\ main [size; assoc; bsize] words fuel <> InvalidConfig
    /\ exit_status InvalidConfig = Some 1
    /\ forall parts,
         forallb int_ok parts = true ->
         main parts words fuel = InvalidConfig
         <-> (length parts <> 0 /\ length parts <> 3
              /\ length parts <> 6)%nat.
Proof.
  intros Hs Ha Hb Hfit.
  assert (Hprod : 0 < assoc * bsize) by lia.
  assert (Hq : 0 <= Z.quot size (assoc * bsize) <= INT_MAX).
  { split; [apply Z.quot_pos; lia|].
    pose proof (Z.quot_le_upper_bound size (assoc * bsize) size) as Hu.
    assert (Z.quot size (assoc * bsize) <= size); [|lia].
    apply Z.quot_le_upper_bound; nia. }
  assert (Hint : INT_MIN < 0 /\ 0 < INT_MAX) by (split; reflexivity).
  assert (Hle : assoc <= assoc * bsize /\ bsize <= assoc * bsize) by nia.
  assert (Hnew : exists c,
             newCache size assoc bsize = Some c
             /\ numRows c = Z.quot size (assoc * bsize)
             /\ Z.of_nat (length (rows c)) = numRows c).
  { eexists. split.
    - apply newCache_Some. cbv zeta.
      rewrite !int_ok_spec.
      split; [lia|]. split; [lia|]. split; [exact Hq|].
      split; [lia|reflexivity].
    - simpl. split; [reflexivity|]. rewrite length_replicate. lia. }
  destruct Hnew as (c & Hnew & Hrows & Hlen).
  exists c. split; [exact Hnew|]. split; [exact Hrows|].
  split; [exact Hlen|].
  assert (Hparts : forallb int_ok [size; assoc; bsize] = true).
  { simpl. rewrite !andb_true_iff, !int_ok_spec. lia. }
  assert (Hsim : main [size; assoc; bsize] words fuel
                 = simulate_with c None words fuel).
  { unfold main. rewrite Hparts. simpl. now rewrite Hnew. }
  split; [exact Hsim|].
  split; [rewrite Hsim; apply simulate_with_valid|].
  split; [reflexivity|].
  intros parts Hints. unfold main. rewrite Hints. cbv [negb].
  destruct parts as [|p1 [|p2 [|p3 [|p4 [|p5 [|p6 [|p7 rest]]]]]]];
    cbn [length].
  - split; [discriminate|lia].
  - split; [lia|reflexivity].
  - split; [lia|reflexivity].
  - split; [|lia]. intros H. exfalso.
    destruct (newCache p1 p2 p3); [|discriminate].
    now apply simulate_with_valid in H.
  - split; [lia|reflexivity].
  - split; [lia|reflexivity].
  - split; [|lia]. intros H. exfalso.
    destruct (newCache p1 p2 p3); [|discriminate].
    destruct (newCache p4 p5 p6); [|discriminate].
    now apply simulate_with_valid in H.
  - split; [lia|reflexivity].
Qed.

Lemma row_count_is_not_checked_witness :
  0 <= 5 <= INT_MAX /\ 0 < 1 /\ 0 < 2 /\ 1 * 2 <= INT_MAX
  /\ Z.rem 5 (1 * 2) <> 0
  /\ exists c, newCache 5 1 2 = Some c /\ numRows c = 2
               /\ main [5; 1; 2] halt_program 1 <> InvalidConfig.
Proof.
  assert (Hs : 0 <= 5 <= INT_MAX) by (split; discriminate).
  assert (Hp : 1 * 2 <= INT_MAX) by discriminate.
  split; [exact Hs|]. split; [lia|]. split; [lia|]. split; [exact Hp|].
  split; [vm_compute; discriminate|].
  destruct (row_count_is_not_checked 5 1 2 halt_program 1 Hs
              ltac:(lia) ltac:(lia) Hp)
    as (c & Hnew & Hrows & _ & _ & Hvalid & _).
  exists c. split; [exact Hnew|]. split; [|exact Hvalid].
  rewrite Hrows. vm_compute. reflexivity.
Defined.

End Configuration.

(** * Further properties of the cache *)

Section RowAccess.

Implicit Types (bs : list CacheBlock) (b : CacheBlock).

Lemma max_scan_age bs : forall i lruIndex maxLRU,
  max_scan i (map age bs) lruIndex (maxLRU + 1)
  = ((max_scan i bs lruIndex maxLRU).1,
     (max_scan i bs lruIndex maxLRU).2 + 1).
Proof.
  induction bs as [|b bs IH]; intros i lruIndex maxLRU; simpl.
  - reflexivity.
  - destruct (Z.ltb_spec (maxLRU + 1) (lru b + 1)),
             (Z.ltb_spec maxLRU (lru b)); try lia; apply IH.
Qed.

(** The victim of a miss, read on the row as it was before the access. *)
Lemma miss_victim bs :
  bs <> [] -> nonneg bs ->
  exists v,
    (max_scan 0 (map age bs) (-1) (-1)).1 = Z.of_nat v
    /\ (v < length bs)%nat /\ first_largest bs v.
Proof.
  intros Hne Hnn.
  change (-1) with (-2 + 1) at 2. rewrite max_scan_age. simpl.
  destruct (max_scan_spec bs 0 (-1) (-2))
    as [[Hle _]|(k & b & Hk & -> & _ & Hmax & Hfirst)].
  - destruct bs as [|b0 bs0]; [congruence|].
    inversion Hle; inversion Hnn; subst. lia.
  - exists k. simpl. split; [reflexivity|].
    split; [eapply lookup_lt_Some, Hk|].
    exists b. split; [exact Hk|]. split; [|exact Hfirst].
    intros j b' Hb'. rewrite Forall_forall in Hmax.
    apply Hmax. eapply list_elem_of_lookup_2, Hb'.
Qed.

(** A load of a row: a hit when the row holds the tag, and then only
    counters change; otherwise the first block with the largest counter is
    replaced. *)
Lemma load_row_cases assoc t bs :
  length bs = Z.to_nat assoc -> bs <> [] -> nonneg bs ->
  if holds t bs
  then exists bs',
         hit_scan t bs = Some bs' /\ load_row assoc t bs = Some (bs', 1)
  else exists v,
         (v < length bs)%nat /\ first_largest bs v
         /\ load_row assoc t bs
            = Some (<[v := mkBlock true t 0]> (map age bs), 0).
Proof.
  intros Hlen Hne Hnn. rewrite load_row_spec by exact Hlen.
  destruct (holds t bs) eqn:Hh.
  - apply hit_scan_holds in Hh as [bs' Hbs']. rewrite Hbs'. eauto.
  - apply hit_scan_none in Hh. rewrite Hh.
    destruct (miss_victim bs Hne Hnn) as (v & Hv & Hlt & Hfirst).
    exists v. split; [exact Hlt|]. split; [exact Hfirst|].
    rewrite Hv, install_in_range by (rewrite length_map; lia).
    simpl. now rewrite Nat2Z.id.
Qed.

Lemma most_recent_hit t bs : forall bs',
  nonneg bs -> hit_scan t bs = Some bs' -> exists k, most_recent t bs' k.
Proof.
  induction bs as [|b bs IH]; intros bs' Hnn H; simpl in H; [discriminate|].
  inversion Hnn as [|? ? Hb Hbs]; subst.
  destruct (valid b && (tag b =? t)) eqn:Hm.
  - injection H as <-. apply andb_true_iff in Hm as [Hv Ht].
    apply Z.eqb_eq in Ht.
    exists 0%nat, (set_lru 0 b). repeat split; auto.
    intros [|j] b' Hj Hb'; [congruence|]. simpl in Hb'.
    rewrite list_lookup_fmap in Hb'.
    destruct (bs !! j) as [b0|] eqn:Hb0; [|discriminate].
    injection Hb' as <-. simpl.
    eapply Forall_lookup_1 in Hbs; [|exact Hb0]. simpl in Hbs. lia.
  - destruct (hit_scan t bs) as [r|]; simpl in H; [|discriminate].
    injection H as <-.
    destruct (IH r Hbs eq_refl) as (k & b0 & Hk & Hv & Ht & H0 & Hrest).
    exists (S k), b0. repeat split; auto.
    intros [|j] b' Hj Hb'; simpl in Hb'.
    + injection Hb' as <-. simpl. lia.
    + apply (Hrest j); [lia|exact Hb'].
Qed.

Lemma most_recent_installed t bs v :
  (v < length bs)%nat -> nonneg bs ->
  most_recent t (<[v := mkBlock true t 0]> (map age bs)) v.
Proof.
  intros Hv Hnn. exists (mkBlock true t 0).
  split; [apply list_lookup_insert_eq; now rewrite length_map|].
  repeat split.
  intros j b' Hj Hb'. rewrite list_lookup_insert_ne in Hb' by auto.
  rewrite list_lookup_fmap in Hb'.
  destruct (bs !! j) as [b0|] eqn:Hb0; [|discriminate].
  injection Hb' as <-. simpl.
  eapply Forall_lookup_1 in Hnn; [|exact Hb0]. simpl in Hnn. lia.
Qed.

(** In a row of two blocks or more, the block used last survives the next
    load of the row. *)
Lemma load_row_keeps_recent assoc t t' bs k bs' res :
  length bs = Z.to_nat assoc -> (2 <= length bs)%nat -> nonneg bs ->
  most_recent t bs k ->
  load_row assoc t' bs = Some (bs', res) ->
  holds t bs' = true.
Proof.
  intros Hlen H2 Hnn (b & Hk & Hv & Ht & H0 & Hrest) Hload.
  assert (Hne : bs <> []) by (destruct bs; [simpl in H2; lia|discriminate]).
  assert (Hheld : holds t bs = true) by (apply holds_lookup; eauto).
  pose proof (load_row_cases assoc t' bs Hlen Hne Hnn) as Hcases.
  destruct (holds t' bs).
  - destruct Hcases as (bs1 & Hhit & Hload1).
    rewrite Hload in Hload1. injection Hload1 as -> _.
    erewrite holds_keys; [exact Hheld|eapply hit_scan_keys, Hhit].
  - destruct Hcases as (v & Hlt & (bv & Hbv & Hmax & _) & Hload1).
    rewrite Hload in Hload1. injection Hload1 as -> _.
    assert (Hvk : v <> k).
    { intros ->. rewrite Hk in Hbv. injection Hbv as <-.
      pose proof (lookup_lt_Some _ _ _ Hk) as Hklt.
      destruct (lookup_lt_is_Some_2 bs (if decide (k = 0%nat) then 1 else 0)%nat)
        as [b1 Hb1]; [destruct (decide (k = 0%nat)); lia|].
      assert (Hj : (if decide (k = 0%nat) then 1 else 0)%nat <> k)
        by (destruct (decide (k = 0%nat)); lia).
      pose proof (Hrest _ _ Hj Hb1). pose proof (Hmax _ _ Hb1). lia. }
    apply holds_lookup. exists k, (age b).
    split; [|auto].
    rewrite list_lookup_insert_ne by auto.
    now rewrite list_lookup_fmap, Hk.
Qed.

End RowAccess.

Section CacheResidency.

Implicit Types (c : Cache) (bs : list CacheBlock).

Lemma at_index_set_row c r bs r' row0 :
  at_index (rows c) r = Some row0 ->
  at_index (rows (set_row c r bs)) r'
  = if r' =? r then Some (mkRow bs) else at_index (rows c) r'.
Proof.
  unfold at_index. simpl. intros Hr.
  destruct (Z.ltb_spec r 0); [discriminate|].
  destruct (Z.ltb_spec r' 0).
  - destruct (Z.eqb_spec r' r); [lia|reflexivity].
  - destruct (Z.eqb_spec r' r) as [->|Hne].
    + apply list_lookup_insert_eq. eapply lookup_lt_Some, Hr.
    + apply list_lookup_insert_ne. lia.
Qed.

Lemma cached_set_row c r bs row0 address :
  at_index (rows c) r = Some row0 ->
  cached (set_row c r bs) address
  = if row_of c address =? r then holds (tag_of c address) bs
    else cached c address.
Proof.
  intros Hr. unfold cached.
  change (row_of (set_row c r bs) address) with (row_of c address).
  change (tag_of (set_row c r bs) address) with (tag_of c address).
  rewrite (at_index_set_row c r bs _ row0 Hr).
  now destruct (row_of c address =? r).
Qed.

(** A load of a well-formed cache, by cases on residency. *)
Lemma loadWord_cases c address :
  cache_ok c = true -> 0 <= address ->
  exists row,
    at_index (rows c) (row_of c address) = Some row
    /\ row_shape (associativity c) row /\ blocks row <> []
    /\ cached c address = holds (tag_of c address) (blocks row)
    /\ if cached c address
       then exists bs',
              hit_scan (tag_of c address) (blocks row) = Some bs'
              /\ loadWord c address
                 = Some (set_row c (row_of c address) bs', 1,
                         row_of c address)
       else exists v,
              (v < length (blocks row))%nat
              /\ first_largest (blocks row) v
              /\ loadWord c address
                 = Some (set_row c (row_of c address)
                           (<[v := mkBlock true (tag_of c address) 0]>
                              (map age (blocks row))), 0,
                         row_of c address).
Proof.
  intros Hok Ha.
  destruct (cache_ok_elim c Hok) as (Hb & Hn & _).
  destruct (at_index_ok c address Hok Ha)
    as (row & Hat & _ & [Hlen Hnn] & Hne).
  exists row. split; [exact Hat|]. split; [now split|].
  split; [exact Hne|].
  assert (Hc : cached c address = holds (tag_of c address) (blocks row))
    by (unfold cached; now rewrite Hat).
  split; [exact Hc|]. rewrite Hc.
  pose proof (load_row_cases (associativity c) (tag_of c address)
                (blocks row) Hlen Hne Hnn) as Hcases.
  rewrite loadWord_unfold by lia. rewrite Hat. simpl.
  destruct (holds (tag_of c address) (blocks row)).
  - destruct Hcases as (bs' & Hhit & ->). eauto.
  - destruct Hcases as (v & Hlt & Hfirst & ->). eauto.
Qed.

(** A store to a well-formed cache. *)
Lemma storeWord_cases c address :
  cache_ok c = true -> 0 <= address ->
  exists row v,
    at_index (rows c) (row_of c address) = Some row
    /\ row_shape (associativity c) row
    /\ (v < length (blocks row))%nat
    /\ storeWord c address
       = Some (set_row c (row_of c address)
                 (<[v := mkBlock true (tag_of c address) 0]>
                    (map age (blocks row))),
               row_of c address).
Proof.
  intros Hok Ha.
  destruct (cache_ok_elim c Hok) as (Hb & Hn & _).
  destruct (at_index_ok c address Hok Ha)
    as (row & Hat & _ & [Hlen Hnn] & Hne).
  destruct (store_row_ok (associativity c) (tag_of c address)
              (blocks row) Hlen Hne Hnn) as (bs' & Hstore & -> & _).
  pose proof (store_scan_range (blocks row) Hne Hnn) as Hv.
  exists row, (Z.to_nat (store_scan 0 (blocks row) (-1) (-1)).1).
  split; [exact Hat|]. split; [now split|]. split; [lia|].
  rewrite storeWord_unfold by lia. rewrite Hat. simpl.
  now rewrite Hstore.
Qed.

(** What any access leaves behind: a well-formed cache of the same
    geometry whose addressed row has the block of the address as its most
    recent one, the other rows being as they were. *)
Lemma accessed_spec c address c' :
  cache_ok c = true -> 0 <= address -> accessed c address c' ->
  cache_ok c' = true /\ same_geometry c c'
  /\ (exists row row' k,
        at_index (rows c) (row_of c address) = Some row
        /\ at_index (rows c') (row_of c address) = Some row'
        /\ length (blocks row') = length (blocks row)
        /\ most_recent (tag_of c address) (blocks row') k)
  /\ (forall r, r <> row_of c address ->
                at_index (rows c') r = at_index (rows c) r).
Proof.
  intros Hok Ha Hacc.
  assert (Hgen : forall row bs',
    at_index (rows c) (row_of c address) = Some row ->
    row_shape (associativity c) row ->
    length bs' = length (blocks row) -> nonneg bs' ->
    (exists k, most_recent (tag_of c address) bs' k) ->
    c' = set_row c (row_of c address) bs' ->
    cache_ok c' = true /\ same_geometry c c'
    /\ (exists row row' k,
          at_index (rows c) (row_of c address) = Some row
          /\ at_index (rows c') (row_of c address) = Some row'
          /\ length (blocks row') = length (blocks row)
          /\ most_recent (tag_of c address) (blocks row') k)
    /\ (forall r, r <> row_of c address ->
                  at_index (rows c') r = at_index (rows c) r)).
  { intros row bs' Hat [Hlen Hnn] Hlen' Hnn' [k Hk] ->.
    split; [apply set_row_ok; auto; congruence|].
    split; [repeat split; simpl; now rewrite ?length_insert|].
    split.
    - exists row, (mkRow bs'), k.
      rewrite (at_index_set_row c _ bs' _ row Hat), Z.eqb_refl. auto.
    - intros r Hr. rewrite (at_index_set_row c _ bs' _ row Hat).
      now destruct (Z.eqb_spec r (row_of c address)). }
  destruct Hacc as [(res & r & Hload)|(r & Hstore)].
  - destruct (loadWord_cases c address Hok Ha)
      as (row & Hat & Hshape & Hne & _ & Hcases).
    destruct Hshape as [Hlen Hnn].
    destruct (cached c address).
    + destruct Hcases as (bs' & Hhit & Hload').
      rewrite Hload in Hload'. injection Hload' as Hc' _ _.
      refine (Hgen row _ Hat (conj Hlen Hnn) _ _ _ Hc').
      * eapply hit_scan_length, Hhit.
      * eapply hit_scan_nonneg; [exact Hnn|exact Hhit].
      * eapply most_recent_hit; [exact Hnn|exact Hhit].
    + destruct Hcases as (v & Hlt & _ & Hload').
      rewrite Hload in Hload'. injection Hload' as Hc' _ _.
      refine (Hgen row _ Hat (conj Hlen Hnn) _ _ _ Hc').
      * now rewrite length_insert, length_map.
      * now apply nonneg_insert, nonneg_age.
      * exists v. now apply most_recent_installed.
  - destruct (storeWord_cases c address Hok Ha)
      as (row & v & Hat & [Hlen Hnn] & Hlt & Hstore').
    rewrite Hstore in Hstore'. injection Hstore' as Hc' _.
    refine (Hgen row _ Hat (conj Hlen Hnn) _ _ _ Hc').
    + now rewrite length_insert, length_map.
    + now apply nonneg_insert, nonneg_age.
    + exists v. now apply most_recent_installed.
Qed.

Lemma most_recent_holds t bs k : most_recent t bs k -> holds t bs = true.
Proof.
  intros (b & Hk & Hv & Ht & _). apply holds_lookup. eauto.
Qed.

Lemma accessed_cached c address c' :
  cache_ok c = true -> 0 <= address -> accessed c address c' ->
  cached c' address = true.
Proof.
  intros Hok Ha Hacc.
  destruct (accessed_spec c address c' Hok Ha Hacc)
    as (_ & (_ & _ & Hbs & Hn & _) & (row & row' & k & _ & Hat' & _ & Hk) & _).
  unfold cached, row_of, tag_of. rewrite Hbs, Hn.
  fold (row_of c address) (tag_of c address). rewrite Hat'.
  eapply most_recent_holds, Hk.
Qed.

(** The result and the row a load reports. *)
Lemma loadWord_result c address :
  cache_ok c = true -> 0 <= address ->
  exists c',
    loadWord c address
    = Some (c', if cached c address then 1 else 0, row_of c address).
Proof.
  intros Hok Ha.
  destruct (loadWord_cases c address Hok Ha) as (row & _ & _ & _ & _ & H).
  destruct (cached c address).
  - destruct H as (bs' & _ & Hl). eexists. exact Hl.
  - destruct H as (v & _ & _ & Hl). eexists. exact Hl.
Qed.

End CacheResidency.

Section AccessShape.

Implicit Types (c : Cache) (bs : list CacheBlock).

(** The addressed row after an access: the same valid bits and tags, or
    the aged row with one block replaced by the block of the address. *)
Lemma accessed_row c address c' :
  cache_ok c = true -> 0 <= address -> accessed c address c' ->
  exists row bs',
    at_index (rows c) (row_of c address) = Some row
    /\ c' = set_row c (row_of c address) bs'
    /\ (map key bs' = map key (blocks row)
        \/ exists v,
             (v < length (blocks row))%nat
             /\ bs' = <[v := mkBlock true (tag_of c address) 0]>
                        (map age (blocks row))).
Proof.
  intros Hok Ha [(res & r & Hload)|(r & Hstore)].
  - destruct (loadWord_cases c address Hok Ha)
      as (row & Hat & _ & _ & _ & Hcases).
    exists row. destruct (cached c address).
    + destruct Hcases as (bs' & Hhit & Hload').
      rewrite Hload in Hload'. injection Hload' as Hc' _ _.
      exists bs'. split; [exact Hat|]. split; [exact Hc'|].
      left. eapply hit_scan_keys, Hhit.
    + destruct Hcases as (v & Hlt & _ & Hload').
      rewrite Hload in Hload'. injection Hload' as Hc' _ _.
      eexists. split; [exact Hat|]. split; [exact Hc'|]. right. eauto.
  - destruct (storeWord_cases c address Hok Ha)
      as (row & v & Hat & _ & Hlt & Hstore').
    rewrite Hstore in Hstore'. injection Hstore' as Hc' _.
    exists row. eexists. split; [exact Hat|]. split; [exact Hc'|].
    right. eauto.
Qed.

Lemma key_lookup bs bs' j b :
  map key bs' = map key bs -> bs !! j = Some b ->
  exists b', bs' !! j = Some b' /\ valid b' = valid b /\ tag b' = tag b.
Proof.
  intros Hk Hb.
  assert (Hj : map key bs' !! j = Some (key b))
    by (rewrite Hk, list_lookup_fmap, Hb; reflexivity).
  rewrite list_lookup_fmap in Hj.
  destruct (bs' !! j) as [b'|]; [|discriminate].
  injection Hj as Hv Ht. eauto.
Qed.

Lemma newCache_rows size assoc bsize c :
  newCache size assoc bsize = Some c ->
  Forall (fun r => Forall (fun b => valid b = false) (blocks r)) (rows c).
Proof.
  intros H. apply newCache_Some in H as (_ & _ & _ & _ & ->). simpl.
  apply Forall_replicate. simpl. now apply Forall_replicate.
Qed.

Lemma holds_invalid t bs :
  Forall (fun b => valid b = false) bs -> holds t bs = false.
Proof.
  induction 1 as [|b bs Hb _ IH]; [reflexivity|].
  unfold holds in *. simpl. unfold matches at 1. now rewrite Hb, IH.
Qed.

End AccessShape.

Section CacheProperties.

Implicit Types (c : Cache) (bs : list CacheBlock).

(** X1.  Address decomposition.  For a 16-bit address and a positive
    geometry the row lies in [0, numRows), the block number
    address / blocksize is tag * numRows + row, and two addresses have the
    same row and tag exactly when they lie in the same block. *)
Theorem address_decomposition c a a' :
  0 < blocksize c -> 0 < numRows c ->
  0 <= a < 65536 -> 0 <= a' < 65536 ->
  0 <= row_of c a < numRows c
  /\ a / blocksize c = tag_of c a * numRows c + row_of c a
  /\ ((row_of c a = row_of c a' /\ tag_of c a = tag_of c a')
      <-> a / blocksize c = a' / blocksize c).
Proof.
  intros Hb Hn Ha Ha'.
  assert (Hdec : forall x, 0 <= x < 65536 ->
    0 <= row_of c x < numRows c
    /\ x / blocksize c = tag_of c x * numRows c + row_of c x).
  { intros x Hx. unfold row_of, tag_of, u16.
    rewrite !Z.quot_div_nonneg by lia.
    assert (Hq : 0 <= x / blocksize c <= x).
    { split; [apply Z.div_pos; lia|].
      apply Z.div_le_upper_bound; [lia|]. nia. }
    rewrite Z.quot_div_nonneg, Z.rem_mod_nonneg by lia.
    assert (Ht : 0 <= x / blocksize c / numRows c <= x / blocksize c).
    { split; [apply Z.div_pos; lia|].
      apply Z.div_le_upper_bound; [lia|]. nia. }
    rewrite (Z.mod_small (x / blocksize c / numRows c)) by lia.
    split; [apply Z.mod_pos_bound; lia|].
    rewrite (Z.div_mod (x / blocksize c) (numRows c)) at 1 by lia. lia. }
  destruct (Hdec a Ha) as [Hr Hblk]. destruct (Hdec a' Ha') as [Hr' Hblk'].
  split; [exact Hr|]. split; [exact Hblk|]. split.
  - intros [E1 E2]. rewrite Hblk, Hblk', E1, E2. reflexivity.
  - intros E. unfold row_of, tag_of.
    rewrite !Z.quot_div_nonneg by lia. now rewrite E.
Qed.

Lemma address_decomposition_witness :
  0 < blocksize (cache_of 8 2 2) /\ 0 < numRows (cache_of 8 2 2)
  /\ row_of (cache_of 8 2 2) 13 = 0 /\ tag_of (cache_of 8 2 2) 13 = 3
  /\ 13 / 2 = 3 * 2 + 0.
Proof.
  assert (Hb : 0 < blocksize (cache_of 8 2 2)) by (vm_compute; reflexivity).
  assert (Hn : 0 < numRows (cache_of 8 2 2)) by (vm_compute; reflexivity).
  destruct (address_decomposition (cache_of 8 2 2) 13 12 Hb Hn
              ltac:(lia) ltac:(lia)) as (_ & Hblk & _).
  split; [exact Hb|]. split; [exact Hn|].
  split; [vm_compute; reflexivity|]. split; [vm_compute; reflexivity|].
  vm_compute in Hblk. exact Hblk.
Defined.

(** X2.  A load of a well-formed cache returns 1 exactly when the row the
    address selects holds a valid block with the tag of the address, and 0
    otherwise; it reports that row, and afterwards the address is
    cached. *)
Theorem loadWord_hits_iff_cached c address :
  cache_ok c = true -> 0 <= address ->
  exists c',
    loadWord c address
    = Some (c', if cached c address then 1 else 0, row_of c address)
    /\ cached c' address = true.
Proof.
  intros Hok Ha.
  destruct (loadWord_result c address Hok Ha) as (c' & Hl).
  exists c'. split; [exact Hl|].
  apply (accessed_cached c); auto. left. eauto.
Qed.

Lemma loadWord_hits_iff_cached_witness :
  cache_ok direct_loaded = true
  /\ cached direct_loaded 5 = true /\ cached direct_loaded 9 = false
  /\ (exists c', loadWord direct_loaded 5 = Some (c', 1, 1))
  /\ (exists c', loadWord direct_loaded 9 = Some (c', 0, 1)).
Proof.
  assert (Hok : cache_ok direct_loaded = true) by (vm_compute; reflexivity).
  split; [exact Hok|].
  split; [vm_compute; reflexivity|]. split; [vm_compute; reflexivity|].
  split.
  - destruct (loadWord_hits_iff_cached direct_loaded 5 Hok ltac:(lia))
      as (c' & Hl & _).
    exists c'. rewrite Hl. vm_compute. reflexivity.
  - destruct (loadWord_hits_iff_cached direct_loaded 9 Hok ltac:(lia))
      as (c' & Hl & _).
    exists c'. rewrite Hl. vm_compute. reflexivity.
Defined.

(** X3.  After a load or a store of an address, whatever its outcome, the
    next load of the same address hits, on the same row. *)
Theorem access_then_load_hits c address c1 :
  cache_ok c = true -> 0 <= address -> accessed c address c1 ->
  exists c2, loadWord c1 address = Some (c2, 1, row_of c address).
Proof.
  intros Hok Ha Hacc.
  destruct (accessed_spec c address c1 Hok Ha Hacc)
    as (Hok1 & (_ & _ & Hbs & Hn & _) & _).
  pose proof (accessed_cached c address c1 Hok Ha Hacc) as Hc.
  destruct (loadWord_result c1 address Hok1 Ha) as (c2 & Hl).
  rewrite Hc in Hl. exists c2. rewrite Hl.
  unfold row_of. now rewrite Hbs, Hn.
Qed.

Lemma access_then_load_hits_witness :
  cache_ok (cache_of 4 1 1) = true
  /\ accessed (cache_of 4 1 1) 5 direct_loaded
  /\ loadWord (cache_of 4 1 1) 5 = Some (direct_loaded, 0, 1)
  /\ exists c2, loadWord direct_loaded 5 = Some (c2, 1, 1).
Proof.
  assert (Hok : cache_ok (cache_of 4 1 1) = true)
    by (vm_compute; reflexivity).
  assert (Hl : loadWord (cache_of 4 1 1) 5 = Some (direct_loaded, 0, 1))
    by (vm_compute; reflexivity).
  assert (Hacc : accessed (cache_of 4 1 1) 5 direct_loaded)
    by (left; exists 0, 1; exact Hl).
  split; [exact Hok|]. split; [exact Hacc|]. split; [exact Hl|].
  destruct (access_then_load_hits (cache_of 4 1 1) 5 direct_loaded Hok
              ltac:(lia) Hacc) as (c2 & H2).
  exists c2. rewrite H2. vm_compute. reflexivity.
Defined.

(** X4.  A load that misses ages every block of the addressed row by one
    and replaces the first block that had the largest counter by a valid
    block with the tag of the address and [lru = 0]; the other blocks keep
    their valid bit and tag. *)
Theorem loadWord_miss_victim c address :
  cache_ok c = true -> 0 <= address -> cached c address = false ->
  exists c' row v,
    loadWord c address = Some (c', 0, row_of c address)
    /\ rows c !! Z.to_nat (row_of c address) = Some row
    /\ rows c'
       = <[Z.to_nat (row_of c address) :=
             mkRow (<[v := mkBlock true (tag_of c address) 0]>
                      (map age (blocks row)))]> (rows c)
    /\ (v < length (blocks row))%nat
    /\ first_largest (blocks row) v.
Proof.
  intros Hok Ha Hmiss.
  destruct (loadWord_cases c address Hok Ha)
    as (row & Hat & _ & _ & _ & H).
  rewrite Hmiss in H. destruct H as (v & Hlt & Hfirst & Hl).
  eexists _, row, v. split; [exact Hl|].
  split; [now apply at_index_lookup|]. simpl. auto.
Qed.

Lemma loadWord_miss_victim_witness :
  cache_ok two_way_loaded = true /\ cached two_way_loaded 2 = false
  /\ exists c', loadWord two_way_loaded 2 = Some (c', 0, 0)
                /\ map blocks (rows c')
                   = [[mkBlock true 2 0; mkBlock true 1 1]].
Proof.
  assert (Hok : cache_ok two_way_loaded = true) by (vm_compute; reflexivity).
  assert (Hm : cached two_way_loaded 2 = false) by (vm_compute; reflexivity).
  split; [exact Hok|]. split; [exact Hm|].
  destruct (loadWord_miss_victim two_way_loaded 2 Hok ltac:(lia) Hm)
    as (c' & row & v & Hl & _).
  exists c'. split; [rewrite Hl; vm_compute; reflexivity|].
  vm_compute in Hl. injection Hl as <-. vm_compute. reflexivity.
Defined.

(** X5.  An access changes the addressed row only: the geometry and every
    other row stay as they were, so an address that selects another row
    is cached afterwards exactly when it was before. *)
Theorem access_touches_one_row c address c' :
  cache_ok c = true -> 0 <= address -> accessed c address c' ->
  same_geometry c c'
  /\ (forall r, r <> row_of c address ->
                at_index (rows c') r = at_index (rows c) r)
  /\ (forall other, row_of c other <> row_of c address ->
                    cached c' other = cached c other).
Proof.
  intros Hok Ha Hacc.
  destruct (accessed_spec c address c' Hok Ha Hacc)
    as (_ & Hgeo & _ & Hrows).
  split; [exact Hgeo|]. split; [exact Hrows|].
  intros other Hother. destruct Hgeo as (_ & _ & Hbs & Hn & _).
  unfold cached, row_of, tag_of. rewrite Hbs, Hn.
  fold (row_of c other) (tag_of c other). now rewrite Hrows.
Qed.

Lemma access_touches_one_row_witness :
  cache_ok direct_loaded = true
  /\ row_of direct_loaded 6 <> row_of direct_loaded 9
  /\ cached direct_loaded 5 = true
  /\ exists c', loadWord direct_loaded 6 = Some (c', 0, 2)
                /\ cached c' 5 = true /\ cached c' 9 = false.
Proof.
  assert (Hok : cache_ok direct_loaded = true) by (vm_compute; reflexivity).
  assert (Hl : exists c', loadWord direct_loaded 6 = Some (c', 0, 2))
    by (eexists; vm_compute; reflexivity).
  destruct Hl as [c' Hl].
  destruct (access_touches_one_row direct_loaded 6 c' Hok ltac:(lia))
    as (_ & _ & Hkeep); [left; eauto|].
  split; [exact Hok|]. split; [vm_compute; discriminate|].
  split; [vm_compute; reflexivity|].
  exists c'. split; [exact Hl|]. split.
  - rewrite Hkeep by (vm_compute; discriminate). vm_compute. reflexivity.
  - rewrite Hkeep by (vm_compute; discriminate). vm_compute. reflexivity.
Defined.

(** X6.  A load that hits evicts nothing: every address is cached
    afterwards exactly when it was before. *)
Theorem hit_keeps_residency c address :
  cache_ok c = true -> 0 <= address -> cached c address = true ->
  exists c',
    loadWord c address = Some (c', 1, row_of c address)
    /\ forall other, cached c' other = cached c other.
Proof.
  intros Hok Ha Hhit.
  destruct (loadWord_cases c address Hok Ha)
    as (row & Hat & _ & _ & _ & H).
  rewrite Hhit in H. destruct H as (bs' & Hscan & Hl).
  eexists. split; [exact Hl|]. intros other.
  rewrite (cached_set_row c _ bs' row other Hat).
  destruct (Z.eqb_spec (row_of c other) (row_of c address)) as [E|_];
    [|reflexivity].
  unfold cached. rewrite E, Hat.
  apply holds_keys. eapply hit_scan_keys, Hscan.
Qed.

Lemma hit_keeps_residency_witness :
  cache_ok wide_loaded = true /\ cached wide_loaded 0 = true
  /\ cached wide_loaded 5 = true
  /\ exists c', loadWord wide_loaded 0 = Some (c', 1, 0)
                /\ cached c' 5 = true.
Proof.
  assert (Hok : cache_ok wide_loaded = true) by (vm_compute; reflexivity).
  assert (Hc : cached wide_loaded 0 = true) by (vm_compute; reflexivity).
  split; [exact Hok|]. split; [exact Hc|].
  split; [vm_compute; reflexivity|].
  destruct (hit_keeps_residency wide_loaded 0 Hok ltac:(lia) Hc)
    as (c' & Hl & Hkeep).
  exists c'. split; [rewrite Hl; vm_compute; reflexivity|].
  rewrite Hkeep. vm_compute. reflexivity.
Defined.

(** X7.  With an associativity of two or more, an address that was just
    loaded or stored is still cached after one further load, of any
    address: the block used last is never the victim of the next miss. *)
Theorem recent_block_survives_a_load c address c1 other :
  cache_ok c = true -> 2 <= associativity c ->
  0 <= address -> 0 <= other ->
  accessed c address c1 ->
  exists c2 res,
    loadWord c1 other = Some (c2, res, row_of c other)
    /\ cached c2 address = true.
Proof.
  intros Hok Hassoc Ha Ho Hacc.
  destruct (accessed_spec c address c1 Hok Ha Hacc)
    as (Hok1 & (_ & Has & Hbs & Hn & _)
        & (row & row1 & k & Hat & Hat1 & Hlen1 & Hrecent) & _).
  pose proof (accessed_cached c address c1 Hok Ha Hacc) as Hc1.
  assert (Hrow : forall x, row_of c1 x = row_of c x)
    by (intros x; unfold row_of; now rewrite Hbs, Hn).
  assert (Htag : forall x, tag_of c1 x = tag_of c x)
    by (intros x; unfold tag_of; now rewrite Hbs, Hn).
  destruct (loadWord_defined c1 other Hok1 Ho) as (c2 & res & Hl & _).
  exists c2, res. rewrite <- Hrow. split; [exact Hl|].
  destruct (loadWord_inv _ _ _ _ _ Hl) as (rowo & bs & _ & Hato & Hload & ->).
  rewrite (cached_set_row c1 _ bs rowo address Hato).
  destruct (Z.eqb_spec (row_of c1 address) (row_of c1 other)) as [E|_];
    [|exact Hc1].
  rewrite <- E, Hrow, Hat1 in Hato. injection Hato as <-.
  destruct (cache_ok_elim c1 Hok1) as (_ & _ & _ & _ & Hshape).
  apply at_index_lookup in Hat1.
  eapply Forall_lookup_1 in Hshape; [|exact Hat1].
  destruct Hshape as [Hlen Hnn].
  rewrite Htag.
  eapply (load_row_keeps_recent (associativity c1)); eauto.
  rewrite Hlen, Has. lia.
Qed.

Lemma recent_block_survives_a_load_witness :
  cache_ok (cache_of 2 2 1) = true /\ 2 <= associativity (cache_of 2 2 1)
  /\ accessed (cache_of 2 2 1) 0
       (default (cache_of 2 2 1) (fst <$> loads (cache_of 2 2 1) [0]))
  /\ exists c2 res,
       loadWord (default (cache_of 2 2 1)
                   (fst <$> loads (cache_of 2 2 1) [0])) 1
       = Some (c2, res, 0)
       /\ cached c2 0 = true.
Proof.
  assert (Hok : cache_ok (cache_of 2 2 1) = true)
    by (vm_compute; reflexivity).
  assert (Has : 2 <= associativity (cache_of 2 2 1))
    by (vm_compute; discriminate).
  assert (Hacc : accessed (cache_of 2 2 1) 0
            (default (cache_of 2 2 1) (fst <$> loads (cache_of 2 2 1) [0])))
    by (left; exists 0, 0; vm_compute; reflexivity).
  split; [exact Hok|]. split; [exact Has|]. split; [exact Hacc|].
  destruct (recent_block_survives_a_load (cache_of 2 2 1) 0 _ 1 Hok Has
              ltac:(lia) ltac:(lia) Hacc) as (c2 & res & Hl & Hc).
  exists c2, res. split; [rewrite Hl; vm_compute; reflexivity|exact Hc].
Defined.

(** X8.  In a direct-mapped cache (associativity 1) a load of an address
    that selects the row of the previous access hits exactly when it has
    the tag of that access: any other block of the row has been
    displaced. *)
Theorem direct_mapped_conflict c address c1 other :
  cache_ok c = true -> associativity c = 1 ->
  0 <= address -> 0 <= other ->
  accessed c address c1 -> row_of c other = row_of c address ->
  exists c2,
    loadWord c1 other
    = Some (c2, if tag_of c other =? tag_of c address then 1 else 0,
            row_of c address).
Proof.
  intros Hok Hassoc Ha Ho Hacc Hsame.
  destruct (accessed_spec c address c1 Hok Ha Hacc)
    as (Hok1 & (_ & Has & Hbs & Hn & _)
        & (row & row1 & k & Hat & Hat1 & Hlen1 & Hrecent) & _).
  assert (Hrow : row_of c1 other = row_of c address)
    by (unfold row_of; rewrite Hbs, Hn; exact Hsame).
  assert (Htag : tag_of c1 other = tag_of c other)
    by (unfold tag_of; now rewrite Hbs, Hn).
  destruct (loadWord_cases c1 other Hok1 Ho)
    as (rowo & Hato & [Hleno _] & _ & Hc & Hcases).
  rewrite Hrow, Hat1 in Hato. injection Hato as <-.
  rewrite Has, Hassoc in Hleno.
  destruct Hrecent as (b & Hk & Hv & Ht & _).
  destruct (blocks row1) as [|b0 [|b1 bs]] eqn:Hrow1;
    try (simpl in Hleno; lia).
  destruct k as [|k]; simpl in Hk; [|discriminate].
  injection Hk as ->.
  assert (Hcached : cached c1 other
                    = (tag_of c other =? tag_of c address)).
  { rewrite Hc, Htag. unfold holds, matches. simpl.
    rewrite Hv, Ht, orb_false_r. simpl. apply Z.eqb_sym. }
  rewrite Hcached in Hcases. rewrite Hrow in Hcases.
  destruct (tag_of c other =? tag_of c address).
  - destruct Hcases as (bs' & _ & Hl). eauto.
  - destruct Hcases as (v & _ & _ & Hl). eauto.
Qed.

Lemma direct_mapped_conflict_witness :
  cache_ok (cache_of 4 1 1) = true /\ associativity (cache_of 4 1 1) = 1
  /\ accessed (cache_of 4 1 1) 5 direct_loaded
  /\ row_of (cache_of 4 1 1) 9 = row_of (cache_of 4 1 1) 5
  /\ exists c2, loadWord direct_loaded 9 = Some (c2, 0, 1).
Proof.
  assert (Hok : cache_ok (cache_of 4 1 1) = true)
    by (vm_compute; reflexivity).
  assert (Has : associativity (cache_of 4 1 1) = 1)
    by (vm_compute; reflexivity).
  assert (Hacc : accessed (cache_of 4 1 1) 5 direct_loaded)
    by (left; exists 0, 1; vm_compute; reflexivity).
  assert (Hrow : row_of (cache_of 4 1 1) 9 = row_of (cache_of 4 1 1) 5)
    by (vm_compute; reflexivity).
  split; [exact Hok|]. split; [exact Has|]. split; [exact Hacc|].
  split; [exact Hrow|].
  destruct (direct_mapped_conflict (cache_of 4 1 1) 5 direct_loaded 9
              Hok Has ltac:(lia) ltac:(lia) Hacc Hrow) as (c2 & Hl).
  exists c2. rewrite Hl. vm_compute. reflexivity.
Defined.

(** X9.  No access invalidates a block: a block that is valid stays valid,
    and it keeps its tag unless it is the one the access replaces by the
    block of its own address. *)
Theorem access_never_invalidates c address c' r row j b :
  cache_ok c = true -> 0 <= address -> accessed c address c' ->
  at_index (rows c) r = Some row -> blocks row !! j = Some b ->
  valid b = true ->
  exists row' b',
    at_index (rows c') r = Some row' /\ blocks row' !! j = Some b'
    /\ valid b' = true
    /\ (tag b' = tag b \/ b' = mkBlock true (tag_of c address) 0).
Proof.
  intros Hok Ha Hacc Hrow Hb Hv.
  destruct (accessed_row c address c' Hok Ha Hacc)
    as (row0 & bs' & Hat & -> & Hshape).
  rewrite (at_index_set_row c _ bs' r row0 Hat).
  destruct (Z.eqb_spec r (row_of c address)) as [->|_];
    [|exists row, b; auto].
  rewrite Hat in Hrow. injection Hrow as ->.
  exists (mkRow bs'). simpl.
  destruct Hshape as [Hkeys|(v & Hlt & ->)].
  - destruct (key_lookup _ _ j b Hkeys Hb) as (b' & Hb' & Hv' & Ht').
    exists b'. split; [reflexivity|]. split; [exact Hb'|].
    split; [congruence|now left].
  - destruct (decide (v = j)) as [->|Hne].
    + eexists. split; [reflexivity|].
      split; [apply list_lookup_insert_eq; now rewrite length_map|].
      split; [reflexivity|now right].
    + exists (age b). split; [reflexivity|].
      split; [|split; [exact Hv|now left]].
      rewrite list_lookup_insert_ne by exact Hne.
      now rewrite list_lookup_fmap, Hb.
Qed.

Lemma access_never_invalidates_witness :
  cache_ok two_way_loaded = true
  /\ (exists c', storeWord two_way_loaded 2 = Some (c', 0)
                 /\ accessed two_way_loaded 2 c'
                 /\ exists row' b',
                      at_index (rows c') 0 = Some row'
                      /\ blocks row' !! 1%nat = Some b'
                      /\ valid b' = true /\ tag b' = 1).
Proof.
  assert (Hok : cache_ok two_way_loaded = true) by (vm_compute; reflexivity).
  split; [exact Hok|].
  assert (Hst : exists c', storeWord two_way_loaded 2 = Some (c', 0))
    by (eexists; vm_compute; reflexivity).
  destruct Hst as [c' Hst]. exists c'. split; [exact Hst|].
  assert (Hacc : accessed two_way_loaded 2 c') by (right; eauto).
  split; [exact Hacc|].
  destruct (access_never_invalidates two_way_loaded 2 c' 0
              (mkRow [mkBlock true 0 1; mkBlock true 1 0]) 1
              (mkBlock true 1 0) Hok ltac:(lia) Hacc)
    as (row' & b' & Hat' & Hb' & Hv' & Ht');
    [vm_compute; reflexivity|reflexivity|reflexivity|].
  exists row', b'. split; [exact Hat'|]. split; [exact Hb'|].
  split; [exact Hv'|].
  destruct Ht' as [Ht'|Hnew]; [exact Ht'|].
  vm_compute in Hst. injection Hst as <-.
  vm_compute in Hat'. injection Hat' as <-.
  vm_compute in Hb'. injection Hb' as <-. discriminate Hnew.
Defined.

(** X10.  A cache as the constructor builds it holds no address, so the
    first load of any address misses, on row (address / blocksize) mod
    numRows. *)
Theorem fresh_cache_misses size assoc bsize c address :
  newCache size assoc bsize = Some c -> 0 < bsize -> 0 < numRows c ->
  0 <= address ->
  cached c address = false
  /\ exists c',
       loadWord c address
       = Some (c', 0, (address / bsize) mod numRows c).
Proof.
  intros Hnew Hb Hn Ha.
  pose proof (newCache_ok _ _ _ _ Hnew Hb Hn) as Hok.
  destruct (newCache_geometry _ _ _ _ Hnew) as (_ & _ & Hbs & _).
  assert (Hcold : cached c address = false).
  { unfold cached.
    destruct (at_index (rows c) (row_of c address)) as [row|] eqn:Hat;
      [|reflexivity].
    apply holds_invalid. apply at_index_lookup in Hat.
    pose proof (newCache_rows _ _ _ _ Hnew) as Hall.
    eapply Forall_lookup_1 in Hall; [exact Hall|exact Hat]. }
  split; [exact Hcold|].
  destruct (loadWord_cases c address Hok Ha) as (row & _ & _ & _ & _ & H).
  rewrite Hcold in H. destruct H as (v & _ & _ & Hl).
  eexists. rewrite Hl. do 2 f_equal. unfold row_of. rewrite Hbs.
  rewrite Z.quot_div_nonneg by lia.
  apply Z.rem_mod_nonneg; [apply Z.div_pos; lia|lia].
Qed.

Lemma fresh_cache_misses_witness :
  newCache 4 1 1 = Some (cache_of 4 1 1) /\ 0 < numRows (cache_of 4 1 1)
  /\ exists c', loadWord (cache_of 4 1 1) 5 = Some (c', 0, 1).
Proof.
  assert (Hnew : newCache 4 1 1 = Some (cache_of 4 1 1))
    by (vm_compute; reflexivity).
  assert (Hn : 0 < numRows (cache_of 4 1 1)) by (vm_compute; reflexivity).
  split; [exact Hnew|]. split; [exact Hn|].
  destruct (fresh_cache_misses 4 1 1 (cache_of 4 1 1) 5 Hnew ltac:(lia) Hn
              ltac:(lia)) as (_ & c' & Hl).
  exists c'. rewrite Hl. vm_compute. reflexivity.
Defined.

(** X11.  For [int]s, a size that is not negative and a positive
    associativity and block size whose product does not overflow, the
    constructor returns a cache; it is well-formed exactly when
    size >= associativity * blocksize, and otherwise it has no row and
    every load and store divides by zero. *)
Theorem newCache_well_formed size assoc bsize :
  0 <= size <= INT_MAX -> 0 < assoc -> 0 < bsize ->
  assoc * bsize <= INT_MAX ->
  exists c,
    newCache size assoc bsize = Some c
    /\ (cache_ok c = true <-> assoc * bsize <= size)
    /\ (size < assoc * bsize ->
        rows c = []
        /\ forall address,
             loadWord c address = None /\ storeWord c address = None).
Proof.
  intros Hs Ha Hb Hfit.
  assert (Hprod : 0 < assoc * bsize) by lia.
  destruct (newCache_exists size assoc bsize Hs Ha Hb Hfit) as [c Hnew]. exists c. split; [exact Hnew|].
  destruct (newCache_geometry _ _ _ _ Hnew) as (_ & _ & Hbs & Hn).
  rewrite Z.quot_div_nonneg in Hn by lia.
  split; [split|].
  - intros Hok. destruct (cache_ok_elim c Hok) as (_ & Hrows & _).
    rewrite Hn in Hrows.
    destruct (Z.le_gt_cases (assoc * bsize) size) as [|Hlt]; [assumption|].
    rewrite Z.div_small in Hrows by lia. lia.
  - intros Hle. apply (newCache_ok _ _ _ _ Hnew Hb). rewrite Hn.
    apply Z.div_str_pos. lia.
  - intros Hlt. rewrite Z.div_small in Hn by lia.
    split.
    + destruct (newCache_inv _ _ _ _ Hnew) as [Hlen _].
      rewrite Hn in Hlen. destruct (rows c); [reflexivity|].
      simpl in Hlen. lia.
    + intros address. unfold loadWord, storeWord, int_div.
      rewrite Hn, Hbs. destruct (bsize =? 0); split; reflexivity.
Qed.

Lemma newCache_well_formed_witness :
  0 <= 1 <= INT_MAX /\ 0 < 2 /\ 0 < 1 /\ 2 * 1 <= INT_MAX /\ 1 < 2 * 1
  /\ exists c, newCache 1 2 1 = Some c /\ cache_ok c = false
               /\ loadWord c 0 = None.
Proof.
  assert (Hs : 0 <= 1 <= INT_MAX) by (split; discriminate).
  assert (Hp : 2 * 1 <= INT_MAX) by discriminate.
  split; [exact Hs|]. split; [lia|]. split; [lia|]. split; [exact Hp|].
  split; [lia|].
  destruct (newCache_well_formed 1 2 1 Hs ltac:(lia) ltac:(lia) Hp)
    as (c & Hnew & Hok & Hzero).
  exists c. split; [exact Hnew|]. split.
  - destruct (cache_ok c); [|reflexivity].
    destruct Hok as [Hok _]. specialize (Hok eq_refl). lia.
  - apply Hzero. lia.
Defined.

End CacheProperties.

(** * A flood of misses fills and then cycles a row *)

Section Flood.

Implicit Types (bs : list CacheBlock) (ts : list Z).

Lemma residue_cover n k j :
  (j < n)%nat -> (j < k)%nat ->
  exists i, (i < k)%nat /\ (k - i <= n)%nat /\ (i mod n)%nat = j.
Proof.
  intros Hj Hk.
  exists (j + ((k - 1 - j) / n) * n)%nat.
  pose proof (Nat.div_mod_eq (k - 1 - j) n) as Hdm.
  pose proof (Nat.mod_upper_bound (k - 1 - j) n ltac:(lia)) as Hr.
  split; [nia|]. split; [nia|].
  rewrite Nat.Div0.mod_add. apply Nat.mod_small. exact Hj.
Qed.

Lemma residue_distinct n i k :
  (i < k)%nat -> (k - i < n)%nat -> (i mod n)%nat <> (k mod n)%nat.
Proof.
  intros Hik Hn E.
  pose proof (Nat.div_mod_eq i n) as Hi.
  pose proof (Nat.div_mod_eq k n) as Hk.
  rewrite E in Hi.
  assert (Hd : (k - i = n * (k / n) - n * (i / n))%nat) by lia.
  assert (Hq : (i / n < k / n)%nat) by nia.
  nia.
Qed.

(** Every block of a flooded row is one of the two kinds. *)
Lemma flood_blocks n ts bs j b :
  flood_inv n ts bs -> bs !! j = Some b ->
  ((length ts <= j)%nat /\ b = mkBlock false 0 (Z.of_nat (length ts)))
  \/ exists i t,
       ts !! i = Some t /\ (length ts - i <= n)%nat /\ (i mod n)%nat = j
       /\ b = mkBlock true t (Z.of_nat (length ts) - 1 - Z.of_nat i).
Proof.
  intros (Hlen & Hrecent & Hrest) Hb.
  pose proof (lookup_lt_Some _ _ _ Hb) as Hj. rewrite Hlen in Hj.
  destruct (le_lt_dec (length ts) j) as [Hge|Hlt].
  - left. split; [exact Hge|].
    rewrite Hrest in Hb by lia. now injection Hb as <-.
  - right. destruct (residue_cover n (length ts) j Hj Hlt)
      as (i & Hi & Hwin & Hmod).
    destruct (lookup_lt_is_Some_2 ts i Hi) as [t Ht].
    exists i, t. split; [exact Ht|]. split; [exact Hwin|].
    split; [exact Hmod|].
    rewrite <- Hmod, (Hrecent i t Ht Hwin) in Hb. now injection Hb as <-.
Qed.

Lemma flood_nonneg n ts bs : flood_inv n ts bs -> nonneg bs.
Proof.
  intros Hinv. apply Forall_lookup_2. intros j b Hb.
  destruct (flood_blocks n ts bs j b Hinv Hb)
    as [[_ ->]|(i & t & Ht & _ & _ & ->)]; simpl; [lia|].
  apply lookup_lt_Some in Ht. lia.
Qed.

(** A flooded row holds tags of the flood only. *)
Lemma flood_holds n ts bs t :
  flood_inv n ts bs -> holds t bs = true -> t ∈ ts.
Proof.
  intros Hinv Hh. apply holds_lookup in Hh as (j & b & Hb & Hv & Ht).
  destruct (flood_blocks n ts bs j b Hinv Hb)
    as [[_ ->]|(i & t0 & Ht0 & _ & _ & ->)]; [discriminate|].
  simpl in Ht. subst t0. eapply list_elem_of_lookup_2, Ht0.
Qed.

(** The next victim of a flooded row is block [length ts mod n]. *)
Lemma flood_victim n ts bs :
  (0 < n)%nat -> flood_inv n ts bs ->
  first_largest bs (length ts mod n)%nat.
Proof.
  intros Hn Hinv. pose proof Hinv as (Hlen & Hrecent & Hrest).
  destruct (le_lt_dec n (length ts)) as [Hfull|Hpart].
  - (* the row is full: the oldest of the last n tags *)
    destruct (lookup_lt_is_Some_2 ts (length ts - n)%nat ltac:(lia))
      as [t0 Ht0].
    assert (Hmod : ((length ts - n) mod n = length ts mod n)%nat).
    { replace (length ts) with ((length ts - n) + 1 * n)%nat at 2 by lia.
      now rewrite Nat.Div0.mod_add. }
    pose proof (Hrecent _ _ Ht0 ltac:(lia)) as Hv. rewrite Hmod in Hv.
    eexists. split; [exact Hv|]. simpl. split.
    + intros j b' Hb'.
      destruct (flood_blocks n ts bs j b' Hinv Hb')
        as [[Hge _]|(i & t & Ht & Hwin & _ & ->)].
      * apply lookup_lt_Some in Hb'. lia.
      * simpl. apply lookup_lt_Some in Ht. lia.
    + intros j b' Hj Hb'.
      destruct (flood_blocks n ts bs j b' Hinv Hb')
        as [[Hge _]|(i & t & Ht & Hwin & Himod & ->)].
      * apply lookup_lt_Some in Hb'. lia.
      * simpl. apply lookup_lt_Some in Ht.
        assert (i <> length ts - n)%nat by (intros ->; lia). lia.
  - (* the first invalid block *)
    rewrite Nat.mod_small by exact Hpart.
    eexists. split; [apply Hrest; lia|]. simpl. split.
    + intros j b' Hb'.
      destruct (flood_blocks n ts bs j b' Hinv Hb')
        as [[_ ->]|(i & t & Ht & _ & _ & ->)]; simpl; lia.
    + intros j b' Hj Hb'.
      destruct (flood_blocks n ts bs j b' Hinv Hb')
        as [[Hge _]|(i & t & Ht & _ & _ & ->)]; simpl; lia.
Qed.

Lemma first_largest_unique bs v v' :
  first_largest bs v -> first_largest bs v' -> v = v'.
Proof.
  intros (b & Hb & Hmax & Hfirst) (b' & Hb' & Hmax' & Hfirst').
  destruct (lt_eq_lt_dec v v') as [[Hlt| ->]|Hgt]; [|reflexivity|].
  - pose proof (Hfirst' _ _ Hlt Hb). pose proof (Hmax _ _ Hb'). lia.
  - pose proof (Hfirst _ _ Hgt Hb'). pose proof (Hmax' _ _ Hb). lia.
Qed.

Lemma flood_fresh n : flood_inv n [] (replicate n (newBlock 0)).
Proof.
  split; [apply length_replicate|]. split.
  - intros i t Hi. discriminate.
  - intros j Hj. simpl. apply lookup_replicate_2. lia.
Qed.

(** One more load of a tag the flood has not seen: a miss that keeps the
    shape. *)
Lemma flood_step assoc n ts bs t :
  Z.to_nat assoc = n -> (0 < n)%nat -> flood_inv n ts bs -> t ∉ ts ->
  exists bs',
    load_row assoc t bs = Some (bs', 0) /\ flood_inv n (ts ++ [t]) bs'.
Proof.
  intros Hassoc Hn Hinv Hnew.
  pose proof Hinv as (Hlen & Hrecent & Hrest).
  assert (Hne : bs <> []) by (destruct bs; [simpl in Hlen; lia|discriminate]).
  pose proof (flood_nonneg n ts bs Hinv) as Hnn.
  pose proof (load_row_cases assoc t bs ltac:(lia) Hne Hnn) as Hcases.
  destruct (holds t bs) eqn:Hh;
    [exfalso; apply Hnew; eapply flood_holds; eauto|].
  destruct Hcases as (v & Hlt & Hfirst & Hload).
  rewrite (first_largest_unique bs v _ Hfirst (flood_victim n ts bs Hn Hinv))
    in Hload.
  eexists. split; [exact Hload|].
  split; [now rewrite length_insert, length_map|].
  rewrite length_app. simpl.
  assert (Hvlt : (length ts mod n < n)%nat)
    by (apply Nat.mod_upper_bound; lia).
  split.
  - intros i t' Hi Hwin.
    destruct (decide (i = length ts)) as [->|Hold].
    + rewrite lookup_app_r, Nat.sub_diag in Hi by lia.
      injection Hi as <-.
      rewrite list_lookup_insert_eq by (rewrite length_map; lia).
      do 2 f_equal. lia.
    + assert (Hil : (i < length ts)%nat).
      { apply lookup_lt_Some in Hi. rewrite length_app in Hi.
        simpl in Hi. lia. }
      rewrite lookup_app_l in Hi by exact Hil.
      rewrite list_lookup_insert_ne
        by (apply not_eq_sym, residue_distinct; lia).
      rewrite list_lookup_fmap, (Hrecent i t' Hi) by lia. simpl.
      unfold age, set_lru. simpl. do 2 f_equal. lia.
  - intros j Hj.
    rewrite Nat.mod_small in * by lia.
    rewrite list_lookup_insert_ne by lia.
    rewrite list_lookup_fmap, Hrest by lia. simpl.
    unfold age, set_lru. simpl. do 2 f_equal. lia.
Qed.

Lemma newCache_rows_eq size assoc bsize c :
  newCache size assoc bsize = Some c -> 0 < numRows c ->
  rows c = replicate (Z.to_nat (numRows c))
             (mkRow (replicate (Z.to_nat assoc) (newBlock bsize))).
Proof.
  intros H Hn. apply newCache_Some in H as (_ & _ & _ & _ & ->).
  reflexivity.
Qed.

(** A run of loads of fresh tags that select the row [r]. *)
Lemma flood_loads rest : forall c ts bs r,
  cache_ok c = true ->
  at_index (rows c) r = Some (mkRow bs) ->
  flood_inv (Z.to_nat (associativity c)) ts bs ->
  Forall (fun a => 0 <= a /\ row_of c a = r) rest ->
  NoDup (ts ++ map (tag_of c) rest) ->
  exists c' bs',
    loads c rest = Some (c', replicate (length rest) 0)
    /\ blocksize c' = blocksize c /\ numRows c' = numRows c
    /\ associativity c' = associativity c
    /\ at_index (rows c') r = Some (mkRow bs')
    /\ flood_inv (Z.to_nat (associativity c))
                 (ts ++ map (tag_of c) rest) bs'.
Proof.
  induction rest as [|a rest IH]; intros c ts bs r Hok Hat Hinv Hall Hnd.
  - exists c, bs. simpl. rewrite app_nil_r.
    split; [reflexivity|]. do 3 (split; [reflexivity|]).
    split; [exact Hat|exact Hinv].
  - inversion Hall as [|? ? [Ha Hrow] Hrest]; subst.
    destruct (cache_ok_elim c Hok) as (Hb & Hn & Hassoc & _).
    simpl in Hnd.
    assert (Hnew : tag_of c a ∉ ts).
    { apply NoDup_app in Hnd as (_ & Hdis & _).
      intros Hin. apply (Hdis _ Hin). left. }
    destruct (flood_step (associativity c) _ ts bs (tag_of c a) eq_refl
                ltac:(lia) Hinv Hnew) as (bs1 & Hload & Hinv1).
    assert (Hok1 : cache_ok (set_row c (row_of c a) bs1) = true).
    { apply set_row_ok; [exact Hok|apply Hinv1|].
      eapply flood_nonneg, Hinv1. }
    assert (Hat1 : at_index (rows (set_row c (row_of c a) bs1)) (row_of c a)
                   = Some (mkRow bs1)).
    { rewrite (at_index_set_row c _ bs1 _ _ Hat), Z.eqb_refl. reflexivity. }
    destruct (IH (set_row c (row_of c a) bs1) (ts ++ [tag_of c a]) bs1
                (row_of c a) Hok1 Hat1 Hinv1 Hrest)
      as (c' & bs' & Hloads & Hbs' & Hn' & Has' & Hat' & Hinv').
    { rewrite <- app_assoc. exact Hnd. }
    exists c', bs'. simpl.
    rewrite loadWord_unfold by lia. rewrite Hat. simpl.
    rewrite Hload. simpl. rewrite Hloads. simpl.
    split; [reflexivity|]. split; [exact Hbs'|]. split; [exact Hn'|].
    split; [exact Has'|]. split; [exact Hat'|].
    rewrite <- app_assoc in Hinv'. exact Hinv'.
Qed.

(** X12.  A flood of misses is first in, first out.  Loads of addresses
    that all select one row of a fresh cache and have pairwise distinct
    tags all miss, and afterwards an address of the run is cached exactly
    when it is among the last [assoc] of them. *)
Theorem flood_is_fifo size assoc bsize c r addresses :
  newCache size assoc bsize = Some c -> 0 < bsize -> 0 < numRows c ->
  Forall (fun a => 0 <= a /\ row_of c a = r) addresses ->
  NoDup (map (tag_of c) addresses) ->
  exists c',
    loads c addresses = Some (c', replicate (length addresses) 0)
    /\ forall i a,
         addresses !! i = Some a ->
         (cached c' a = true
          <-> (length addresses - i <= Z.to_nat assoc)%nat).
Proof.
  intros Hnew Hb Hn Hall Hnd.
  destruct addresses as [|a0 rest].
  { exists c. split; [reflexivity|]. intros i a Hi. discriminate. }
  pose proof (newCache_ok _ _ _ _ Hnew Hb Hn) as Hok.
  destruct (newCache_geometry _ _ _ _ Hnew) as (_ & Has & Hbs & _).
  assert (Hr : 0 <= r < numRows c).
  { inversion Hall as [|? ? [Ha0 Hr0] _]; subst.
    apply row_of_range; lia. }
  remember (a0 :: rest) as addresses eqn:Eaddr. clear Eaddr a0 rest.
  assert (Hat : at_index (rows c) r
                = Some (mkRow (replicate (Z.to_nat (associativity c))
                                 (newBlock 0)))).
  { unfold at_index. destruct (Z.ltb_spec r 0); [lia|].
    rewrite (newCache_rows_eq _ _ _ _ Hnew Hn), Has.
    apply lookup_replicate_2. lia. }
  destruct (flood_loads addresses c [] _ r Hok Hat (flood_fresh _)
              Hall Hnd)
    as (c' & bs' & Hloads & Hbs' & Hn' & Has' & Hat' & Hinv).
  exists c'. split; [exact Hloads|].
  change ([] ++ map (tag_of c) addresses)
    with (map (tag_of c) addresses) in Hinv.
  rewrite Has in Hinv.
  intros i a Hi.
  assert (Hrow : row_of c' a = r).
  { unfold row_of. rewrite Hbs', Hn'.
    eapply Forall_lookup_1 in Hall; [|exact Hi]. apply Hall. }
  assert (Htag : tag_of c' a = tag_of c a)
    by (unfold tag_of; now rewrite Hbs', Hn').
  assert (Hti : map (tag_of c) addresses !! i = Some (tag_of c a))
    by (rewrite list_lookup_fmap, Hi; reflexivity).
  unfold cached. rewrite Hrow, Hat', Htag. simpl blocks.
  rewrite <- (length_map (tag_of c) addresses).
  split.
  - intros Hh. apply holds_lookup in Hh as (j & b & Hj & Hv & Ht).
    destruct (flood_blocks _ _ _ j b Hinv Hj)
      as [[_ ->]|(i' & t' & Hi' & Hwin & _ & ->)]; [discriminate|].
    simpl in Ht. subst t'.
    now rewrite (NoDup_lookup _ _ _ _ Hnd Hti Hi').
  - intros Hwin. destruct Hinv as (_ & Hrecent & _).
    apply holds_lookup.
    eexists _, _. split; [apply (Hrecent i _ Hti Hwin)|]. auto.
Qed.

Lemma flood_is_fifo_witness :
  newCache 2 2 1 = Some (cache_of 2 2 1) /\ 0 < numRows (cache_of 2 2 1)
  /\ Forall (fun a => 0 <= a /\ row_of (cache_of 2 2 1) a = 0) [0; 1; 2]
  /\ NoDup (map (tag_of (cache_of 2 2 1)) [0; 1; 2])
  /\ exists c',
       loads (cache_of 2 2 1) [0; 1; 2] = Some (c', [0; 0; 0])
       /\ cached c' 0 = false /\ cached c' 1 = true /\ cached c' 2 = true.
Proof.
  assert (Hnew : newCache 2 2 1 = Some (cache_of 2 2 1))
    by (vm_compute; reflexivity).
  assert (Hn : 0 < numRows (cache_of 2 2 1)) by (vm_compute; reflexivity).
  assert (Hall : Forall (fun a => 0 <= a /\ row_of (cache_of 2 2 1) a = 0)
                        [0; 1; 2])
    by (repeat constructor; vm_compute; discriminate).
  assert (Hnd : NoDup (map (tag_of (cache_of 2 2 1)) [0; 1; 2]))
    by (apply (bool_decide_unpack _); vm_compute; exact I).
  split; [exact Hnew|]. split; [exact Hn|]. split; [exact Hall|].
  split; [exact Hnd|].
  destruct (flood_is_fifo 2 2 1 (cache_of 2 2 1) 0 [0; 1; 2] Hnew
              ltac:(lia) Hn Hall Hnd) as (c' & Hloads & Hcached).
  exists c'. split; [exact Hloads|].
  split; [|split].
  - destruct (cached c' 0) eqn:E; [|reflexivity].
    apply (Hcached 0%nat 0 eq_refl) in E. simpl in E. lia.
  - apply (Hcached 1%nat 1 eq_refl). simpl. lia.
  - apply (Hcached 2%nat 2 eq_refl). simpl. lia.
Defined.

End Flood.

(** * Further properties of the machine *)

Section ControlFlow.

Implicit Types (m : Machine).

Lemma u16_round x : u16 (u16 (x - 1) + 1) = u16 x.
Proof.
  unfold u16. rewrite Z.add_mod_idemp_l by lia. f_equal. lia.
Qed.

Lemma step_jal m :
  opcode_of (fetch m) = opcodeJal ->
  step m
  = Some (mkMachine (imm13_of (fetch m))
            (wr (wr (regs m) 7 (u16 (pc m + 1))) 0 0)
            (memory m) (l1Cache m) (l2Cache m) (isHalt m) (out m)).
Proof.
  intros Hop. rewrite step_control by auto.
  unfold execute_control_instruction.
  change (Z.land (Z.shiftr (fetch m) 13) 7) with (opcode_of (fetch m)).
  rewrite Hop. reflexivity.
Qed.

Lemma step_jump m :
  opcode_of (fetch m) = opcodeJ -> imm13_of (fetch m) <> pc m ->
  step m
  = Some (mkMachine (imm13_of (fetch m)) (wr (regs m) 0 0)
            (memory m) (l1Cache m) (l2Cache m) (isHalt m) (out m)).
Proof.
  intros Hop Himm. rewrite step_control by auto.
  unfold execute_control_instruction.
  change (Z.land (Z.shiftr (fetch m) 13) 7) with (opcode_of (fetch m)).
  change (Z.land (fetch m) 8191) with (imm13_of (fetch m)).
  rewrite Hop. apply Z.eqb_neq in Himm. simpl. now rewrite Himm.
Qed.

Lemma step_jr m :
  opcode_of (fetch m) = opcodeFirst ->
  Z.land (fetch m) 15 = functionCodeJr ->
  step m
  = Some (mkMachine (u16 (rd (regs m) (regA_of (fetch m))))
            (wr (regs m) 0 0)
            (memory m) (l1Cache m) (l2Cache m) (isHalt m) (out m)).
Proof.
  intros Hop Hf. rewrite step_alu by exact Hop.
  unfold execute_instruction. rewrite Hf. simpl.
  now rewrite u16_round.
Qed.

(** X13.  Jump-and-link stores pc + 1 (modulo 2^16) in register 7 and
    continues at its 13-bit immediate; the other registers, memory, the
    caches and the log are left as they were. *)
Theorem jal_links m :
  machine_ok m = true -> opcode_of (fetch m) = opcodeJal ->
  exists m',
    step m = Some m'
    /\ pc m' = imm13_of (fetch m)
    /\ rd (regs m') 7 = (pc m + 1) mod 65536
    /\ rd (regs m') 0 = 0
    /\ (forall i, 0 < i < 7 -> rd (regs m') i = rd (regs m) i)
    /\ memory m' = memory m /\ l1Cache m' = l1Cache m
    /\ l2Cache m' = l2Cache m /\ isHalt m' = isHalt m /\ out m' = out m.
Proof.
  intros Hok Hop.
  destruct (machine_ok_elim m Hok) as (Hregs & _).
  rewrite step_jal by exact Hop.
  eexists. split; [reflexivity|]. simpl.
  split; [reflexivity|]. split.
  - rewrite rd_wr_other by lia. apply rd_wr_same. lia.
  - split; [apply rd_0_wr_0; rewrite length_wr; lia|].
    split; [|repeat split].
    intros i Hi. now rewrite !rd_wr_other by lia.
Qed.

Lemma jal_links_witness :
  machine_ok sample_call = true
  /\ opcode_of (fetch sample_call) = opcodeJal
  /\ exists m', step sample_call = Some m' /\ pc m' = 2
                /\ rd (regs m') 7 = 1.
Proof.
  assert (Hok : machine_ok sample_call = true) by (vm_compute; reflexivity).
  assert (Hop : opcode_of (fetch sample_call) = opcodeJal)
    by (vm_compute; reflexivity).
  split; [exact Hok|]. split; [exact Hop|].
  destruct (jal_links sample_call Hok Hop) as (m' & Hstep & Hpc & H7 & _).
  exists m'. split; [exact Hstep|].
  split; [rewrite Hpc|rewrite H7]; vm_compute; reflexivity.
Defined.

(** X14.  Jump-register continues at the value of its register, modulo
    2^16: the [- 1] of the handler and the [+ 1] every register-register
    instruction ends with cancel, also for the value 0, where the pc
    passes through 65535.  Nothing but the pc and register 0 changes. *)
Theorem jr_jumps m :
  machine_ok m = true -> opcode_of (fetch m) = opcodeFirst ->
  Z.land (fetch m) 15 = functionCodeJr ->
  exists m',
    step m = Some m'
    /\ pc m' = rd (regs m) (regA_of (fetch m)) mod 65536
    /\ regs m' = wr (regs m) 0 0
    /\ memory m' = memory m /\ l1Cache m' = l1Cache m
    /\ l2Cache m' = l2Cache m /\ isHalt m' = isHalt m /\ out m' = out m.
Proof.
  intros Hok Hop Hf. rewrite step_jr by assumption.
  eexists. split; [reflexivity|]. simpl. repeat split.
Qed.

Lemma jr_jumps_witness :
  machine_ok sample_jr0 = true
  /\ opcode_of (fetch sample_jr0) = opcodeFirst
  /\ Z.land (fetch sample_jr0) 15 = functionCodeJr
  /\ rd (regs sample_jr0) (regA_of (fetch sample_jr0)) = 0
  /\ exists m', step sample_jr0 = Some m' /\ pc m' = 0.
Proof.
  assert (Hok : machine_ok sample_jr0 = true) by (vm_compute; reflexivity).
  assert (Hop : opcode_of (fetch sample_jr0) = opcodeFirst)
    by (vm_compute; reflexivity).
  assert (Hf : Z.land (fetch sample_jr0) 15 = functionCodeJr)
    by (vm_compute; reflexivity).
  split; [exact Hok|]. split; [exact Hop|]. split; [exact Hf|].
  split; [vm_compute; reflexivity|].
  destruct (jr_jumps sample_jr0 Hok Hop Hf) as (m' & Hstep & Hpc & _).
  exists m'. split; [exact Hstep|]. rewrite Hpc. vm_compute. reflexivity.
Defined.

(** X15.  Call and return: when the instruction reached by a
    jump-and-link is a jump-register on register 7, the machine continues
    at the instruction after the call. *)
Theorem call_and_return m m1 :
  machine_ok m = true -> opcode_of (fetch m) = opcodeJal ->
  step m = Some m1 ->
  opcode_of (fetch m1) = opcodeFirst ->
  Z.land (fetch m1) 15 = functionCodeJr -> regA_of (fetch m1) = 7 ->
  exists m2,
    step m1 = Some m2 /\ pc m2 = (pc m + 1) mod 65536
    /\ memory m2 = memory m /\ out m2 = out m.
Proof.
  intros Hok Hop Hstep Hop1 Hf1 Hreg.
  destruct (machine_ok_elim m Hok) as (Hregs & _).
  rewrite step_jal in Hstep by exact Hop. injection Hstep as <-.
  rewrite step_jr by assumption. rewrite Hreg.
  eexists. split; [reflexivity|]. simpl. split; [|split; reflexivity].
  rewrite rd_wr_other by lia. rewrite rd_wr_same by lia.
  unfold u16. apply Z.mod_mod. lia.
Qed.

Lemma call_and_return_witness :
  machine_ok sample_call = true
  /\ opcode_of (fetch sample_call) = opcodeJal
  /\ exists m1 m2,
       step sample_call = Some m1 /\ pc m1 = 2
       /\ step m1 = Some m2 /\ pc m2 = 1.
Proof.
  assert (Hok : machine_ok sample_call = true) by (vm_compute; reflexivity).
  assert (Hop : opcode_of (fetch sample_call) = opcodeJal)
    by (vm_compute; reflexivity).
  split; [exact Hok|]. split; [exact Hop|].
  assert (H1 : exists m1, step sample_call = Some m1 /\ pc m1 = 2
                          /\ opcode_of (fetch m1) = opcodeFirst
                          /\ Z.land (fetch m1) 15 = functionCodeJr
                          /\ regA_of (fetch m1) = 7)
    by (eexists; split; [vm_compute; reflexivity|];
        repeat split; vm_compute; reflexivity).
  destruct H1 as (m1 & Hstep & Hpc1 & Hop1 & Hf1 & Hr1).
  destruct (call_and_return sample_call m1 Hok Hop Hstep Hop1 Hf1 Hr1)
    as (m2 & Hstep2 & Hpc2 & _).
  exists m1, m2. split; [exact Hstep|]. split; [exact Hpc1|].
  split; [exact Hstep2|]. rewrite Hpc2. vm_compute. reflexivity.
Defined.

(** X16.  A register-register word whose function code is none of add,
    sub, or, and, slt, jr is a no-op: the pc advances by 1 and nothing
    else changes (register 0 is set to 0, as always). *)
Theorem unknown_function_is_noop m :
  machine_ok m = true -> opcode_of (fetch m) = opcodeFirst ->
  Z.land (fetch m) 15 <> functionCodeAdd ->
  Z.land (fetch m) 15 <> functionCodeSub ->
  Z.land (fetch m) 15 <> functionCodeOr ->
  Z.land (fetch m) 15 <> functionCodeAnd ->
  Z.land (fetch m) 15 <> functionCodeSlt ->
  Z.land (fetch m) 15 <> functionCodeJr ->
  exists m',
    step m = Some m'
    /\ pc m' = (pc m + 1) mod 65536
    /\ regs m' = wr (regs m) 0 0
    /\ (forall i, 0 < i -> rd (regs m') i = rd (regs m) i)
    /\ memory m' = memory m /\ l1Cache m' = l1Cache m
    /\ l2Cache m' = l2Cache m /\ isHalt m' = isHalt m /\ out m' = out m.
Proof.
  intros Hok Hop H0 H1 H2 H3 H4 H8.
  rewrite step_alu by exact Hop. unfold execute_instruction.
  apply Z.eqb_neq in H0, H1, H2, H3, H4, H8.
  rewrite H0, H1, H2, H3, H4, H8.
  eexists. split; [reflexivity|]. simpl.
  split; [reflexivity|]. split; [reflexivity|].
  split; [|repeat split].
  intros i Hi. apply rd_wr_other; lia.
Qed.

Lemma unknown_function_is_noop_witness :
  machine_ok sample_unknown = true
  /\ opcode_of (fetch sample_unknown) = opcodeFirst
  /\ Z.land (fetch sample_unknown) 15 = 5
  /\ exists m', step sample_unknown = Some m' /\ pc m' = 1
                /\ regs m' = regs sample_unknown.
Proof.
  assert (Hok : machine_ok sample_unknown = true)
    by (vm_compute; reflexivity).
  assert (Hop : opcode_of (fetch sample_unknown) = opcodeFirst)
    by (vm_compute; reflexivity).
  split; [exact Hok|]. split; [exact Hop|].
  split; [vm_compute; reflexivity|].
  assert (Hf : forall code, code <> 5 ->
                 Z.land (fetch sample_unknown) 15 <> code)
    by (intros code Hc E; apply Hc; rewrite <- E; vm_compute; reflexivity).
  destruct (unknown_function_is_noop sample_unknown Hok Hop
              (Hf 0 ltac:(discriminate)) (Hf 1 ltac:(discriminate))
              (Hf 2 ltac:(discriminate)) (Hf 3 ltac:(discriminate))
              (Hf 4 ltac:(discriminate)) (Hf 8 ltac:(discriminate)))
    as (m' & Hstep & Hpc & Hregs & _).
  exists m'. split; [exact Hstep|].
  split; [rewrite Hpc|rewrite Hregs]; vm_compute; reflexivity.
Defined.

(** X17.  Branch-if-equal continues at pc + 1 + the sign-extended
    immediate when its two registers are equal and at pc + 1 otherwise,
    both modulo 2^16, and changes nothing else. *)
Theorem jeq_branches m :
  machine_ok m = true -> opcode_of (fetch m) = opcodeJeq ->
  let instr := fetch m in
  exists m',
    step m = Some m'
    /\ pc m' = (if rd (regs m) (regA_of instr) =? rd (regs m) (regB_of instr)
                then (pc m + 1 + signed7 (instr mod 128)) mod 65536
                else (pc m + 1) mod 65536)
    /\ regs m' = wr (regs m) 0 0
    /\ memory m' = memory m /\ l1Cache m' = l1Cache m
    /\ l2Cache m' = l2Cache m /\ isHalt m' = isHalt m /\ out m' = out m.
Proof.
  intros Hok Hop instr.
  rewrite step_imm by auto. rewrite exec_jeq by exact Hop.
  eexists. split; [reflexivity|]. simpl. fold instr.
  split; [|repeat split].
  destruct (rd (regs m) (regA_of instr) =? rd (regs m) (regB_of instr));
    [|reflexivity].
  rewrite imm7_spec. apply u16_widen.
Qed.

Lemma jeq_branches_witness :
  machine_ok sample_jeq = true
  /\ opcode_of (fetch sample_jeq) = opcodeJeq
  /\ exists m', step sample_jeq = Some m' /\ pc m' = 65535.
Proof.
  assert (Hok : machine_ok sample_jeq = true) by (vm_compute; reflexivity).
  assert (Hop : opcode_of (fetch sample_jeq) = opcodeJeq)
    by (vm_compute; reflexivity).
  split; [exact Hok|]. split; [exact Hop|].
  destruct (jeq_branches sample_jeq Hok Hop) as (m' & Hstep & Hpc & _).
  exists m'. split; [exact Hstep|]. rewrite Hpc. vm_compute. reflexivity.
Defined.

(** X18.  A jump whose immediate differs from the pc continues at the
    immediate and changes nothing else.  The halt test compares with the
    whole 16-bit pc: a jump to its own address that is fetched with a pc
    of 8192 or more (the fetch masks the pc, the test does not) is taken
    as an ordinary jump, and the machine halts one step later. *)
Theorem jump_and_aliased_self_jump m :
  opcode_of (fetch m) = opcodeJ -> imm13_of (fetch m) <> pc m ->
  exists m',
    step m = Some m'
    /\ pc m' = imm13_of (fetch m) /\ regs m' = wr (regs m) 0 0
    /\ memory m' = memory m /\ l1Cache m' = l1Cache m
    /\ l2Cache m' = l2Cache m /\ isHalt m' = isHalt m /\ out m' = out m
    /\ (imm13_of (fetch m) = pc m mod 8192 -> step m' = Some (halt m')).
Proof.
  intros Hop Himm. rewrite step_jump by assumption.
  eexists. split; [reflexivity|]. simpl. repeat split.
  intros Halias.
  assert (Hfetch : fetch (mkMachine (imm13_of (fetch m)) (wr (regs m) 0 0)
                            (memory m) (l1Cache m) (l2Cache m) (isHalt m)
                            (out m)) = fetch m).
  { unfold fetch at 1. simpl. unfold fetch at 2.
    rewrite Halias, !land_8191. now rewrite Z.mod_mod by lia. }
  apply step_halt; rewrite Hfetch; [exact Hop|reflexivity].
Qed.

Lemma jump_and_aliased_self_jump_witness :
  opcode_of (fetch sample_alias) = opcodeJ
  /\ imm13_of (fetch sample_alias) = 0 /\ pc sample_alias = 8192
  /\ exists m',
       step sample_alias = Some m' /\ isHalt m' = false /\ pc m' = 0
       /\ step m' = Some (halt m').
Proof.
  assert (Hop : opcode_of (fetch sample_alias) = opcodeJ)
    by (vm_compute; reflexivity).
  assert (Himm : imm13_of (fetch sample_alias) <> pc sample_alias)
    by (vm_compute; discriminate).
  split; [exact Hop|]. split; [vm_compute; reflexivity|].
  split; [reflexivity|].
  destruct (jump_and_aliased_self_jump sample_alias Hop Himm)
    as (m' & Hstep & Hpc & _ & _ & _ & _ & Hh & _ & Hnext).
  exists m'. split; [exact Hstep|]. split; [exact Hh|].
  split; [rewrite Hpc; vm_compute; reflexivity|].
  apply Hnext. vm_compute. reflexivity.
Defined.

End ControlFlow.

Section Frames.

Implicit Types (m : Machine).

Lemma load_entry_status name res pc addr row :
  log_status (load_entry name res pc addr row) = "HIT"
  \/ log_status (load_entry name res pc addr row) = "MISS".
Proof. unfold load_entry. simpl. destruct (res =? 0); auto. Qed.

(** The machine after a load, with the lines it printed. *)
Lemma step_lw_shape m m' :
  machine_ok m = true -> opcode_of (fetch m) = opcodeLw ->
  step m = Some m' ->
  let a := address_of (fetch m) (regs m) in
  isHalt m' = isHalt m /\ memory m' = memory m
  /\ pc m' = u16 (pc m + 1)
  /\ exists res1 tail,
       out m' = out m
                ++ load_entry "L1" res1 (pc m) a (row_of (l1Cache m) a)
                   :: tail
       /\ (tail = []
           \/ exists c2 res2,
                l2Cache m = Some c2
                /\ tail = [load_entry "L2" res2 (pc m) a (row_of c2 a)]).
Proof.
  intros Hok Hop Hstep a.
  destruct (machine_ok_elim m Hok) as (_ & _ & Hl1 & Hl2).
  pose proof (address_of_range (fetch m) (regs m)) as Ha. fold a in Ha.
  destruct (loadWord_defined (l1Cache m) a Hl1 (proj1 Ha))
    as (l1' & res1 & Hld1 & _).
  rewrite step_imm, exec_lw in Hstep by auto.
  cbv zeta in Hstep. fold a in Hstep. rewrite Hld1 in Hstep.
  simpl in Hstep.
  destruct (l2Cache m) as [c2|].
  - destruct (negb (negb (res1 =? 0))).
    + destruct (loadWord_defined c2 a Hl2 (proj1 Ha))
        as (c2' & res2 & Hld2 & _).
      rewrite Hld2 in Hstep. simpl in Hstep. injection Hstep as <-.
      simpl. repeat split.
      exists res1, [load_entry "L2" res2 (pc m) a (row_of c2 a)].
      split; [now rewrite <- app_assoc|]. right. eauto.
    + simpl in Hstep. injection Hstep as <-. simpl. repeat split.
      exists res1, []. auto.
  - simpl in Hstep. injection Hstep as <-. simpl. repeat split.
    exists res1, []. auto.
Qed.

(** What a step leaves alone. *)
Lemma step_frame m m' :
  machine_ok m = true -> step m = Some m' ->
  (opcode_of (fetch m) <> opcodeSw -> memory m' = memory m)
  /\ (opcode_of (fetch m) <> opcodeLw -> opcode_of (fetch m) <> opcodeSw ->
      l1Cache m' = l1Cache m /\ l2Cache m' = l2Cache m /\ out m' = out m)
  /\ (~ (opcode_of (fetch m) = opcodeJ /\ imm13_of (fetch m) = pc m) ->
      isHalt m' = isHalt m).
Proof.
  intros Hok Hstep.
  destruct (opcode_cases (fetch m))
    as [Hop|[Hop|[Hop|[Hop|[Hop|[Hop|[Hop|Hop]]]]]]].
  - rewrite step_alu in Hstep by exact Hop. injection Hstep as <-.
    destruct (execute_instruction_frame (fetch m) m)
      as (_ & _ & Hm & H1 & H2 & Hh & Ho). auto.
  - rewrite step_imm, exec_addi in Hstep by auto.
    injection Hstep as <-. simpl. auto.
  - destruct (Z.eq_dec (imm13_of (fetch m)) (pc m)) as [Himm|Himm].
    + rewrite step_halt in Hstep by assumption. injection Hstep as <-.
      simpl. repeat split; auto. intros Hn. destruct Hn. auto.
    + rewrite step_jump in Hstep by assumption. injection Hstep as <-.
      simpl. auto.
  - rewrite step_jal in Hstep by exact Hop. injection Hstep as <-.
    simpl. auto.
  - destruct (step_lw_shape m m' Hok Hop Hstep) as (Hh & Hm & _).
    repeat split; auto; intros; congruence.
  - destruct (step_sw m Hok Hop) as (l1' & l2' & log2 & _ & _ & _ & Hstep').
    rewrite Hstep in Hstep'. injection Hstep' as ->. simpl.
    repeat split; auto; intros; congruence.
  - rewrite step_imm, exec_jeq in Hstep by auto.
    injection Hstep as <-. simpl. auto.
  - rewrite step_imm, exec_slti in Hstep by auto.
    injection Hstep as <-. simpl. auto.
Qed.

(** X19.  Memory is written by store-word only, and a store-word changes
    the one cell at its effective address: every other instruction leaves
    memory as it was. *)
Theorem memory_written_by_sw_only m m' :
  machine_ok m = true -> step m = Some m' ->
  (opcode_of (fetch m) <> opcodeSw -> memory m' = memory m)
  /\ (opcode_of (fetch m) = opcodeSw ->
      forall x, 0 <= x -> x <> address_of (fetch m) (regs m) ->
                rd (memory m') x = rd (memory m) x)
  /\ length (memory m') = length (memory m).
Proof.
  intros Hok Hstep.
  destruct (step_frame m m' Hok Hstep) as (Hmem & _).
  split; [exact Hmem|].
  destruct (Z.eq_dec (opcode_of (fetch m)) opcodeSw) as [Hop|Hop].
  - destruct (step_sw m Hok Hop) as (l1' & l2' & log2 & _ & _ & _ & Hstep').
    rewrite Hstep in Hstep'. injection Hstep' as ->. simpl.
    pose proof (address_of_range (fetch m) (regs m)).
    split; [|apply length_wr].
    intros _ x Hx Hne. apply rd_wr_other; lia.
  - split; [intros; contradiction|]. now rewrite Hmem.
Qed.

Lemma memory_written_by_sw_only_witness :
  machine_ok sample_sw = true
  /\ opcode_of (fetch sample_sw) = opcodeSw
  /\ address_of (fetch sample_sw) (regs sample_sw) = 10
  /\ exists m', step sample_sw = Some m'
                /\ rd (memory m') 11 = rd (memory sample_sw) 11.
Proof.
  assert (Hok : machine_ok sample_sw = true) by (vm_compute; reflexivity).
  assert (Hop : opcode_of (fetch sample_sw) = opcodeSw)
    by (vm_compute; reflexivity).
  assert (Hstep : exists m', step sample_sw = Some m').
  { destruct (step_defined sample_sw Hok) as (m' & Hstep & _). eauto. }
  destruct Hstep as [m' Hstep].
  split; [exact Hok|]. split; [exact Hop|].
  split; [vm_compute; reflexivity|].
  exists m'. split; [exact Hstep|].
  destruct (memory_written_by_sw_only sample_sw m' Hok Hstep)
    as (_ & Hsw & _).
  apply (Hsw Hop); [lia|vm_compute; discriminate].
Defined.

(** X20.  Only load-word and store-word touch the caches and the log:
    every other instruction leaves both caches and the log as they
    were. *)
Theorem caches_touched_by_lw_sw_only m m' :
  machine_ok m = true -> step m = Some m' ->
  opcode_of (fetch m) <> opcodeLw -> opcode_of (fetch m) <> opcodeSw ->
  l1Cache m' = l1Cache m /\ l2Cache m' = l2Cache m /\ out m' = out m.
Proof.
  intros Hok Hstep Hlw Hsw.
  destruct (step_frame m m' Hok Hstep) as (_ & Hcaches & _). auto.
Qed.

Lemma caches_touched_by_lw_sw_only_witness :
  machine_ok sample_addi = true
  /\ opcode_of (fetch sample_addi) = opcodeAddi
  /\ exists m', step sample_addi = Some m'
                /\ l1Cache m' = l1Cache sample_addi /\ out m' = [].
Proof.
  assert (Hok : machine_ok sample_addi = true) by (vm_compute; reflexivity).
  assert (Hstep : exists m', step sample_addi = Some m').
  { destruct (step_defined sample_addi Hok) as (m' & Hstep & _). eauto. }
  destruct Hstep as [m' Hstep].
  split; [exact Hok|]. split; [vm_compute; reflexivity|].
  exists m'. split; [exact Hstep|].
  assert (Hop : opcode_of (fetch sample_addi) = opcodeAddi)
    by (vm_compute; reflexivity).
  destruct (caches_touched_by_lw_sw_only sample_addi m' Hok Hstep)
    as (H1 & _ & Ho); [rewrite Hop; discriminate..|].
  split; [exact H1|exact Ho].
Defined.

(** X21.  The machine halts at a self-jump and nowhere else: a step that
    sets [isHalt] fetched a jump whose immediate is the pc, and changed
    nothing besides. *)
Theorem halts_only_at_self_jump m m' :
  machine_ok m = true -> step m = Some m' ->
  isHalt m = false -> isHalt m' = true ->
  opcode_of (fetch m) = opcodeJ /\ imm13_of (fetch m) = pc m
  /\ m' = halt m.
Proof.
  intros Hok Hstep Hrun Hhalt.
  destruct (step_frame m m' Hok Hstep) as (_ & _ & Hkeep).
  destruct (Z.eq_dec (opcode_of (fetch m)) opcodeJ) as [Hop|Hop];
    [destruct (Z.eq_dec (imm13_of (fetch m)) (pc m)) as [Himm|Himm]|].
  - split; [exact Hop|]. split; [exact Himm|].
    rewrite step_halt in Hstep by assumption. now injection Hstep.
  - rewrite Hkeep in Hhalt by (intros [_ H]; contradiction). congruence.
  - rewrite Hkeep in Hhalt by (intros [H _]; contradiction). congruence.
Qed.

Lemma halts_only_at_self_jump_witness :
  machine_ok sample_self_jump = true /\ isHalt sample_self_jump = false
  /\ exists m', step sample_self_jump = Some m' /\ isHalt m' = true
                /\ imm13_of (fetch sample_self_jump) = 1
                /\ pc sample_self_jump = 1.
Proof.
  assert (Hok : machine_ok sample_self_jump = true)
    by (vm_compute; reflexivity).
  assert (Hrun : isHalt sample_self_jump = false)
    by (vm_compute; reflexivity).
  assert (Hstep : step sample_self_jump = Some (halt sample_self_jump))
    by (vm_compute; reflexivity).
  split; [exact Hok|]. split; [exact Hrun|].
  exists (halt sample_self_jump). split; [exact Hstep|].
  split; [reflexivity|].
  destruct (halts_only_at_self_jump sample_self_jump _ Hok Hstep Hrun
              eq_refl) as (_ & Himm & _).
  split; [|vm_compute; reflexivity].
  rewrite Himm. vm_compute. reflexivity.
Defined.

End Frames.

Section Runs.

Implicit Types (m : Machine).

(** The lines a load prints, from what the caches hold. *)
Lemma step_lw_log m m' :
  machine_ok m = true -> opcode_of (fetch m) = opcodeLw ->
  step m = Some m' ->
  let a := address_of (fetch m) (regs m) in
  out m'
  = out m
    ++ load_entry "L1" (if cached (l1Cache m) a then 1 else 0) (pc m) a
                  (row_of (l1Cache m) a)
       :: match l2Cache m with
          | Some c2 =>
              if cached (l1Cache m) a then []
              else [load_entry "L2" (if cached c2 a then 1 else 0) (pc m) a
                               (row_of c2 a)]
          | None => []
          end.
Proof.
  intros Hok Hop Hstep a. subst a.
  destruct (machine_ok_elim m Hok) as (_ & _ & Hl1 & Hl2).
  pose proof (address_of_range (fetch m) (regs m)) as Ha.
  remember (address_of (fetch m) (regs m)) as a eqn:Ea.
  rewrite step_imm, exec_lw in Hstep by auto.
  cbv zeta in Hstep. rewrite <- Ea in Hstep.
  destruct (loadWord_result (l1Cache m) a Hl1 (proj1 Ha)) as (c1 & Hld1).
  rewrite Hld1 in Hstep. simpl in Hstep.
  destruct (l2Cache m) as [c2|].
  - destruct (cached (l1Cache m) a); simpl in Hstep.
    + injection Hstep as <-. reflexivity.
    + destruct (loadWord_result c2 a Hl2 (proj1 Ha)) as (c2' & Hld2).
      rewrite Hld2 in Hstep. simpl in Hstep.
      injection Hstep as <-. simpl. now rewrite <- app_assoc.
  - simpl in Hstep. injection Hstep as <-. reflexivity.
Qed.

(** X22.  A step appends to the log and never rewrites it.  An
    instruction other than a load or a store prints nothing.  A store
    prints one L1 SW line, followed by one L2 SW line when there is an
    L2.  A load prints one L1 line, HIT exactly when L1 holds the address,
    followed, when it misses and there is an L2, by one L2 line, HIT
    exactly when L2 holds the address.  Each line carries the pc of the
    instruction, its effective address (below 8192) and the row of the
    cache it names. *)
Theorem step_extends_log m m' :
  machine_ok m = true -> step m = Some m' ->
  let a := address_of (fetch m) (regs m) in
  exists new,
    out m' = out m ++ new
    /\ Forall (entry_ok m) new
    /\ (opcode_of (fetch m) <> opcodeLw ->
        opcode_of (fetch m) <> opcodeSw -> new = [])
    /\ (opcode_of (fetch m) = opcodeSw ->
        new = store_entry "L1" (pc m) a (row_of (l1Cache m) a)
              :: match l2Cache m with
                 | Some c2 => [store_entry "L2" (pc m) a (row_of c2 a)]
                 | None => []
                 end)
    /\ (opcode_of (fetch m) = opcodeLw ->
        new = load_entry "L1" (if cached (l1Cache m) a then 1 else 0)
                         (pc m) a (row_of (l1Cache m) a)
              :: match l2Cache m with
                 | Some c2 =>
                     if cached (l1Cache m) a then []
                     else [load_entry "L2" (if cached c2 a then 1 else 0)
                                      (pc m) a (row_of c2 a)]
                 | None => []
                 end).
Proof.
  intros Hok Hstep a. subst a.
  destruct (machine_ok_elim m Hok) as (_ & _ & Hl1 & Hl2).
  pose proof (address_of_range (fetch m) (regs m)) as Ha.
  destruct (cache_ok_elim _ Hl1) as (Hb1 & Hn1 & _).
  pose proof (row_of_range (l1Cache m) _ Hb1 Hn1 (proj1 Ha)) as Hr1.
  assert (Hr2 : forall c2, l2Cache m = Some c2 ->
            0 <= row_of c2 (address_of (fetch m) (regs m)) < numRows c2).
  { intros c2 E. rewrite E in Hl2.
    destruct (cache_ok_elim _ Hl2) as (Hb2 & Hn2 & _).
    apply row_of_range; lia. }
  assert (Hload1 : forall res,
    opcode_of (fetch m) = opcodeLw ->
    entry_ok m (load_entry "L1" res (pc m)
                  (address_of (fetch m) (regs m))
                  (row_of (l1Cache m) (address_of (fetch m) (regs m))))).
  { intros res Hlw.
    split; [reflexivity|]. split; [reflexivity|]. split; [exact Ha|].
    split; [left; auto|]. left. split; [exact Hlw|].
    apply load_entry_status. }
  assert (Hload2 : forall c2 res,
    opcode_of (fetch m) = opcodeLw -> l2Cache m = Some c2 ->
    entry_ok m (load_entry "L2" res (pc m)
                  (address_of (fetch m) (regs m))
                  (row_of c2 (address_of (fetch m) (regs m))))).
  { intros c2 res Hlw Hc2.
    split; [reflexivity|]. split; [reflexivity|]. split; [exact Ha|].
    split; [right; exists c2; pose proof (Hr2 c2 Hc2); simpl; auto|].
    left. split; [exact Hlw|]. apply load_entry_status. }
  destruct (Z.eq_dec (opcode_of (fetch m)) opcodeLw) as [Hlw|Hlw];
    [|destruct (Z.eq_dec (opcode_of (fetch m)) opcodeSw) as [Hsw|Hsw]].
  - pose proof (step_lw_log m m' Hok Hlw Hstep) as Hout. cbv zeta in Hout.
    eexists. split; [exact Hout|]. split.
    + constructor; [now apply Hload1|].
      destruct (l2Cache m) as [c2|] eqn:Hc2; [|constructor].
      destruct (cached (l1Cache m) _); [constructor|].
      constructor; [now apply Hload2|constructor].
    + split; [intros; contradiction|].
      split; [|reflexivity].
      intros Hsw. rewrite Hlw in Hsw. discriminate.
  - destruct (step_sw m Hok Hsw)
      as (l1' & l2' & log2 & _ & _ & Hlog2 & Hstep').
    rewrite Hstep in Hstep'. injection Hstep' as ->. simpl.
    assert (Hlog : log2 = match l2Cache m with
                          | Some c2 =>
                              [store_entry "L2" (pc m)
                                 (address_of (fetch m) (regs m))
                                 (row_of c2 (address_of (fetch m) (regs m)))]
                          | None => []
                          end).
    { destruct (l2Cache m) as [c2|].
      - now destruct Hlog2 as (c2' & _ & _ & _ & ->).
      - now destruct Hlog2 as [_ ->]. }
    subst log2.
    eexists. split; [reflexivity|]. split.
    + constructor.
      * split; [reflexivity|]. split; [reflexivity|]. split; [exact Ha|].
        split; [left; auto|]. right. auto.
      * destruct (l2Cache m) as [c2|] eqn:Hc2; [|constructor].
        constructor; [|constructor].
        split; [reflexivity|]. split; [reflexivity|]. split; [exact Ha|].
        split; [right; exists c2; pose proof (Hr2 c2 eq_refl); simpl; auto|].
        right. auto.
    + split; [intros; contradiction|].
      split; [reflexivity|].
      intros Hlw'. contradiction.
  - destruct (step_frame m m' Hok Hstep) as (_ & Hcaches & _).
    destruct (Hcaches Hlw Hsw) as (_ & _ & Hout).
    exists []. rewrite app_nil_r.
    split; [exact Hout|]. split; [constructor|].
    split; [reflexivity|]. split; intros; contradiction.
Qed.

Lemma step_extends_log_witness :
  machine_ok sample_lw2 = true
  /\ opcode_of (fetch sample_lw2) = opcodeLw
  /\ exists m' new,
       step sample_lw2 = Some m' /\ out m' = new
       /\ map log_cache new = ["L1"; "L2"]
       /\ map log_status new = ["MISS"; "MISS"]
       /\ map log_addr new = [10; 10] /\ map log_row new = [2; 1].
Proof.
  assert (Hok : machine_ok sample_lw2 = true) by (vm_compute; reflexivity).
  assert (Hop : opcode_of (fetch sample_lw2) = opcodeLw)
    by (vm_compute; reflexivity).
  split; [exact Hok|]. split; [exact Hop|].
  assert (Hstep : exists m', step sample_lw2 = Some m').
  { destruct (step_defined sample_lw2 Hok) as (m' & Hstep & _). eauto. }
  destruct Hstep as [m' Hstep].
  destruct (step_extends_log sample_lw2 m' Hok Hstep)
    as (new & Hout & _ & _ & _ & Hlw).
  exists m', new. split; [exact Hstep|].
  change (out sample_lw2) with (@nil LogEntry) in Hout. simpl in Hout.
  split; [exact Hout|]. rewrite (Hlw Hop).
  repeat split; vm_compute; reflexivity.
Defined.

(** ** The counters stay inside [int]

    [lru] is an [int] that the code only increments and resets to 0.  An
    access raises the counters of its row by two at most, so after [n]
    iterations of the loop no counter exceeds [2 * n]: the increments do
    not overflow in a run of fewer than 2^30 iterations. *)

Lemma lru_below_spec k c :
  lru_below k c = true
  <-> Forall (fun r => Forall (fun b => lru b <= k) (blocks r)) (rows c).
Proof.
  unfold lru_below. rewrite forallb_forall, Forall_forall.
  split; intros H r Hr.
  - apply list_elem_of_In in Hr. specialize (H r Hr).
    rewrite forallb_forall in H. apply Forall_forall. intros b Hb.
    apply list_elem_of_In in Hb. specialize (H b Hb). lia.
  - apply list_elem_of_In in Hr. specialize (H r Hr).
    rewrite Forall_forall in H. apply forallb_forall. intros b Hb.
    apply list_elem_of_In in Hb. specialize (H b Hb). lia.
Qed.

Lemma lru_below_mono k k' c :
  k <= k' -> lru_below k c = true -> lru_below k' c = true.
Proof.
  rewrite !lru_below_spec. intros Hle H.
  eapply Forall_impl; [exact H|]. intros r Hr. simpl in Hr.
  eapply Forall_impl; [exact Hr|]. intros b Hb. simpl in Hb. lia.
Qed.

Lemma lru_below_set_row k c r bs :
  lru_below k c = true -> Forall (fun b => lru b <= k) bs ->
  lru_below k (set_row c r bs) = true.
Proof.
  rewrite !lru_below_spec. intros H Hbs. simpl.
  now apply Forall_insert.
Qed.

Lemma lru_below_row k c r row :
  lru_below k c = true -> at_index (rows c) r = Some row ->
  Forall (fun b => lru b <= k) (blocks row).
Proof.
  rewrite lru_below_spec. intros H Hat.
  apply at_index_lookup in Hat.
  exact (Forall_lookup_1 _ _ _ _ H Hat).
Qed.

Lemma installed_below k v t bs :
  0 <= k -> Forall (fun b => lru b <= k) bs ->
  Forall (fun b => lru b <= k + 2)
         (<[v := mkBlock true t 0]> (map age bs)).
Proof.
  intros Hk H. apply Forall_insert; [|simpl; lia].
  apply le_age in H. eapply Forall_impl; [exact H|].
  intros b Hb. simpl in Hb. lia.
Qed.

Lemma loadWord_counters k c address c' res r :
  cache_ok c = true -> 0 <= address -> 0 <= k ->
  lru_below k c = true -> loadWord c address = Some (c', res, r) ->
  lru_below (k + 2) c' = true.
Proof.
  intros Hok Ha Hk Hlru Hload.
  destruct (loadWord_cases c address Hok Ha)
    as (row & Hat & _ & _ & _ & Hcases).
  pose proof (lru_below_row k c _ row Hlru Hat) as Hrow.
  pose proof (lru_below_mono k (k + 2) c ltac:(lia) Hlru) as Hlru2.
  destruct (cached c address).
  - destruct Hcases as (bs' & Hscan & Hl). rewrite Hl in Hload.
    injection Hload as <- _ _. apply lru_below_set_row; [exact Hlru2|].
    exact (hit_scan_le (tag_of c address) k (blocks row) bs'
             ltac:(lia) Hrow Hscan).
  - destruct Hcases as (v & _ & _ & Hl). rewrite Hl in Hload.
    injection Hload as <- _ _. apply lru_below_set_row; [exact Hlru2|].
    now apply installed_below.
Qed.

Lemma storeWord_counters k c address c' r :
  cache_ok c = true -> 0 <= address -> 0 <= k ->
  lru_below k c = true -> storeWord c address = Some (c', r) ->
  lru_below (k + 2) c' = true.
Proof.
  intros Hok Ha Hk Hlru Hstore.
  destruct (storeWord_cases c address Hok Ha)
    as (row & v & Hat & _ & _ & Hs).
  pose proof (lru_below_row k c _ row Hlru Hat) as Hrow.
  pose proof (lru_below_mono k (k + 2) c ltac:(lia) Hlru) as Hlru2.
  rewrite Hs in Hstore. injection Hstore as <- _.
  apply lru_below_set_row; [exact Hlru2|]. now apply installed_below.
Qed.

Lemma counters_below_intro k m :
  lru_below k (l1Cache m) = true ->
  match l2Cache m with
  | Some c => lru_below k c = true
  | None => True
  end ->
  counters_below k m = true.
Proof.
  intros H1 H2. unfold counters_below. rewrite H1. simpl.
  destruct (l2Cache m); auto.
Qed.

Lemma counters_below_elim k m :
  counters_below k m = true ->
  lru_below k (l1Cache m) = true
  /\ match l2Cache m with
     | Some c => lru_below k c = true
     | None => True
     end.
Proof.
  unfold counters_below. rewrite andb_true_iff. intros [H1 H2].
  split; [exact H1|]. destruct (l2Cache m); auto.
Qed.

Lemma counters_below_mono k k' m :
  k <= k' -> counters_below k m = true -> counters_below k' m = true.
Proof.
  intros Hle H. apply counters_below_elim in H as [H1 H2].
  apply counters_below_intro; [now apply (lru_below_mono k)|].
  destruct (l2Cache m); [now apply (lru_below_mono k)|exact I].
Qed.

(** One iteration raises the bound by two at most. *)
Lemma step_counters k m m' :
  machine_ok m = true -> 0 <= k -> counters_below k m = true ->
  step m = Some m' -> counters_below (k + 2) m' = true.
Proof.
  intros Hok Hk Hc Hstep.
  destruct (machine_ok_elim m Hok) as (_ & _ & Hl1 & Hl2).
  destruct (counters_below_elim k m Hc) as [Hc1 Hc2].
  pose proof (address_of_range (fetch m) (regs m)) as Ha.
  destruct (Z.eq_dec (opcode_of (fetch m)) opcodeLw) as [Hlw|Hlw];
    [|destruct (Z.eq_dec (opcode_of (fetch m)) opcodeSw) as [Hsw|Hsw]].
  - rewrite step_imm, exec_lw in Hstep by auto. cbv zeta in Hstep.
    destruct (loadWord (l1Cache m) _) as [[[l1 res1] l1Row]|] eqn:Hld1;
      [|discriminate].
    simpl in Hstep.
    pose proof (loadWord_counters k _ _ _ _ _ Hl1 (proj1 Ha) Hk Hc1 Hld1)
      as Hb1.
    destruct (l2Cache m) as [c2|].
    + destruct (negb (negb (res1 =? 0))).
      * destruct (loadWord c2 _) as [[[c2' res2] l2Row]|] eqn:Hld2;
          [|discriminate].
        simpl in Hstep. injection Hstep as <-.
        apply counters_below_intro; simpl; [exact Hb1|].
        exact (loadWord_counters k _ _ _ _ _ Hl2 (proj1 Ha) Hk Hc2 Hld2).
      * simpl in Hstep. injection Hstep as <-.
        apply counters_below_intro; simpl; [exact Hb1|].
        apply (lru_below_mono k); [lia|exact Hc2].
    + simpl in Hstep. injection Hstep as <-.
      apply counters_below_intro; simpl; [exact Hb1|exact I].
  - destruct (step_sw m Hok Hsw)
      as (l1' & l2' & log2 & Hs1 & _ & Hs2 & Hstep').
    cbv zeta in Hs1, Hs2, Hstep'.
    rewrite Hstep in Hstep'. injection Hstep' as ->.
    apply counters_below_intro; simpl.
    + exact (storeWord_counters k _ _ _ _ Hl1 (proj1 Ha) Hk Hc1 Hs1).
    + destruct (l2Cache m) as [c2|].
      * destruct Hs2 as (c2' & Hst2 & _ & -> & _).
        exact (storeWord_counters k _ _ _ _ Hl2 (proj1 Ha) Hk Hc2 Hst2).
      * destruct Hs2 as [-> _]. exact I.
  - destruct (step_frame m m' Hok Hstep) as (_ & Hcaches & _).
    destruct (Hcaches Hlw Hsw) as (E1 & E2 & _).
    apply (counters_below_mono k); [lia|].
    unfold counters_below. now rewrite E1, E2.
Qed.

Lemma run_counters fuel : forall k m m',
  machine_ok m = true -> 0 <= k -> counters_below k m = true ->
  run fuel m = Some m' ->
  counters_below (k + 2 * Z.of_nat fuel) m' = true.
Proof.
  induction fuel as [|fuel IH]; intros k m m' Hok Hk Hc Hrun.
  - simpl in Hrun. injection Hrun as <-.
    now replace (k + 2 * Z.of_nat 0) with k by lia.
  - cbn [run] in Hrun.
    destruct (isHalt m).
    + injection Hrun as <-.
      apply (counters_below_mono k); [lia|exact Hc].
    + destruct (step_defined m Hok) as (m1 & Hstep & Hok1 & _).
      rewrite Hstep in Hrun. simpl in Hrun.
      pose proof (step_counters k m m1 Hok Hk Hc Hstep) as Hc1.
      pose proof (IH (k + 2) m1 m' Hok1 ltac:(lia) Hc1 Hrun) as H.
      replace (k + 2 * Z.of_nat (S fuel))
        with (k + 2 + 2 * Z.of_nat fuel) by lia.
      exact H.
Qed.

Lemma newCache_counters size assoc bsize c :
  newCache size assoc bsize = Some c -> lru_below 0 c = true.
Proof.
  intros H. apply newCache_Some in H as (_ & _ & _ & _ & ->).
  apply lru_below_spec. simpl.
  apply Forall_replicate. simpl. apply Forall_replicate. simpl. lia.
Qed.

Lemma newCache_built size assoc bsize :
  0 < assoc -> 0 < bsize -> assoc * bsize <= size <= INT_MAX ->
  exists c, newCache size assoc bsize = Some c /\ cache_ok c = true
            /\ lru_below 0 c = true.
Proof.
  intros Ha Hb Hs.
  assert (Hq : 0 < Z.quot size (assoc * bsize)).
  { rewrite Z.quot_div_nonneg by lia. apply Z.div_str_pos. lia. }
  destruct (newCache_exists size assoc bsize) as [c Hnew]; try lia.
  exists c. split; [exact Hnew|].
  destruct (newCache_geometry _ _ _ _ Hnew) as (_ & _ & _ & Hn).
  split; [|exact (newCache_counters _ _ _ _ Hnew)].
  apply (newCache_ok _ _ _ _ Hnew Hb). now rewrite Hn.
Qed.

(** What the loop reaches from well-formed caches with counters 0. *)
Lemma simulate_with_counters l1 l2 words fuel m :
  cache_ok l1 = true ->
  match l2 with Some c => cache_ok c = true | None => True end ->
  lru_below 0 l1 = true ->
  match l2 with Some c => lru_below 0 c = true | None => True end ->
  simulate_with l1 l2 words fuel = Returned m
  \/ simulate_with l1 l2 words fuel = Running m ->
  counters_below (2 * Z.of_nat fuel) m = true.
Proof.
  intros Hok1 Hok2 Hc1 Hc2 Hsim.
  assert (Hrun : run fuel (initial words l1 l2) = Some m).
  { unfold simulate_with in Hsim.
    destruct (negb _); [destruct Hsim; discriminate|].
    destruct (_ >? _); [destruct Hsim; discriminate|].
    destruct (run fuel (initial words l1 l2)) as [m0|];
      [|destruct Hsim; discriminate].
    destruct (isHalt m0); destruct Hsim as [E|E];
      try discriminate; now injection E as ->. }
  apply (run_counters fuel 0 _ m (initial_ok words l1 l2 Hok1 Hok2)
           ltac:(lia)); [|exact Hrun].
  apply counters_below_intro; simpl; [exact Hc1|].
  destruct l2; auto.
Qed.

(** X24.  With [int] cache parameters that give at least one row
    (positive associativity and block size, size >= associativity *
    blocksize, for L1 and for L2) and a program whose words [stoi] reads
    (none above [INT_MAX]), the simulation does not leave defined
    behaviour in fewer than 2^30 iterations of its loop: no division by
    zero, no index outside a row, a cache or memory, and every [lru]
    counter is at most twice the number of iterations, so that its
    increments do not overflow.  It ends with "Program too big" exactly
    when the program has more than 8192 words, and otherwise it runs. *)
Theorem main_never_aborts s1 a1 b1 s2 a2 b2 words fuel :
  0 < a1 -> 0 < b1 -> a1 * b1 <= s1 <= INT_MAX ->
  0 < a2 -> 0 < b2 -> a2 * b2 <= s2 <= INT_MAX ->
  forallb numeral_ok words = true ->
  2 * Z.of_nat fuel <= INT_MAX ->
  let one := main [s1; a1; b1] words fuel in
  let two := main [s1; a1; b1; s2; a2; b2] words fuel in
  one <> Aborted /\ two <> Aborted
  /\ one <> InvalidConfig /\ two <> InvalidConfig
  /\ (one = ProgramTooBig <-> 8192 < Z.of_nat (length words))
  /\ (two = ProgramTooBig <-> 8192 < Z.of_nat (length words))
  /\ (forall m,
        one = Returned m \/ one = Running m
        \/ two = Returned m \/ two = Running m ->
        counters_below (2 * Z.of_nat fuel) m = true
        /\ counters_below INT_MAX m = true).
Proof.
  intros Ha1 Hb1 Hs1 Ha2 Hb2 Hs2 Hwords Hfuel one two.
  destruct (newCache_built s1 a1 b1 Ha1 Hb1 Hs1)
    as (l1 & Hnew1 & Hok1 & Hc1).
  destruct (newCache_built s2 a2 b2 Ha2 Hb2 Hs2)
    as (l2 & Hnew2 & Hok2 & Hc2).
  assert (Hint : INT_MIN < 0) by reflexivity.
  assert (Hle1 : a1 <= a1 * b1 /\ b1 <= a1 * b1) by nia.
  assert (Hle2 : a2 <= a2 * b2 /\ b2 <= a2 * b2) by nia.
  assert (Hp1 : forallb int_ok [s1; a1; b1] = true).
  { simpl. rewrite !andb_true_iff, !int_ok_spec. lia. }
  assert (Hp2 : forallb int_ok [s1; a1; b1; s2; a2; b2] = true).
  { simpl. rewrite !andb_true_iff, !int_ok_spec. lia. }
  assert (Hone : one = simulate_with l1 None words fuel).
  { unfold one, main. rewrite Hp1. simpl. now rewrite Hnew1. }
  assert (Htwo : two = simulate_with l1 (Some l2) words fuel).
  { unfold two, main. rewrite Hp2. simpl. now rewrite Hnew1, Hnew2. }
  assert (Hbig : forall o,
    simulate_with l1 o words fuel = ProgramTooBig
    <-> 8192 < Z.of_nat (length words)).
  { intros o. unfold simulate_with.
    rewrite forallb_take by exact Hwords. cbv [negb].
    unfold MEM_SIZE. change (Z.shiftl 1 13) with 8192.
    destruct (Z.gtb_spec (Z.of_nat (length words)) 8192) as [Hgt|Hle].
    - split; [lia|reflexivity].
    - split; [|lia].
      destruct (run fuel (initial words l1 o)) as [m|]; [|discriminate].
      destruct (isHalt m); discriminate. }
  rewrite Hone, Htwo.
  split; [now apply simulate_with_defined|].
  split; [now apply simulate_with_defined|].
  split; [apply simulate_with_valid|]. split; [apply simulate_with_valid|].
  split; [apply Hbig|]. split; [apply Hbig|].
  intros m Hm.
  assert (Hc : counters_below (2 * Z.of_nat fuel) m = true).
  { destruct Hm as [E|[E|[E|E]]].
    - apply (simulate_with_counters l1 None words fuel); auto.
    - apply (simulate_with_counters l1 None words fuel); auto.
    - apply (simulate_with_counters l1 (Some l2) words fuel); auto.
    - apply (simulate_with_counters l1 (Some l2) words fuel); auto. }
  split; [exact Hc|]. now apply (counters_below_mono (2 * Z.of_nat fuel)).
Qed.

Lemma main_never_aborts_witness :
  0 < 1 /\ 0 < 1 /\ 1 * 1 <= 4 <= INT_MAX
  /\ 0 < 2 /\ 0 < 2 /\ 2 * 2 <= 16 <= INT_MAX
  /\ forallb numeral_ok store_load_program = true
  /\ 2 * Z.of_nat 3 <= INT_MAX
  /\ main [4; 1; 1; 16; 2; 2] store_load_program 3 <> Aborted
  /\ main [4; 1; 1; 16; 2; 2] store_load_program 3 <> ProgramTooBig
  /\ exists m,
       main [4; 1; 1; 16; 2; 2] store_load_program 3 = Running m
       /\ counters_below 6 m = true.
Proof.
  assert (H1 : 1 * 1 <= 4 <= INT_MAX) by (split; discriminate).
  assert (H2 : 2 * 2 <= 16 <= INT_MAX) by (split; discriminate).
  assert (Hw : forallb numeral_ok store_load_program = true)
    by (vm_compute; reflexivity).
  assert (Hf : 2 * Z.of_nat 3 <= INT_MAX) by discriminate.
  split; [lia|]. split; [lia|]. split; [exact H1|].
  split; [lia|]. split; [lia|]. split; [exact H2|].
  split; [exact Hw|]. split; [exact Hf|].
  destruct (main_never_aborts 4 1 1 16 2 2 store_load_program 3
              ltac:(lia) ltac:(lia) H1 ltac:(lia) ltac:(lia) H2 Hw Hf)
    as (_ & Hdef & _ & _ & _ & Hbig & Hcount).
  split; [exact Hdef|].
  split; [intros E; apply Hbig in E; vm_compute in E; discriminate E|].
  assert (Hrun : exists m,
            main [4; 1; 1; 16; 2; 2] store_load_program 3 = Running m)
    by (eexists; vm_compute; reflexivity).
  destruct Hrun as [m Hrun]. exists m. split; [exact Hrun|].
  apply (Hcount m). auto.
Defined.

End Runs.

(** * The loader *)

Section Loader.

Implicit Types (lines pre rest : list Line) (mem : list Z).

Lemma digits_below_range base ds :
  Forall (fun d => 0 <= d < base) (digits_below base ds).
Proof.
  induction ds as [|d ds IH]; simpl; [constructor|].
  destruct (Z.leb_spec 0 d); simpl; [|constructor].
  destruct (Z.ltb_spec d base); constructor; auto.
Qed.

Lemma value_of_nonneg base ds :
  Forall (fun d => 0 <= d < base) ds -> 0 <= value_of base ds.
Proof.
  intros H. unfold value_of.
  assert (Hgen : forall acc,
    0 <= acc -> 0 <= fold_left (fun acc d => acc * base + d) ds acc).
  { induction H as [|d ds Hd _ IH]; intros acc Hacc; simpl;
      [exact Hacc|].
    apply IH. nia. }
  apply Hgen. lia.
Qed.

(** What [stoi] returns is an [int] that is not negative. *)
Lemma stoi_range base ds v :
  stoi base ds = Some v -> numeral_ok v = true.
Proof.
  unfold stoi. pose proof (digits_below_range base ds) as Hd.
  destruct (digits_below base ds) as [|d p]; [discriminate|].
  apply value_of_nonneg in Hd.
  destruct (Z.leb_spec (value_of base (d :: p)) INT_MAX); [|discriminate].
  intros E. injection E as <-. unfold numeral_ok.
  apply andb_true_iff. lia.
Qed.

Lemma read_line_Some line addr instr :
  read_line line = Some (addr, instr)
  <-> exists a w, line = Ram a w /\ stoi 10 a = Some addr
                  /\ stoi 2 w = Some instr.
Proof.
  split.
  - destruct line as [|a w]; simpl; [discriminate|].
    destruct (stoi 10 a) as [x|] eqn:Ha; [|discriminate].
    destruct (stoi 2 w) as [y|] eqn:Hw; [|discriminate].
    simpl. intros E. injection E as <- <-. eauto.
  - intros (a & w & -> & Ha & Hw). simpl. now rewrite Ha, Hw.
Qed.

(** One line that is read, at its address. *)
Lemma load_lines_cons line addr instr rest e mem :
  read_line line = Some (addr, instr) ->
  load_lines (line :: rest) e mem
  = if negb (addr =? e) then OutOfSequence addr
    else if MEM_SIZE <=? addr then TooBig
    else load_lines rest (e + 1) (wr mem addr (u16 instr)).
Proof.
  intros H. apply read_line_Some in H as (a & w & -> & Ha & Hw).
  simpl. now rewrite Ha, Hw.
Qed.

Lemma words_of_cons line addr instr rest :
  read_line line = Some (addr, instr) ->
  words_of (line :: rest) = instr :: words_of rest.
Proof. intros H. unfold words_of. simpl. now rewrite H. Qed.

(** The lines of a prefix in sequence are all stored. *)
Lemma load_lines_prefix pre : forall rest e mem,
  in_sequence e pre = true -> 0 <= e ->
  e + Z.of_nat (length pre) <= 8192 ->
  Z.of_nat (length mem) = 8192 ->
  length (words_of pre) = length pre
  /\ forallb numeral_ok (words_of pre) = true
  /\ load_lines (pre ++ rest) e mem
     = load_lines rest (e + Z.of_nat (length pre))
         (take (Z.to_nat e) mem ++ map u16 (words_of pre)
          ++ drop (Z.to_nat e + length pre) mem).
Proof.
  induction pre as [|line pre IH]; intros rest e mem Hseq He Hfit Hlen.
  - simpl. rewrite Z.add_0_r, Nat.add_0_r, take_drop. auto.
  - simpl in Hseq.
    destruct (read_line line) as [[a w]|] eqn:Hline; [|discriminate].
    apply andb_true_iff in Hseq as [Ha Hseq].
    apply Z.eqb_eq in Ha. subst a.
    rewrite (words_of_cons _ _ _ _ Hline).
    cbn [length] in *. cbn [app]. rewrite (load_lines_cons _ _ _ _ _ _ Hline).
    rewrite Z.eqb_refl. cbv [negb].
    unfold MEM_SIZE. change (Z.shiftl 1 13) with 8192.
    destruct (Z.leb_spec 8192 e); [lia|].
    destruct (IH rest (e + 1) (wr mem e (u16 w)) Hseq ltac:(lia)
                ltac:(lia) ltac:(rewrite length_wr; exact Hlen))
      as (Hwl & Hwn & Hload).
    split; [cbn [length]; now rewrite Hwl|].
    split.
    { cbn [forallb]. rewrite Hwn.
      apply read_line_Some in Hline as (ad & wd & _ & _ & Hw).
      now rewrite (stoi_range _ _ _ Hw). }
    rewrite Hload. f_equal; [lia|]. unfold wr.
    replace (Z.to_nat (e + 1)) with (S (Z.to_nat e)) by lia.
    rewrite (take_S_r _ _ (u16 w))
      by (apply list_lookup_insert_eq; lia).
    rewrite take_insert_ge by lia.
    rewrite drop_insert_lt by lia.
    rewrite <- app_assoc. simpl.
    rewrite Nat.add_succ_r. reflexivity.
Qed.

Lemma load_machine_code_fill words :
  Z.of_nat (length words) <= 8192 ->
  load_machine_code words
  = map u16 words ++ drop (length words) zero_memory.
Proof.
  intros Hfit. unfold load_machine_code, zero_memory.
  change MEM_SIZE with 8192.
  rewrite take_app, length_map, drop_replicate, take_replicate.
  rewrite take_ge by (rewrite length_map; lia).
  do 2 f_equal. lia.
Qed.

(** The loader accepts its input only when every line is read and in
    sequence. *)
Lemma load_lines_loaded lines : forall e mem mem',
  load_lines lines e mem = Loaded mem' ->
  in_sequence e lines = true
  /\ (lines <> [] -> e + Z.of_nat (length lines) <= 8192).
Proof.
  induction lines as [|line lines IH]; intros e mem mem' H.
  - split; [reflexivity|congruence].
  - destruct (read_line line) as [[a w]|] eqn:Hline.
    + rewrite (load_lines_cons _ _ _ _ _ _ Hline) in H.
      simpl. rewrite Hline.
      destruct (Z.eqb_spec a e) as [->|]; simpl in H; [|discriminate].
      unfold MEM_SIZE in H. change (Z.shiftl 1 13) with 8192 in H.
      destruct (Z.leb_spec 8192 e); [discriminate|].
      destruct (IH _ _ _ H) as [Hseq Hfit]. split; [exact Hseq|].
      intros _. destruct lines; [simpl; lia|].
      specialize (Hfit ltac:(discriminate)). simpl length in *. lia.
    + exfalso. destruct line as [|ad wd]; simpl in H; [discriminate|].
      simpl in Hline.
      destruct (stoi 10 ad); [|discriminate].
      destruct (stoi 2 wd); discriminate.
Qed.

(** X25.  [load_machine_code] line by line.  Lines that match the
    pattern, whose two numerals [stoi] reads and whose addresses count up
    from 0, at most 8192 of them, are stored in their order, each word cut
    to 16 bits, and the rest of memory stays 0; the words are [int]s that
    are not negative.  The line after them ends the loader: with "Can't
    parse line" when it does not match, with an uncaught exception when a
    numeral has no digit of its base in front or exceeds [INT_MAX], with
    "out of sequence" when its address is not its line number, and with
    "Program too big" at line number 8192.  Nothing else is loaded. *)
Theorem load_lines_spec pre :
  in_sequence 0 pre = true -> Z.of_nat (length pre) <= 8192 ->
  load_lines pre 0 zero_memory = Loaded (load_machine_code (words_of pre))
  /\ length (words_of pre) = length pre
  /\ forallb numeral_ok (words_of pre) = true
  /\ (forall rest,
        load_lines (pre ++ Unmatched :: rest) 0 zero_memory = CantParse)
  /\ (forall a w rest,
        stoi 10 a = None \/ stoi 2 w = None ->
        load_lines (pre ++ Ram a w :: rest) 0 zero_memory = Thrown)
  /\ (forall line addr instr rest,
        read_line line = Some (addr, instr) ->
        addr <> Z.of_nat (length pre) ->
        load_lines (pre ++ line :: rest) 0 zero_memory
        = OutOfSequence addr)
  /\ (forall line instr rest,
        Z.of_nat (length pre) = 8192 ->
        read_line line = Some (8192, instr) ->
        load_lines (pre ++ line :: rest) 0 zero_memory = TooBig)
  /\ (forall lines mem,
        load_lines lines 0 zero_memory = Loaded mem ->
        in_sequence 0 lines = true /\ Z.of_nat (length lines) <= 8192
        /\ mem = load_machine_code (words_of lines)).
Proof.
  intros Hseq Hfit.
  assert (Hzero : Z.of_nat (length zero_memory) = 8192)
    by (unfold zero_memory; rewrite length_replicate; reflexivity).
  assert (Hpre : forall pre0 rest,
    in_sequence 0 pre0 = true -> Z.of_nat (length pre0) <= 8192 ->
    load_lines (pre0 ++ rest) 0 zero_memory
    = load_lines rest (Z.of_nat (length pre0))
        (load_machine_code (words_of pre0))).
  { intros pre0 rest Hs Hf.
    destruct (load_lines_prefix pre0 rest 0 zero_memory Hs ltac:(lia)
                ltac:(lia) Hzero) as (Hwl & _ & Hload).
    rewrite Hload.
    rewrite load_machine_code_fill by (rewrite Hwl; lia).
    rewrite Hwl. reflexivity. }
  destruct (load_lines_prefix pre [] 0 zero_memory Hseq ltac:(lia)
              ltac:(lia) Hzero) as (Hwl & Hwn & _).
  split; [rewrite <- (app_nil_r pre) at 1; now rewrite Hpre|].
  split; [exact Hwl|]. split; [exact Hwn|].
  split; [intros rest; now rewrite Hpre|].
  split.
  { intros a w rest Hthrow. rewrite Hpre by assumption. simpl.
    destruct (stoi 10 a); [|reflexivity].
    destruct Hthrow as [E|E]; [discriminate|]. now rewrite E. }
  split.
  { intros line addr instr rest Hline Hne. rewrite Hpre by assumption.
    rewrite (load_lines_cons _ _ _ _ _ _ Hline).
    apply Z.eqb_neq in Hne. now rewrite Hne. }
  split.
  { intros line instr rest Hfull Hline. rewrite Hpre by assumption.
    rewrite (load_lines_cons _ _ _ _ _ _ Hline).
    rewrite Hfull. reflexivity. }
  intros lines mem Hload.
  destruct (load_lines_loaded lines 0 zero_memory mem Hload) as [Hs Hf].
  assert (Hf' : Z.of_nat (length lines) <= 8192)
    by (destruct lines; [simpl; lia|apply Hf; discriminate]).
  split; [exact Hs|]. split; [exact Hf'|].
  rewrite <- (app_nil_r lines) in Hload at 1.
  rewrite Hpre in Hload by assumption. now injection Hload.
Qed.

Lemma load_lines_spec_witness :
  in_sequence 0 sample_lines = true
  /\ Z.of_nat (length sample_lines) <= 8192
  /\ words_of sample_lines = [6; 65543; 1]
  /\ (exists mem, load_lines sample_lines 0 zero_memory = Loaded mem
                  /\ take 4 mem = [6; 7; 1; 0])
  /\ load_lines sample_gap 0 zero_memory = OutOfSequence 3
  /\ load_lines sample_long 0 zero_memory = Thrown.
Proof.
  assert (Hseq : in_sequence 0 sample_lines = true) by reflexivity.
  assert (Hfit : Z.of_nat (length sample_lines) <= 8192)
    by (vm_compute; discriminate).
  split; [exact Hseq|]. split; [exact Hfit|].
  split; [reflexivity|].
  destruct (load_lines_spec sample_lines Hseq Hfit) as (Hload & _).
  split; [eexists; split; [exact Hload|]; vm_compute; reflexivity|].
  assert (Hseq2 : in_sequence 0 (take 2 sample_gap) = true)
    by reflexivity.
  destruct (load_lines_spec (take 2 sample_gap) Hseq2
              ltac:(vm_compute; discriminate))
    as (_ & _ & _ & _ & _ & Hgap & _).
  split.
  - apply (Hgap (Ram [3] [1; 2; 1]) 3 1 []); [reflexivity|].
    vm_compute. discriminate.
  - assert (Hseq1 : in_sequence 0 (take 1 sample_long) = true)
      by reflexivity.
    destruct (load_lines_spec (take 1 sample_long) Hseq1
                ltac:(vm_compute; discriminate))
      as (_ & _ & _ & _ & Hthrow & _).
    apply (Hthrow [1] (replicate 32 1) []). right.
    vm_compute. reflexivity.
Defined.

End Loader.

(** * 16-bit words

    The model keeps [uint16_t] values as integers and writes the
    conversion [u16] where the code computes in [int] and stores the
    result.  Where the code stores a value that is 16 bits wide already (a
    register or a memory cell, their [|] and [&], a masked immediate) the
    model writes no conversion; this section shows that none is needed. *)

Section Words.

Implicit Types (m : Machine).

Lemma word_ok_spec z : word_ok z = true <-> 0 <= z < 65536.
Proof. unfold word_ok. rewrite andb_true_iff. lia. Qed.

Lemma word_ok_u16 z : word_ok (u16 z) = true.
Proof. apply word_ok_spec. apply Z.mod_pos_bound. lia. Qed.

Lemma word_ok_fixed z : word_ok z = true <-> u16 z = z.
Proof.
  rewrite word_ok_spec. unfold u16. split.
  - intros H. now apply Z.mod_small.
  - intros <-. apply Z.mod_pos_bound. lia.
Qed.

Lemma u16_land z : u16 z = Z.land z 65535.
Proof.
  unfold u16. change 65535 with (Z.ones 16).
  now rewrite Z.land_ones by lia.
Qed.

Lemma word_ok_lor a b :
  word_ok a = true -> word_ok b = true -> word_ok (Z.lor a b) = true.
Proof.
  rewrite !word_ok_fixed, !u16_land. intros Ha Hb.
  now rewrite Z.land_lor_distr_l, Ha, Hb.
Qed.

Lemma word_ok_land a b :
  word_ok b = true -> word_ok (Z.land a b) = true.
Proof.
  rewrite !word_ok_fixed, !u16_land. intros Hb.
  now rewrite <- Z.land_assoc, Hb.
Qed.

Lemma word_ok_flag (b : bool) : word_ok (if b then 1 else 0) = true.
Proof. now destruct b. Qed.

Lemma word_ok_imm13 instr : word_ok (Z.land instr 8191) = true.
Proof. now apply word_ok_land. Qed.

Lemma words_rd (l : list Z) i : forallb word_ok l = true -> word_ok (rd l i) = true.
Proof.
  unfold rd. generalize (Z.to_nat i) as n.
  induction l as [|x l IH]; intros n H.
  - reflexivity.
  - simpl in H. apply andb_true_iff in H as [Hx Hl].
    destruct n as [|n]; [exact Hx|]. now apply IH.
Qed.

Lemma words_wr (l : list Z) i v :
  forallb word_ok l = true -> word_ok v = true ->
  forallb word_ok (wr l i v) = true.
Proof.
  unfold wr. generalize (Z.to_nat i) as n.
  induction l as [|x l IH]; intros n H Hv.
  - reflexivity.
  - simpl in H. apply andb_true_iff in H as [Hx Hl].
    destruct n as [|n]; simpl; apply andb_true_iff; auto.
Qed.

Lemma words_ok_elim m :
  words_ok m = true ->
  word_ok (pc m) = true /\ forallb word_ok (regs m) = true
  /\ forallb word_ok (memory m) = true.
Proof.
  unfold words_ok. rewrite !andb_true_iff. tauto.
Qed.

Lemma words_ok_intro p r mem l1 l2 h o :
  word_ok p = true -> forallb word_ok r = true ->
  forallb word_ok mem = true ->
  words_ok (mkMachine p r mem l1 l2 h o) = true.
Proof.
  intros Hp Hr Hm. unfold words_ok. simpl. now rewrite Hp, Hr, Hm.
Qed.

Create HintDb words.

Hint Resolve word_ok_u16 word_ok_lor word_ok_land word_ok_flag
  word_ok_imm13 words_rd words_wr : words.

Lemma execute_instruction_words instr m :
  words_ok m = true -> words_ok (execute_instruction instr m) = true.
Proof.
  intros H. destruct (words_ok_elim m H) as (Hp & Hr & Hm).
  unfold execute_instruction.
  repeat match goal with
         | |- context [if ?b =? ?c then _ else _] => destruct (b =? c)
         end;
    apply words_ok_intro; auto 6 with words.
Qed.

Lemma execute_control_instruction_words instr m :
  words_ok m = true ->
  words_ok (execute_control_instruction instr m) = true.
Proof.
  intros H. destruct (words_ok_elim m H) as (Hp & Hr & Hm).
  unfold execute_control_instruction.
  repeat match goal with
         | |- context [if ?b =? ?c then _ else _] => destruct (b =? c)
         end;
    apply words_ok_intro; auto 6 with words.
Qed.

Lemma execute_imm_instruction_words instr m m' :
  words_ok m = true -> execute_imm_instruction instr m = Some m' ->
  words_ok m' = true.
Proof.
  intros H. destruct (words_ok_elim m H) as (Hp & Hr & Hm).
  destruct (opcode_cases instr)
    as [Hop|[Hop|[Hop|[Hop|[Hop|[Hop|[Hop|Hop]]]]]]].
  1, 3, 4: unfold execute_imm_instruction;
    change (Z.land (Z.shiftr instr 13) 7) with (opcode_of instr);
    rewrite Hop; simpl; intros Hs; injection Hs as <-;
    apply words_ok_intro; auto 6 with words.
  - rewrite exec_addi by exact Hop. intros Hs. injection Hs as <-.
    apply words_ok_intro; auto 6 with words.
  - rewrite exec_lw by exact Hop. cbv zeta.
    destruct (loadWord _ _) as [[[l1 res1] l1Row]|]; [|discriminate].
    simpl.
    destruct (match l2Cache m with Some _ => _ | None => _ end)
      as [[[l2 hit] out2]|]; [|discriminate].
    simpl. intros Hs. injection Hs as <-.
    apply words_ok_intro; auto with words.
    destruct (negb hit); auto 6 with words.
  - rewrite exec_sw by exact Hop.
    destruct (storeWord _ _) as [[l1 l1Row]|]; [|discriminate].
    simpl.
    destruct (match l2Cache m with Some _ => _ | None => _ end)
      as [[l2 out2]|]; [|discriminate].
    simpl. intros Hs. injection Hs as <-.
    apply words_ok_intro; auto 6 with words.
  - rewrite exec_jeq by exact Hop. intros Hs. injection Hs as <-.
    apply words_ok_intro; auto with words.
    destruct (_ =? _); auto with words.
  - rewrite exec_slti by exact Hop. intros Hs. injection Hs as <-.
    apply words_ok_intro; auto 6 with words.
Qed.

Lemma step_words m m' :
  words_ok m = true -> step m = Some m' -> words_ok m' = true.
Proof.
  intros H. unfold step.
  destruct (_ && _).
  { intros Hs. injection Hs as <-. exact H. }
  destruct (_ =? _).
  { intros Hs. injection Hs as <-. now apply execute_instruction_words. }
  destruct (_ || _).
  { now apply execute_imm_instruction_words. }
  destruct (_ || _); intros Hs; injection Hs as <-;
    [now apply execute_control_instruction_words|exact H].
Qed.

Lemma load_machine_code_words words :
  forallb word_ok (load_machine_code words) = true.
Proof.
  apply forallb_forall. intros x Hx. unfold load_machine_code in Hx.
  apply list_elem_of_In, elem_of_take in Hx as (i & Hx & _).
  apply lookup_app_Some in Hx as [Hx|[_ Hx]].
  - apply list_lookup_fmap_Some in Hx as (w & -> & _).
    apply word_ok_u16.
  - apply lookup_replicate in Hx as [-> _]. reflexivity.
Qed.

(** X26.  Every value stays 16 bits wide.  The machine [main] starts has
    its pc, registers and memory cells in [0, 65536), and so has every
    machine the loop reaches from one that has: the bitwise or and and of
    registers, the loaded and the stored word and the jump targets need no
    conversion to [uint16_t]. *)
Theorem words_stay_16_bit words l1 l2 fuel m m' :
  words_ok m = true -> run fuel m = Some m' ->
  words_ok (initial words l1 l2) = true /\ words_ok m' = true.
Proof.
  intros H Hrun. split.
  - apply words_ok_intro; [reflexivity|reflexivity|].
    apply load_machine_code_words.
  - revert m H Hrun. induction fuel as [|fuel IH]; intros m H Hrun.
    + simpl in Hrun. now injection Hrun as <-.
    + simpl in Hrun. destruct (isHalt m).
      * now injection Hrun as <-.
      * destruct (step m) as [m1|] eqn:Hstep; [|discriminate].
        simpl in Hrun. apply (IH m1); [|exact Hrun].
        exact (step_words m m1 H Hstep).
Qed.

Lemma words_stay_16_bit_witness :
  words_ok sample_bits = true
  /\ exists m',
       run 3 sample_bits = Some m'
       /\ regs m' = [0; 65535; 43690; 65535; 43690; 0; 0; 0]
       /\ pc m' = 65535
       /\ words_ok m' = true.
Proof.
  assert (H : words_ok sample_bits = true) by (vm_compute; reflexivity).
  split; [exact H|].
  assert (Hrun : exists m', run 3 sample_bits = Some m'
                   /\ regs m' = [0; 65535; 43690; 65535; 43690; 0; 0; 0]
                   /\ pc m' = 65535)
    by (eexists; split; [vm_compute; reflexivity|]; split; reflexivity).
  destruct Hrun as (m' & Hrun & Hregs & Hpc).
  exists m'. split; [exact Hrun|]. split; [exact Hregs|].
  split; [exact Hpc|].
  exact (proj2 (words_stay_16_bit [] (cache_of 4 1 1) None 3
                  sample_bits m' H Hrun)).
Defined.

End Words.
